(** * rise: template synthesis and deployment orchestration

    A shallow embedding of the deploy engine of [rise-cli]: the update step
    ([updateStack] with its three builders [getFunctionResources],
    [getAPIResources] and [getTriggerResources]) and the ping step
    ([pingFunctions]).

    Conventions of the embedding.
    - A JavaScript object that the code iterates ([for .. in], [Object.keys])
      is an association list in property order; [prop] reads a property.
      [null] and [undefined] are both [None]: the code only ever tests such
      values with [!= null], [||] or [if (..)].
    - An object that is only written and read by key (a set of template
      resources) is a [gmap string _]; [Object.assign({}, a, b)] is [b ∪ a].
    - The JSON templates ([cf-*.json]) are not part of the sources.  A parsed
      template instance is a typed [Fragment] that records the values spliced
      into its placeholders; a value that is [undefined] is [None].
    - Strings are sequences of 8-bit characters; [toUpperCase] is the ASCII
      one.  Keys that name members of [Object.prototype] are not modelled. *)

From Stdlib Require Import ZArith Ascii String List.
From stdpp Require Import gmap strings list fin_maps pretty.

Open Scope string_scope.
Open Scope Z_scope.

(** ** JavaScript strings and objects *)

Module JS.

(** [s.indexOf(t)], searching from position [i] on. *)
Fixpoint indexOf_from (s t : string) (i : Z) : Z :=
  if String.prefix t s then i
  else match s with
       | EmptyString => -1
       | String _ s' => indexOf_from s' t (i + 1)
       end.

Definition indexOf (s t : string) : Z := indexOf_from s t 0.

Definition startsWith (s t : string) : bool := String.prefix t s.

Definition upper_ascii (c : ascii) : ascii :=
  let n := nat_of_ascii c in
  if ((97 <=? n)%nat && (n <=? 122)%nat)%bool then ascii_of_nat (n - 32) else c.

Fixpoint toUpperCase (s : string) : string :=
  match s with
  | EmptyString => EmptyString
  | String c s' => String (upper_ascii c) (toUpperCase s')
  end.

(** [s[0]] and [s[s.length - 1]]; [None] is [undefined]. *)
Definition first_char (s : string) : option ascii :=
  match s with
  | EmptyString => None
  | String c _ => Some c
  end.

Fixpoint last_char (s : string) : option ascii :=
  match s with
  | EmptyString => None
  | String c EmptyString => Some c
  | String _ s' => last_char s'
  end.

(** [s.substr(start, len)] for non-negative arguments. *)
Definition substr (s : string) (start len : nat) : string :=
  String.substring start len s.

(** [s.substr(start)]. *)
Definition substr_from (s : string) (start : nat) : string :=
  String.substring start (String.length s) s.

(** [s.split(c)] for a one-character separator. *)
Fixpoint split (c : ascii) (s : string) : list string :=
  match s with
  | EmptyString => [EmptyString]
  | String a s' =>
      if Ascii.eqb a c then EmptyString :: split c s'
      else match split c s' with
           | t :: ts => String a t :: ts
           | [] => [String a EmptyString]
           end
  end.

(** [l.join(sep)]. *)
Fixpoint join (sep : string) (l : list string) : string :=
  match l with
  | [] => EmptyString
  | [x] => x
  | x :: l' => x +:+ sep +:+ join sep l'
  end.

(** [s.replace(/[cs]/g, '')]: every character of [cs] removed. *)
Fixpoint remove_chars (cs : list ascii) (s : string) : string :=
  match s with
  | EmptyString => EmptyString
  | String a s' =>
      if existsb (Ascii.eqb a) cs then remove_chars cs s'
      else String a (remove_chars cs s')
  end.

(** [o[k]] on an object given by its properties in order. *)
Fixpoint prop {V : Type} (o : list (string * V)) (k : string) : option V :=
  match o with
  | [] => None
  | (k', v) :: o' => if String.eqb k' k then Some v else prop o' k
  end.

(** [Object.keys(o)]. *)
Definition keys {V : Type} (o : list (string * V)) : list string := map fst o.

End JS.

(** ** Template documents *)

(** A reference to the resource a fragment hangs under: the root of the REST
    API ([Fn::GetAtt RiseAPI.RootResourceId]) or another resource ([Ref]). *)
Inductive ResourceRef : Type :=
| RootResourceId
| Ref (name : string).

Inductive Fragment : Type :=
| LambdaFunction (handler s3Key s3Bucket : string) (timeout memorySize : option Z)
| LambdaVersion (functionName : string)
| LambdaPermission (functionName : string)
| RestAPI (name : string)
| APIResource (lastPath : string) (parentId : ResourceRef)
| APIMethod (method functionName : string) (resourceId : ResourceRef)
| CorsMethod (corsMethods : string) (resourceId : ResourceRef)
| Other (body : string).

#[global] Instance ResourceRef_eq_dec : EqDecision ResourceRef.
Proof. solve_decision. Defined.

#[global] Instance Fragment_eq_dec : EqDecision Fragment.
Proof. solve_decision. Defined.

(** [Object.assign({}, a, b)]: the properties of [b] win. *)
Definition assign (a b : gmap string Fragment) : gmap string Fragment := b ∪ a.

(** ** The function manifest *)

(** One trigger declaration: an object whose first key is the kind. *)
Definition TriggerDecl : Type := list (string * string).

Record FunctionSetting : Type := mkSetting {
  timeout : option Z;
  memory : option Z;
  triggers : option (list TriggerDecl);
  bare : bool
}.

(** [session.functions]: name to setting; a [null] entry is [None]. *)
Definition Manifest : Type := list (string * option FunctionSetting).

(** [functions[name]], with [null] and [undefined] identified. *)
Definition entry (functions : Manifest) (name : string) : option FunctionSetting :=
  mjoin (JS.prop functions name).

Record UploadedFunction : Type := mkUploaded {
  functionName : string;
  uploadPath : string
}.

(** ** Function resources *)

Module FunctionResources.

(** [functions.default || { timeout: 3, memory: 128 }] *)
Definition builtinSetting : FunctionSetting :=
  {| timeout := Some 3; memory := Some 128; triggers := None; bare := false |}.

Definition defaultSetting (functions : Manifest) : FunctionSetting :=
  match entry functions "default" with
  | Some d => d
  | None => builtinSetting
  end.

(** The [timeout] spliced into [$TIMEOUT] for [funcName]. *)
Definition resolveTimeout (functions : Manifest) (funcName : string) : option Z :=
  let timeout0 := timeout (defaultSetting functions) in
  match entry functions funcName with
  | Some func => match timeout func with Some t => Some t | None => timeout0 end
  | None => timeout0
  end.

(** The [memorySize] spliced into [$MEMORY_SIZE] for [funcName]. *)
Definition resolveMemory (functions : Manifest) (funcName : string) : option Z :=
  let memory0 := memory (defaultSetting functions) in
  match entry functions funcName with
  | Some func => match memory func with Some m => Some m | None => memory0 end
  | None => memory0
  end.

(** The body of the loop over [uploadedFunctions]. *)
Definition addFunction (bucketName : string) (functions : Manifest)
    (resources : gmap string Fragment) (uploadedFunction : UploadedFunction)
    : gmap string Fragment :=
  let funcName := functionName uploadedFunction in
  let r1 := <[funcName :=
               LambdaFunction "index" (uploadPath uploadedFunction) bucketName
                 (resolveTimeout functions funcName)
                 (resolveMemory functions funcName)]> resources in
  let r2 := <[funcName +:+ "Version" := LambdaVersion funcName]> r1 in
  <[funcName +:+ "Permission" := LambdaPermission funcName]> r2.

Definition getFunctionResources (bucketName version : string)
    (functions : Manifest) (uploadedFunctions : list UploadedFunction)
    : gmap string Fragment :=
  foldl (addFunction bucketName functions) ∅ uploadedFunctions.

(** The chain as section 4.1 of the specification words it, value by
    value: the function's own entry, else the manifest's [default] entry,
    else the built-in. *)
Definition chain_spec {A : Type} (field : FunctionSetting → option A)
    (builtin : A) (functions : Manifest) (funcName : string) : option A :=
  match entry functions funcName ≫= field with
  | Some v => Some v
  | None =>
      match entry functions "default" ≫= field with
      | Some v => Some v
      | None => Some builtin
      end
  end.

End FunctionResources.

(** ** The route tree *)

Module APIResources.

(** [method['x-rise']]: the target function and the optional CORS flag. *)
Record MethodBinding : Type := mkBinding {
  function : string;
  cors : option bool
}.

(** [paths[p]]: HTTP method to binding, in property order. *)
Definition Methods : Type := list (string * MethodBinding).

(** [routes['x-rise'].default], or [{}] when [x-rise] or its [default] is
    missing: only [cors] is read. *)
Record RouteSetting : Type := mkRouteSetting {
  defaultCors : option bool
}.

Record Routes : Type := mkRoutes {
  paths : list (string * Methods);
  xRiseDefault : option RouteSetting
}.

(** A node of [pathTree]; [children] is keyed by token. *)
#[warnings="-register-all"]
Inductive Node : Type :=
  mkNode { name : string; isRoot : bool; children : list (string * Node) }.

(** [children[token] = child]: replaced in place, or added at the end. *)
Fixpoint setChild (cs : list (string * Node)) (token : string) (child : Node)
    : list (string * Node) :=
  match cs with
  | [] => [(token, child)]
  | (k, c) :: cs' =>
      if String.eqb k token then (k, child) :: cs'
      else (k, c) :: setChild cs' token child
  end.

Definition pathTree : Node :=
  {| name := "RiseAPIResource"; isRoot := true; children := [] |}.

(** [ResourceId] / [ParentId] of a fragment hanging under [res]. *)
Definition refTo (res : Node) : ResourceRef :=
  if isRoot res then RootResourceId else Ref (name res).

Definition createAPIResource (parent : Node) (name' p : string)
    : gmap string Fragment :=
  {[ name' := APIResource p (refTo parent) ]}.

(** A value used as a condition: [undefined] is falsy. *)
Definition truthy (c : option bool) : bool :=
  match c with
  | Some b => b
  | None => false
  end.

(** The CORS flag of one method: its own when not [null], else the default. *)
Definition resolveCors (defaultSetting : RouteSetting) (method : MethodBinding)
    : bool :=
  match cors method with
  | Some c => c
  | None => truthy (defaultCors defaultSetting)
  end.

(** The body of the loop over [methods]: the state is [result] and
    [corsMethods]. *)
Definition addMethod (res : Node) (defaultSetting : RouteSetting)
    (st : gmap string Fragment * list string) (mb : string * MethodBinding)
    : gmap string Fragment * list string :=
  let m := JS.toUpperCase (fst mb) in
  let methodResourceName := name res +:+ m in
  let result := <[methodResourceName :=
                   APIMethod m (function (snd mb)) (refTo res)]> (fst st) in
  (result, if resolveCors defaultSetting (snd mb) then (snd st ++ [m])%list else snd st).

Definition createAPIMethod (res : Node) (defaultSetting : RouteSetting)
    (methods : Methods) : gmap string Fragment :=
  let st := foldl (addMethod res defaultSetting) (∅, []) methods in
  match snd st with
  | [] => fst st
  | _ :: _ =>
      <[name res +:+ "OPTIONS" :=
         CorsMethod (JS.join "," (snd st ++ ["OPTIONS"])%list) (refTo res)]> (fst st)
  end.

(** The methods of a node whose CORS flag resolves to true, in upper case
    and in the order of the declaration. *)
Definition corsEnabled (defaultSetting : RouteSetting) (methods : Methods)
    : list string :=
  map (λ mb, JS.toUpperCase (fst mb))
      (List.filter (λ mb, resolveCors defaultSetting (snd mb)) methods).

(** The normalisation of a path key and its split into tokens. *)
Definition tokensOf (p : string) : list string :=
  let trimedPath :=
    if decide (JS.first_char p = Some "/"%char) then JS.substr_from p 1 else p in
  let trimedPath :=
    if decide (JS.last_char trimedPath = Some "/"%char)
    then JS.substr trimedPath 0 (String.length p - 1)
    else trimedPath in
  JS.split "/" trimedPath.

Section Walk.

(** [titlecase] of [utils/stringHelper], which the sources do not include. *)
Variable titlecase : string → string.

Variable defaultSetting : RouteSetting.

(** The loop over the tokens of one path, started at [parent] with the
    given [result].  The child a token leads to is looked up or created,
    the rest of the path is walked below it, and the parent is returned
    with that child in place. *)
Fixpoint walk (methods : Methods) (tokens : list string) (parent : Node)
    (result : gmap string Fragment) : Node * gmap string Fragment :=
  match tokens with
  | [] => (parent, result)
  | token :: rest =>
      let name' :=
        name parent +:+ titlecase (JS.remove_chars ["{"; "}"]%char token) in
      if decide (token = EmptyString) then
        walk methods rest parent
          (assign result (createAPIMethod parent defaultSetting methods))
      else
        let created :=
          match JS.prop (children parent) token with
          | Some child => (child, result)
          | None =>
              ({| name := name'; isRoot := false; children := [] |},
               assign result (createAPIResource parent name' token))
          end in
        let result' :=
          match rest with
          | [] => assign (snd created)
                    (createAPIMethod (fst created) defaultSetting methods)
          | _ :: _ => snd created
          end in
        let below := walk methods rest (fst created) result' in
        ({| name := name parent; isRoot := isRoot parent;
            children := setChild (children parent) token (fst below) |},
         snd below)
  end.

(** The body of the loop over [paths]. *)
Definition addPath (st : Node * gmap string Fragment) (pm : string * Methods)
    : Node * gmap string Fragment :=
  walk (snd pm) (tokensOf (fst pm)) (fst st) (snd st).

(** The same walk, recording the objects merged into [result], in order. *)
Fixpoint walkTrace (methods : Methods) (tokens : list string) (parent : Node)
    : Node * list (gmap string Fragment) :=
  match tokens with
  | [] => (parent, [])
  | token :: rest =>
      let name' :=
        name parent +:+ titlecase (JS.remove_chars ["{"; "}"]%char token) in
      if decide (token = EmptyString) then
        let below := walkTrace methods rest parent in
        (fst below, createAPIMethod parent defaultSetting methods :: snd below)
      else
        let created :=
          match JS.prop (children parent) token with
          | Some child => (child, [])
          | None =>
              ({| name := name'; isRoot := false; children := [] |},
               [createAPIResource parent name' token])
          end in
        let emitted :=
          match rest with
          | [] => (snd created
                    ++ [createAPIMethod (fst created) defaultSetting methods])%list
          | _ :: _ => snd created
          end in
        let below := walkTrace methods rest (fst created) in
        ({| name := name parent; isRoot := isRoot parent;
            children := setChild (children parent) token (fst below) |},
         (emitted ++ snd below)%list)
  end.

Definition addPathTrace (st : Node * list (gmap string Fragment))
    (pm : string * Methods) : Node * list (gmap string Fragment) :=
  let w := walkTrace (snd pm) (tokensOf (fst pm)) (fst st) in
  (fst w, (snd st ++ snd w)%list).

End Walk.

Definition getAPIResources (titlecase : string → string) (routes : Routes)
    : gmap string Fragment :=
  let defaultSetting :=
    match xRiseDefault routes with
    | Some d => d
    | None => {| defaultCors := None |}
    end in
  snd (foldl (addPath titlecase defaultSetting) (pathTree, ∅) (paths routes)).

(** Every object [getAPIResources] merges into its result, in order. *)
Definition emitted (titlecase : string → string) (routes : Routes)
    : list (gmap string Fragment) :=
  let defaultSetting :=
    match xRiseDefault routes with
    | Some d => d
    | None => {| defaultCors := None |}
    end in
  snd (foldl (addPathTrace titlecase defaultSetting) (pathTree, []) (paths routes)).

(** [Object.assign] over a sequence of objects, starting from [{}]. *)
Definition merge (objects : list (gmap string Fragment)) : gmap string Fragment :=
  foldl assign ∅ objects.

(** No name is given two different fragments by the objects of [es]. *)
Definition agreeb (o1 o2 : gmap string Fragment) : bool :=
  bool_decide (map_Forall (λ n f, o2 !! n = None ∨ o2 !! n = Some f) o1).

Definition consistentb (es : list (gmap string Fragment)) : bool :=
  forallb (λ o1, forallb (agreeb o1) es) es.

(** The node a chain of tokens leads to, from [t] down. *)
Fixpoint find (t : Node) (chain : list string) : option Node :=
  match chain with
  | [] => Some t
  | token :: chain' =>
      match JS.prop (children t) token with
      | Some child => find child chain'
      | None => None
      end
  end.

(** A node of the same name and kind without children. *)
Definition fresh (t : Node) : Node :=
  {| name := name t; isRoot := isRoot t; children := [] |}.

(** The tree [t] is one the walk builds, and [es] holds what was emitted
    for it: every child is named after its parent and token, is not the
    root, and its resource fragment is among [es]. *)
Definition wellFormed (titlecase : string → string) (t : Node)
    (es : list (gmap string Fragment)) : Prop :=
  ∀ chain parent token child,
    find t chain = Some parent →
    JS.prop (children parent) token = Some child →
    name child
    = name parent +:+ titlecase (JS.remove_chars ["{"; "}"]%char token)
    ∧ isRoot child = false
    ∧ createAPIResource parent (name child) token ∈ es.

(** Modelled from the spec: [titlecase], which is absent from the sources;
    a token is capitalized, so that [id] contributes [Id]. *)
Definition titlecase_capitalize (s : string) : string :=
  match s with
  | EmptyString => EmptyString
  | String c s' => String (JS.upper_ascii c) s'
  end.

End APIResources.

(** ** Trigger resources *)

Module TriggerResources.

(** The five sub-builders of [./triggers/], which the sources do not
    include.  Each returns the resources it contributes.  The stream builder
    is handed the execution role, an object it may change in place: it
    returns the role as it leaves it. *)
Record Builders : Type := mkBuilders {
  getS3Trigger : string → string → gmap string Fragment;
  getCloudWatchEventTrigger : string → string → gmap string Fragment;
  getCloudWatchLogsTrigger : string → string → string → gmap string Fragment;
  getStreamTrigger :
    string → string → option Fragment → gmap string Fragment * option Fragment;
  getSNSTrigger : string → string → gmap string Fragment
}.

(** What the loops of [getTriggerResources] change: [resources], the role
    object, and the lines written with [log.error]. *)
Record State : Type := mkState {
  resources : gmap string Fragment;
  role : option Fragment;
  errors : list string
}.

(** The trigger list the loop body settles on for [funcName]:
    [defaultSetting.triggers], overwritten with the function's own
    [triggers] property when the function's entry is not [null]. *)
Definition triggersOf (functions : Manifest) (funcName : string)
    : option (list TriggerDecl) :=
  let defaultTriggers :=
    match entry functions "default" with
    | Some d => triggers d
    | None => None
    end in
  match entry functions funcName with
  | Some func => triggers func
  | None => defaultTriggers
  end.

(** The five cases of the [switch]. *)
Definition recognized (triggerName : string) : bool :=
  bool_decide (triggerName ∈ ["s3"; "cloudwatch_events"; "cloudwatch_logs";
                               "stream"; "sns"]).

(** [Object.keys(triggers[i])[0]] *)
Definition kindOf (decl : TriggerDecl) : option string :=
  head (JS.keys decl).

(** The body of the loop over [triggers]. *)
Definition addTrigger (b : Builders) (funcName region : string) (st : State)
    (decl : TriggerDecl) : State :=
  match decl with
  | [] =>
      {| resources := resources st; role := role st;
         errors := (errors st ++ ["Unknown trigger undefined."])%list |}
  | (triggerName, trigger) :: _ =>
      let merge r :=
        {| resources := r ∪ resources st; role := role st;
           errors := errors st |} in
      if decide (triggerName = "s3") then
        merge (getS3Trigger b trigger funcName)
      else if decide (triggerName = "cloudwatch_events") then
        merge (getCloudWatchEventTrigger b trigger funcName)
      else if decide (triggerName = "cloudwatch_logs") then
        merge (getCloudWatchLogsTrigger b trigger funcName region)
      else if decide (triggerName = "stream") then
        let r := getStreamTrigger b trigger funcName (role st) in
        {| resources := fst r ∪ resources st; role := snd r;
           errors := errors st |}
      else if decide (triggerName = "sns") then
        merge (getSNSTrigger b trigger funcName)
      else
        {| resources := resources st; role := role st;
           errors :=
             (errors st ++ ["Unknown trigger " +:+ triggerName +:+ "."])%list |}
  end.

(** The body of the loop over the names of [functions]. *)
Definition addFunctionTriggers (b : Builders) (functions : Manifest)
    (region : string) (st : State) (funcName : string) : State :=
  if decide (funcName = "default") then st
  else
    match triggersOf functions funcName with
    | Some ts => foldl (addTrigger b funcName region) st ts
    | None => st
    end.

Definition getTriggerResources (b : Builders) (functions : Manifest)
    (region : string) (roleResource : option Fragment) : State :=
  foldl (addFunctionTriggers b functions region)
    {| resources := ∅; role := roleResource; errors := [] |}
    (JS.keys functions).

(** The chain as section 4.3 of the specification words it: the function's
    own trigger list if it declares one, else that of the [default] entry. *)
Definition triggers_chain_spec (functions : Manifest) (funcName : string)
    : option (list TriggerDecl) :=
  match entry functions funcName ≫= triggers with
  | Some ts => Some ts
  | None => entry functions "default" ≫= triggers
  end.

(** A manifest with the declarations of unrecognized kind taken out of every
    trigger list. *)
Definition recognizedDecl (decl : TriggerDecl) : bool :=
  match kindOf decl with
  | Some k => recognized k
  | None => false
  end.

Definition dropUnknown (functions : Manifest) : Manifest :=
  map (λ kv,
         (fst kv,
          (λ f, {| timeout := timeout f; memory := memory f;
                   triggers := filter (λ d, recognizedDecl d = true) <$> triggers f;
                   bare := bare f |}) <$> snd kv))
      functions.

(** Every declaration the two loops visit, in order. *)
Definition declarations (functions : Manifest) : list TriggerDecl :=
  funcName ← JS.keys functions;
  if decide (funcName = "default") then []
  else default [] (triggersOf functions funcName).

(** The line [log.error] writes for a declaration of unrecognized kind. *)
Definition unknownLine (decl : TriggerDecl) : string :=
  match kindOf decl with
  | Some k => "Unknown trigger " +:+ k +:+ "."
  | None => "Unknown trigger undefined."
  end.

End TriggerResources.

(** ** The deploy session and the remote services *)

Record Session : Type := mkSession {
  stackName : string;
  bucketName : string;
  region : string;
  version : string;
  functions : Manifest;
  compressedFunctions : list UploadedFunction;
  routes : APIResources.Routes;
  state : string;
  cfTemplate : gmap string Fragment   (* session.aws.cfTemplate.Resources *)
}.

Definition setState (session : Session) (st : string) : Session :=
  {| stackName := stackName session; bucketName := bucketName session;
     region := region session; version := version session;
     functions := functions session;
     compressedFunctions := compressedFunctions session;
     routes := routes session; state := st;
     cfTemplate := cfTemplate session |}.

Definition setTemplate (session : Session) (t : gmap string Fragment) : Session :=
  {| stackName := stackName session; bucketName := bucketName session;
     region := region session; version := version session;
     functions := functions session;
     compressedFunctions := compressedFunctions session;
     routes := routes session; state := state session;
     cfTemplate := t |}.

(** An error object; [message] may be missing. *)
Record JSError : Type := mkError {
  message : option string;
  code : string
}.

(** How a step's promise settles; the session is one shared object, so its
    fields as the step leaves them are part of both outcomes. *)
Inductive StepResult : Type :=
| Resolved (session : Session)
| Rejected (err : JSError) (session : Session).

(** ** The update step *)

Module UpdateStack.

(** The stack service as the step sees it.  [cfUpdateStack] and [cfWaitFor]
    give the rejection of the request for a stack name (and template), or
    [None] when it is fulfilled.  The session is an object its creator keeps
    hold of: [written] is the state tag other code (a cancellation) stores
    in it while the request is pending, [None] when nobody does. *)
Record Remote : Type := mkRemote {
  cfUpdateStack : string → gmap string Fragment → option JSError;
  cfWaitFor : string → option JSError;
  written : option string
}.

Definition noUpdates : string := "No updates are to be performed".
Definition notReady : string := "Resource is not in the state stackUpdateComplete".

(** The [.catch] handler: the outcome and the line logged, if any. *)
Definition onRejected (session : Session) (err : JSError)
    : StepResult * list string :=
  match message err with
  | Some msg =>
      if decide (msg = EmptyString) then (Rejected err session, [])
      else if decide (JS.indexOf msg noUpdates ≠ -1) then
        (Resolved session,
         ["No updates on updating stack. Proceed to the next step"])
      else if decide (state session ≠ "UPDATING"
                      ∧ JS.indexOf msg notReady ≠ -1) then
        (Resolved session, [])
      else (Rejected err session, [])
  | None => (Rejected err session, [])
  end.

(** [getBaseTemplate]: the resources of [cf-base.json], given as [cfBase],
    with the REST API added. *)
Definition getBaseTemplate (cfBase : gmap string Fragment) (stackName : string)
    : gmap string Fragment :=
  <["RiseAPI" := RestAPI (stackName +:+ " API")]> cfBase.

(** The template the step builds, and the lines its builders log. *)
Definition buildTemplate (b : TriggerResources.Builders)
    (titlecase : string → string) (cfBase : gmap string Fragment)
    (session : Session) : gmap string Fragment * list string :=
  let r0 := getBaseTemplate cfBase (stackName session) in
  let r1 := assign r0
              (FunctionResources.getFunctionResources (bucketName session)
                 (version session) (functions session)
                 (compressedFunctions session)) in
  let r2 := assign r1 (APIResources.getAPIResources titlecase (routes session)) in
  let t := TriggerResources.getTriggerResources b (functions session)
             (region session) (r2 !! "RiseRole") in
  let r2' := match TriggerResources.role t with
             | Some r => <["RiseRole" := r]> r2
             | None => r2
             end in
  (TriggerResources.resources t ∪ r2', TriggerResources.errors t).

(** The session as the step leaves it when it sends the request. *)
Definition submitted (b : TriggerResources.Builders)
    (titlecase : string → string) (cfBase : gmap string Fragment)
    (session : Session) : Session :=
  setState
    (setTemplate session (fst (buildTemplate b titlecase cfBase session)))
    "UPDATING".

(** The session as the handlers of the request find it: whatever else
    holds the object may have written its state in the meantime. *)
Definition pending (remote : Remote) (session : Session) : Session :=
  match written remote with
  | Some st => setState session st
  | None => session
  end.

(** The error the chain [updateStack(..).then(waitForUpdate)] is rejected
    with, if it is. *)
Definition rejection (remote : Remote) (session : Session) : option JSError :=
  match cfUpdateStack remote (stackName session) (cfTemplate session) with
  | Some err => Some err
  | None => cfWaitFor remote (stackName session)
  end.

Definition updateStack (b : TriggerResources.Builders)
    (titlecase : string → string) (cfBase : gmap string Fragment)
    (remote : Remote) (session : Session) : StepResult * list string :=
  let built := buildTemplate b titlecase cfBase session in
  let session := submitted b titlecase cfBase session in
  let info s := ("Updating stack [" +:+ stackName session +:+ "]...") :: s in
  match cfUpdateStack remote (stackName session) (cfTemplate session) with
  | Some err =>
      let r := onRejected (pending remote session) err in
      (fst r, (snd built ++ snd r)%list)
  | None =>
      (* waitForUpdate *)
      match cfWaitFor remote (stackName session) with
      | Some err =>
          let r := onRejected (pending remote session) err in
          (fst r, (snd built ++ info (snd r))%list)
      | None =>
          (Resolved (setState (pending remote session) "UPDATED"),
           (snd built
              ++ info ["Updated stack [" +:+ stackName session +:+ "]..."])%list)
      end
  end.

End UpdateStack.

(** ** The ping step *)

Module Ping.

Record InvokeData : Type := mkInvokeData {
  StatusCode : Z;
  Payload : string
}.

(** The function service: [listFunctions] settles with the names under
    [data.Functions[i].FunctionName] or rejects; the [n]-th [invoke] of the
    step, for a function name and payload, settles with [data] or rejects. *)
Record Lambda : Type := mkLambda {
  listFunctions : JSError + list string;
  invoke : nat → string → string → JSError + InvokeData
}.

Definition dquote : string := String (ascii_of_nat 34) EmptyString.

(** [JSON.stringify({riseTest: 1})] *)
Definition riseTest : string := "{" +:+ dquote +:+ "riseTest" +:+ dquote +:+ ":1}".

(** The body every invocation has to answer with. *)
Definition testOk : string :=
  "{" +:+ dquote +:+ "test" +:+ dquote +:+ ":" +:+ dquote +:+ "ok" +:+ dquote +:+ "}".

Definition notDeployed : JSError :=
  {| message := Some "functions are not deployed properly"; code := "Error" |}.

(** An invocation answers the health check: status 200 and the exact body. *)
Definition healthy (r : JSError + InvokeData) : Prop :=
  ∃ data, r = inr data ∧ StatusCode data = 200 ∧ Payload data = testOk.

(** The names the first loop of [pingFunctions] collects. *)
Definition functionNamesToPing (functions : Manifest) : list string :=
  List.filter (λ name, match entry functions name with
                       | Some f => negb (bare f)
                       | None => true
                       end)
              (JS.keys functions).

(** The function names [pingPromiseAll] calls [pingPromise] with, in order:
    one call for every deployed function and every prefix it starts with. *)
Definition pingTargets (stackName : string) (uploadedFunctionNames : list string)
    (deployed : list string) : list string :=
  f ← deployed;
  name ← uploadedFunctionNames;
  if JS.startsWith f (stackName +:+ "-" +:+ name) then [f] else [].

(** [pingPromise], for the [n]-th call: [None] when it is fulfilled. *)
Definition pingPromise (lambda : Lambda) (n : nat) (functionName : string)
    : option JSError :=
  match invoke lambda n functionName riseTest with
  | inr data =>
      if decide (StatusCode data ≠ 200 ∨ Payload data ≠ testOk)
      then Some notDeployed else None
  | inl err => Some err
  end.

(** [Promise.all]: fulfilled when every promise is; otherwise rejected with
    the error of one that is rejected (here the first in call order; which
    one settles first is not modelled). *)
Fixpoint promiseAll (lambda : Lambda) (n : nat) (targets : list string)
    : option JSError :=
  match targets with
  | [] => None
  | f :: targets' =>
      match pingPromise lambda n f with
      | Some err => Some err
      | None => promiseAll lambda (S n) targets'
      end
  end.

Definition pingFunctions (lambda : Lambda) (session : Session) : StepResult :=
  let session := setState session "PINGING" in
  let names := functionNamesToPing (functions session) in
  match listFunctions lambda with
  | inl err => Rejected err session
  | inr deployed =>
      match promiseAll lambda 0 (pingTargets (stackName session) names deployed) with
      | Some err => Rejected err session
      | None => Resolved (setState session "PINGED")
      end
  end.

End Ping.

(** ** Concrete inputs *)

Module Examples.

Definition noBuilders : TriggerResources.Builders :=
  {| TriggerResources.getS3Trigger := λ _ _, ∅;
     TriggerResources.getCloudWatchEventTrigger := λ _ _, ∅;
     TriggerResources.getCloudWatchLogsTrigger := λ _ _ _, ∅;
     TriggerResources.getStreamTrigger := λ _ _ r, (∅, r);
     TriggerResources.getSNSTrigger := λ _ _, ∅ |}.

(** The deploy of property 9 of the specification: one function, one
    route on the root path, no triggers. *)
Definition session : Session :=
  {| stackName := "my-stack"; bucketName := "my-bucket"; region := "us-west-2";
     version := "v1";
     functions :=
       [("appIndex", Some {| timeout := Some 5; memory := None;
                             triggers := None; bare := false |})];
     compressedFunctions :=
       [{| functionName := "appIndex"; uploadPath := "versions/v1/appIndex.zip" |}];
     routes :=
       {| APIResources.paths :=
            [("/", [("get", {| APIResources.function := "appIndex";
                               APIResources.cors := None |})])];
          APIResources.xRiseDefault := None |};
     state := "UPLOADED";
     cfTemplate := ∅ |}.

(** A manifest whose [default] entry sets the memory only. *)
Definition memoryOnlyDefault : Manifest :=
  [("default", Some {| timeout := None; memory := Some 256;
                       triggers := None; bare := false |})].

(** A manifest with nothing but a [default] entry that sets both values. *)
Definition onlyDefault : Manifest :=
  [("default", Some {| timeout := Some 10; memory := Some 256;
                       triggers := None; bare := false |})].

(** An uploaded-package record for the name [default]. *)
Definition defaultRecord : UploadedFunction :=
  {| functionName := "default"; uploadPath := "versions/v1/default.zip" |}.

(** A manifest whose [default] entry declares a trigger, and a function
    with an entry of its own that declares none. *)
Definition defaultTriggers : Manifest :=
  [("default", Some {| timeout := None; memory := None;
                       triggers := Some [[("s3", "uploads")]];
                       bare := false |});
   ("resize", Some {| timeout := Some 5; memory := None;
                      triggers := None; bare := false |})].

(** The methods of property 4 of the specification. *)
Definition getCorsPostPlain : APIResources.Methods :=
  [("GET", {| APIResources.function := "listUsers";
              APIResources.cors := Some true |});
   ("POST", {| APIResources.function := "addUser";
               APIResources.cors := Some false |})].

(** A node that declares an [options] method next to a CORS-enabled one. *)
Definition ownOptions : APIResources.Methods :=
  [("options", {| APIResources.function := "preflight";
                  APIResources.cors := None |});
   ("get", {| APIResources.function := "listUsers";
              APIResources.cors := Some true |})].

Definition noDefault : APIResources.RouteSetting :=
  {| APIResources.defaultCors := None |}.

(** Two path keys of one node, each with its own CORS-enabled method. *)
Definition usersTwice : APIResources.Routes :=
  {| APIResources.paths :=
       [("/users", [("get", {| APIResources.function := "listUsers";
                               APIResources.cors := Some true |})]);
        ("/users/", [("post", {| APIResources.function := "addUser";
                                 APIResources.cors := Some true |})])];
     APIResources.xRiseDefault := None |}.

Definition usersTwiceReversed : APIResources.Routes :=
  {| APIResources.paths := rev (APIResources.paths usersTwice);
     APIResources.xRiseDefault := None |}.

(** A route map with the root path last, and the same paths with the root
    path first. *)
Definition shop : APIResources.Routes :=
  {| APIResources.paths :=
       [("/items/{id}", [("get", {| APIResources.function := "getItem";
                                    APIResources.cors := Some true |});
                         ("put", {| APIResources.function := "putItem";
                                    APIResources.cors := None |})]);
        ("/items", [("post", {| APIResources.function := "addItem";
                                APIResources.cors := Some true |})]);
        ("/", [("get", {| APIResources.function := "appIndex";
                          APIResources.cors := None |})])];
     APIResources.xRiseDefault := None |}.

Definition shopReversed : APIResources.Routes :=
  {| APIResources.paths := rev (APIResources.paths shop);
     APIResources.xRiseDefault := None |}.

Definition notReadyError : JSError :=
  {| message := Some "Resource is not in the state stackUpdateComplete";
     code := "ResourceNotReady" |}.

Definition noUpdatesError : JSError :=
  {| message := Some "No updates are to be performed.";
     code := "ValidationError" |}.

(** The request is accepted and the wait for convergence is rejected with
    [err]; [w] is what a cancellation writes into the session meanwhile. *)
Definition waitRejected (err : JSError) (w : option string) : UpdateStack.Remote :=
  {| UpdateStack.cfUpdateStack := λ _ _, None;
     UpdateStack.cfWaitFor := λ _, Some err;
     UpdateStack.written := w |}.

(** The request itself is rejected with [err]. *)
Definition requestRejected (err : JSError) (w : option string) : UpdateStack.Remote :=
  {| UpdateStack.cfUpdateStack := λ _ _, Some err;
     UpdateStack.cfWaitFor := λ _, None;
     UpdateStack.written := w |}.

End Examples.

(** ** Names and references of the route fragments *)

Module RouteNames.


(** The node one token leads to from [parent]: [parent] itself for the
    empty token, else the child as the walk creates it. *)
Definition step (titlecase : string → string) (parent : APIResources.Node)
    (token : string) : APIResources.Node :=
  if decide (token = EmptyString) then parent
  else {| APIResources.name :=
            APIResources.name parent
            +:+ titlecase (JS.remove_chars ["{"; "}"]%char token);
          APIResources.isRoot := false;
          APIResources.children := [] |}.


End RouteNames.

(** ** More concrete inputs *)

Module MoreExamples.

(** A session whose one function is marked bare. *)
Definition bareSession : Session :=
  {| stackName := "my-stack"; bucketName := "my-bucket"; region := "us-west-2";
     version := "v1";
     functions :=
       [("worker", Some {| timeout := None; memory := None;
                           triggers := None; bare := true |})];
     compressedFunctions :=
       [{| functionName := "worker"; uploadPath := "versions/v1/worker.zip" |}];
     routes := {| APIResources.paths := []; APIResources.xRiseDefault := None |};
     state := "UPLOADED";
     cfTemplate := ∅ |}.

(** The function service with one deployed function, whose invocation
    answers with status 500. *)
Definition failingLambda : Ping.Lambda :=
  {| Ping.listFunctions := inr ["my-stack-appIndex-1ABC"];
     Ping.invoke := λ _ _ _,
       inr {| Ping.StatusCode := 500; Ping.Payload := "Internal error" |} |}.



End MoreExamples.

(** ** The earlier deploy steps

    [DeployFunctions], [updateAPIs] and [deployAPIs] splice their values
    into the text of a template with [String.prototype.replace] and parse
    the result.  The templates are not part of the sources: their text is
    an input here, [None] when [fsReadFile] returns [false]; [JSON.parse]
    is an input as well, [None] when it throws.  The base template is
    taken as parsed, an object with [Resources] and [Outputs].  An
    exception thrown in the executor of the promise rejects it. *)

Module Legacy.

(** [s.replace(pattern, replacement)] for a pattern given as a string: the
    first occurrence is replaced.  (Replacements are taken to hold no [$]
    pattern.) *)
Fixpoint replace (s pattern replacement : string) : string :=
  if String.prefix pattern s
  then replacement +:+ JS.substr_from s (String.length pattern)
  else match s with
       | EmptyString => EmptyString
       | String c s' => String c (replace s' pattern replacement)
       end.

(** [String(v)] of a value spliced in: [undefined] gives its name. *)
Definition textOf (v : option string) : string := default "undefined" v.

Definition numberText (v : option Z) : string :=
  match v with
  | Some z => pretty z
  | None => "undefined"
  end.

(** [functions[funcPath]] of [DeployFunctions]. *)
Record LegacyFunction : Type := mkLegacyFunction {
  handler : option string;
  legacyTimeout : option Z
}.

(** What a promise is rejected with: an error object, the [message] of
    one, or an exception of the given kind thrown by the code itself. *)
Inductive Reason : Type :=
| ErrorObject (err : JSError)
| Message (text : option string)
| Thrown (kind : string).

Inductive Settled (A : Type) : Type :=
| Fulfilled (value : A)
| Refused (reason : Reason).

Arguments Fulfilled {A} value.
Arguments Refused {A} reason.

Section Steps.

(** Parsed JSON, the output list of a stack, and [JSON.parse]. *)
Context {J O : Type}.
Variable parse : string → option J.

(** [path.sep] *)
Variable sep : string.

Record Template : Type := mkTemplate {
  Resources : gmap string J;
  Outputs : gmap string J
}.

(** The stack service: the request emits [success] ([None]) or [error];
    the wait calls back with an error or with the outputs under
    [data.Stacks[0].Outputs]. *)
Record StackService : Type := mkStackService {
  updateStackReply : string → Template → option JSError;
  waitForReply : string → JSError + O
}.

(** [req.on('success', ..)], [req.on('error', ..)], [req.send()]: the
    request for [template], the wait for convergence, and the value
    [resolve] is called with. *)
Definition sendAndWait {A : Type} (cf : StackService) (stackName : string)
    (template : Template) (value : O → A) : Settled A :=
  match updateStackReply cf stackName template with
  | Some err => Refused (Message (message err))
  | None =>
      match waitForReply cf stackName with
      | inl err => Refused (ErrorObject err)
      | inr outputs => Fulfilled (value outputs)
      end
  end.

(** [version] of [DeployFunctions] and [updateAPIs]. *)
Definition version : string := "0.0.2".

(** The variables the loop of [DeployFunctions] writes: the three template
    texts, which it overwrites with their filled-in versions, and the
    parsed base template. *)
Record Loop : Type := mkLoop {
  cfFunctionContent : option string;
  cfFunctionVersionContent : option string;
  cfFunctionArnOutputContent : option string;
  cfBaseContentJSON : Template
}.

(** [funcName] and [s3Key] of the loop. *)
Definition funcNameOf (funcPath : string) : string :=
  replace funcPath sep EmptyString.

Definition s3KeyOf (funcName : string) : string :=
  funcName +:+ "-" +:+ version +:+ ".zip".

(** The three replacements on the text of the function template. *)
Definition fillFunction (content : string) (func : LegacyFunction)
    (funcName : string) : string :=
  replace
    (replace
       (replace content "$HANDLER" (textOf (handler func)))
       "$S3KEY" (s3KeyOf funcName))
    "$TIMEOUT" (numberText (legacyTimeout func)).

Definition fillName (content funcName : string) : string :=
  replace content "$FUNCTION_NAME" funcName.

(** The body of the loop, for one key of [functions].  A missing template
    ([false.replace]) and a [null] entry ([func.handler]) throw a
    [TypeError], a text that does not parse a [SyntaxError]. *)
Definition deployFunction (functions : list (string * option LegacyFunction))
    (st : Loop) (funcPath : string) : Reason + Loop :=
  let funcName := funcNameOf funcPath in
  let func := mjoin (JS.prop functions funcPath) in
  if decide (funcPath = "default") then inr st
  else
    match cfFunctionContent st, func with
    | Some content, Some func =>
        let content := fillFunction content func funcName in
        match parse content with
        | None => inl (Thrown "SyntaxError")
        | Some unit =>
            match cfFunctionVersionContent st with
            | None => inl (Thrown "TypeError")
            | Some vcontent =>
                let vcontent := fillName vcontent funcName in
                match parse vcontent with
                | None => inl (Thrown "SyntaxError")
                | Some ver =>
                    match cfFunctionArnOutputContent st with
                    | None => inl (Thrown "TypeError")
                    | Some ocontent =>
                        let ocontent := fillName ocontent funcName in
                        match parse ocontent with
                        | None => inl (Thrown "SyntaxError")
                        | Some out =>
                            inr {| cfFunctionContent := Some content;
                                   cfFunctionVersionContent := Some vcontent;
                                   cfFunctionArnOutputContent := Some ocontent;
                                   cfBaseContentJSON :=
                                     {| Resources :=
                                          <[funcName +:+ "Version" := ver]>
                                            (<[funcName := unit]>
                                               (Resources (cfBaseContentJSON st)));
                                        Outputs :=
                                          <[funcName := out]>
                                            (Outputs (cfBaseContentJSON st)) |} |}
                        end
                    end
                end
            end
        end
    | _, _ => inl (Thrown "TypeError")
    end.

(** The loop: it ends at the first exception. *)
Fixpoint deployLoop (functions : list (string * option LegacyFunction))
    (st : Loop) (funcPaths : list string) : Reason + Loop :=
  match funcPaths with
  | [] => inr st
  | funcPath :: funcPaths' =>
      match deployFunction functions st funcPath with
      | inl thrown => inl thrown
      | inr st' => deployLoop functions st' funcPaths'
      end
  end.

(** What [DeployFunctions] resolves with. *)
Record Deployed : Type := mkDeployed {
  cfTemplate : Template;
  bucketName : string;
  outputs : O
}.

Definition DeployFunctions (templates : Loop) (cf : StackService)
    (stackName : string) (functions : list (string * option LegacyFunction))
    (bucketName : string) : Settled Deployed :=
  match deployLoop functions templates (JS.keys functions) with
  | inl thrown => Refused thrown
  | inr st =>
      sendAndWait cf stackName (cfBaseContentJSON st)
        (λ outputs, {| cfTemplate := cfBaseContentJSON st;
                       bucketName := bucketName;
                       outputs := outputs |})
  end.

(** The manifest without its [default] entry. *)
Definition withoutDefault (functions : list (string * option LegacyFunction))
    : list (string * option LegacyFunction) :=
  List.filter (λ p, negb (String.eqb (fst p) "default")) functions.

(** [updateAPIs]: the REST API resource is filled in, parsed and put
    under [NFXApi]; it resolves with the template. *)
Definition updateAPIs (cfRestAPIContent : option string) (cf : StackService)
    (stackName : string) (cfTemplate : Template) : Settled Template :=
  match cfRestAPIContent with
  | None => Refused (Thrown "TypeError")
  | Some content =>
      let s3Key := "api-" +:+ version +:+ ".yaml" in
      match parse (replace content "$S3KEY" s3Key) with
      | None => Refused (Thrown "SyntaxError")
      | Some api =>
          let cfTemplate :=
            {| Resources := <["NFXApi" := api]> (Resources cfTemplate);
               Outputs := Outputs cfTemplate |} in
          sendAndWait cf stackName cfTemplate (λ _, cfTemplate)
      end
  end.

(** The object [deployAPIs] is handed and resolves with: [nfx.stackName],
    [nfx.cfTemplate] and [nfx.awsSDK.cf]. *)
Record NFX : Type := mkNFX {
  nfxStackName : string;
  nfxTemplate : Template;
  nfxCf : StackService
}.

(** [deployAPIs]: the deployment resource, for the stage [staging], is put
    under [NFXDeployment]. *)
Definition deployAPIs (cfDeploymentContent : option string) (nfx : NFX)
    : Settled NFX :=
  match cfDeploymentContent with
  | None => Refused (Thrown "TypeError")
  | Some content =>
      match parse (replace content "$STAGE_NAME" "staging") with
      | None => Refused (Thrown "SyntaxError")
      | Some deployment =>
          let nfx :=
            {| nfxStackName := nfxStackName nfx;
               nfxTemplate :=
                 {| Resources :=
                      <["NFXDeployment" := deployment]>
                        (Resources (nfxTemplate nfx));
                    Outputs := Outputs (nfxTemplate nfx) |};
               nfxCf := nfxCf nfx |} in
          sendAndWait (nfxCf nfx) (nfxStackName nfx) (nfxTemplate nfx)
            (λ _, nfx)
      end
  end.

End Steps.

Arguments Template : clear implicits.
Arguments StackService : clear implicits.
Arguments Loop : clear implicits.
Arguments Deployed : clear implicits.
Arguments NFX : clear implicits.

End Legacy.

Module LegacyExamples.

(** A stand-in for [JSON.parse] that keeps the text and refuses the empty
    one, and a stack service that accepts every request. *)
Definition parseText (s : string) : option string :=
  if decide (s = EmptyString) then None else Some s.

Definition accepting : Legacy.StackService string (list string) :=
  {| Legacy.updateStackReply := λ _ _, None;
     Legacy.waitForReply := λ _, inr ["arn:aws:lambda:apiindex"] |}.

Definition emptyTemplate : Legacy.Template string :=
  {| Legacy.Resources := ∅; Legacy.Outputs := ∅ |}.

(** Three templates in which every placeholder occurs once. *)
Definition templates : Legacy.Loop string :=
  {| Legacy.cfFunctionContent :=
       Some "{Handler:$HANDLER,S3Key:$S3KEY,Timeout:$TIMEOUT}";
     Legacy.cfFunctionVersionContent := Some "{FunctionName:{Ref:$FUNCTION_NAME}}";
     Legacy.cfFunctionArnOutputContent :=
       Some "{Value:{GetAtt:[$FUNCTION_NAME,Arn]}}";
     Legacy.cfBaseContentJSON := emptyTemplate |}.

(** The function template could not be read. *)
Definition unreadable : Legacy.Loop string :=
  {| Legacy.cfFunctionContent := None;
     Legacy.cfFunctionVersionContent := Some "{FunctionName:{Ref:$FUNCTION_NAME}}";
     Legacy.cfFunctionArnOutputContent :=
       Some "{Value:{GetAtt:[$FUNCTION_NAME,Arn]}}";
     Legacy.cfBaseContentJSON := emptyTemplate |}.

Definition apiIndex : Legacy.LegacyFunction :=
  {| Legacy.handler := Some "index.handle"; Legacy.legacyTimeout := Some 3 |}.

Definition worker : Legacy.LegacyFunction :=
  {| Legacy.handler := Some "worker.run"; Legacy.legacyTimeout := Some 30 |}.

Definition twoFunctions : list (string * option Legacy.LegacyFunction) :=
  [("api/index", Some apiIndex); ("worker", Some worker)].

End LegacyExamples.

(** ** The framework: responses

    [response.js].  A response collects a status code, headers and a body
    and hands them once to the callback [done] it was created with.  The
    methods are functions of the response they are called on; they return
    the response they leave and either a value or the exception thrown.
    Header names and values are strings, as are the chunks of the body;
    [headers.toNode], of a module that is not among the sources, is an
    input. *)

Module Framework.

Definition lower_ascii (c : ascii) : ascii :=
  let n := nat_of_ascii c in
  if ((65 <=? n)%nat && (n <=? 90)%nat)%bool then ascii_of_nat (n + 32) else c.

(** [s.toLowerCase()], on ASCII. *)
Fixpoint toLowerCase (s : string) : string :=
  match s with
  | EmptyString => EmptyString
  | String c s' => String (lower_ascii c) (toLowerCase s')
  end.

(** White space: space, tab, line feed, vertical tab, form feed, carriage
    return. *)
Definition isSpace (c : ascii) : bool :=
  let n := nat_of_ascii c in
  ((n =? 32)%nat || ((9 <=? n)%nat && (n <=? 13)%nat))%bool.

Fixpoint trimStart (s : string) : string :=
  match s with
  | EmptyString => EmptyString
  | String c s' => if isSpace c then trimStart s' else s
  end.

Fixpoint trimEnd (s : string) : string :=
  match s with
  | EmptyString => EmptyString
  | String c s' =>
      match trimEnd s' with
      | EmptyString => if isSpace c then EmptyString else String c EmptyString
      | t => String c t
      end
  end.

(** [s.trim()], on ASCII. *)
Definition trim (s : string) : string := trimEnd (trimStart s).

Inductive Exception : Type :=
| TypeError (text : string)
| Error (text : string).

(** What [get] returns: [null], the one value, or the array of values. *)
Inductive HeaderValue : Type :=
| Null
| Single (value : string)
| Many (values : list string).

(** [!v] is false. *)
Definition truthy (v : HeaderValue) : bool :=
  match v with
  | Null => false
  | Single value => negb (String.eqb value EmptyString)
  | Many _ => true
  end.

(** A value handed to [set] or [append]: an array of values, or one value;
    a value is given by its [String(value)]. *)
Inductive Value : Type :=
| Scalar (text : string)
| Array (items : list string).

Definition itemsOf (value : Value) : list string :=
  match value with
  | Scalar text => [text]
  | Array items => items
  end.

(** A body handed to [send]: a string, [null], a [Buffer] (with its
    [toString('binary')]), another object, a boolean or a number (with its
    [JSON.stringify]), [undefined], or a value of another type. *)
Inductive Body : Type :=
| Str (text : string)
| NullBody
| Buffer (binary : string)
| Json (stringified : string)
| Undefined
| Unsupported.

(** What [done] is called with. *)
Record Reply (H : Type) : Type := mkReply {
  statusCode : Z;
  headers : H;
  body : string
}.

Arguments mkReply {H} statusCode headers body.
Arguments statusCode {H} r.
Arguments headers {H} r.
Arguments body {H} r.

Inductive Completion (A : Type) : Type :=
| Normal (value : A)
| Throw (exception : Exception).

Arguments Normal {A} value.
Arguments Throw {A} exception.

Section Responses.

Context {H : Type}.
Variable toNode : gmap string (option (list string)) → H.

(** The fields of a response: [reqMethod] is [this.__req.method] when
    there is a request, [hasDone] tells whether [this.__done] is a
    function, [doneCalls] lists the calls of it. *)
Record Response : Type := mkResponse {
  reqMethod : option string;
  hasDone : bool;
  __statusCode : option Z;
  __finished : bool;
  __headers : gmap string (option (list string));
  __body : string;
  doneCalls : list (Reply H)
}.

(** [new Response({req, done})] *)
Definition create (reqMethod : option string) (hasDone : bool) : Response :=
  {| reqMethod := reqMethod; hasDone := hasDone; __statusCode := None;
     __finished := false; __headers := ∅; __body := EmptyString;
     doneCalls := [] |}.

Definition M (A : Type) : Type := Response → Response * Completion A.

#[export] Instance M_ret : MRet M := λ A a r, (r, Normal a).

#[export] Instance M_bind : MBind M := λ A B f m r,
  match m r with
  | (r', Normal a) => f a r'
  | (r', Throw e) => (r', Throw e)
  end.

Definition throw {A : Type} (e : Exception) : M A := λ r, (r, Throw e).

Definition gets {A : Type} (f : Response → A) : M A := λ r, (r, Normal (f r)).

Definition modify (f : Response → Response) : M unit := λ r, (f r, Normal ()).

Definition withStatusCode (code : Z) (r : Response) : Response :=
  {| reqMethod := reqMethod r; hasDone := hasDone r; __statusCode := Some code;
     __finished := __finished r; __headers := __headers r; __body := __body r;
     doneCalls := doneCalls r |}.

Definition withHeaders (h : gmap string (option (list string)))
    (r : Response) : Response :=
  {| reqMethod := reqMethod r; hasDone := hasDone r;
     __statusCode := __statusCode r; __finished := __finished r;
     __headers := h; __body := __body r; doneCalls := doneCalls r |}.

Definition withBody (b : string) (r : Response) : Response :=
  {| reqMethod := reqMethod r; hasDone := hasDone r;
     __statusCode := __statusCode r; __finished := __finished r;
     __headers := __headers r; __body := b; doneCalls := doneCalls r |}.

(** [this.__done(null, reply); this.__finished = true] *)
Definition finish (reply : Reply H) (r : Response) : Response :=
  {| reqMethod := reqMethod r; hasDone := hasDone r;
     __statusCode := __statusCode r; __finished := true;
     __headers := __headers r; __body := __body r;
     doneCalls := (doneCalls r ++ [reply])%list |}.

(** The getter [statusCode]. *)
Definition getStatusCode (r : Response) : Z := default 200 (__statusCode r).

Definition status (code : Z) : M unit := modify (withStatusCode code).

Definition get (field : string) : M HeaderValue :=
  if decide (field = EmptyString)
  then throw (TypeError "`field` must be a non-empty string")
  else
    val ← gets (λ r, __headers r !! toLowerCase field);
    match val with
    | Some (Some [value]) => mret (Single value)
    | Some (Some values) => mret (Many values)
    | _ => mret Null
    end.

Definition fieldError : Exception :=
  TypeError "`field` must be a non-empty string or an object containing a key-value mapping of headers".

(** [this.__headers[field] = val] *)
Definition assignHeader (field : string) (val : option (list string)) : M unit :=
  modify (λ r, withHeaders (<[field := val]> (__headers r)) r).

(** [set(field, value)] for a value that is no array. *)
Definition setScalar (field text : string) : M unit :=
  if decide (field = EmptyString) then throw fieldError
  else assignHeader (toLowerCase field) (Some [trim text]).

(** [append(field, value)] for a value that is no array. *)
Definition appendScalar (field text : string) : M unit :=
  if decide (field = EmptyString) then throw fieldError
  else
    let field := toLowerCase field in
    val ← gets (λ r, __headers r !! field);
    match val with
    | Some (Some values) =>
        assignHeader field (Some (values ++ [trim text])%list)
    | _ => setScalar field text
    end.

Fixpoint forEach {A : Type} (f : A → M unit) (l : list A) : M unit :=
  match l with
  | [] => mret ()
  | x :: l' => f x;; forEach f l'
  end.

Definition set (field : string) (value : Value) : M unit :=
  match value with
  | Array items =>
      if decide (field = EmptyString) then throw fieldError
      else
        let field := toLowerCase field in
        assignHeader field (Some []);;
        forEach (appendScalar field) items
  | Scalar text => setScalar field text
  end.

Definition append (field : string) (value : Value) : M unit :=
  match value with
  | Array items =>
      if decide (field = EmptyString) then throw fieldError
      else forEach (appendScalar (toLowerCase field)) items
  | Scalar text => appendScalar field text
  end.

Definition removeHeader (field : string) : M unit :=
  if decide (field = EmptyString)
  then throw (TypeError "'field' must be a non-empty string")
  else
    let field := toLowerCase field in
    val ← gets (λ r, __headers r !! field);
    match val with
    | Some (Some _) => assignHeader field None
    | _ => mret ()
    end.

(** The content type [type] stands for. *)
Definition mimeOf (type : string) : string :=
  if decide (JS.indexOf type "/" ≠ -1) then type
  else
    let type :=
      if decide (JS.first_char type = Some "."%char)
      then JS.substr_from type 1 else type in
    if decide (type = "htm" ∨ type = "html") then "text/html; charset=utf-8"
    else if decide (type = "js") then "application/javascript; charset=utf-8"
    else if decide (type = "json") then "application/json; charset=utf-8"
    else if decide (type = "txt" ∨ type = "text")
         then "text/plain; charset=utf-8"
    else if decide (type = "bin") then "application/octet-stream"
    else type.

Definition type (type : string) : M unit :=
  if decide (type = EmptyString)
  then throw (TypeError "'type' must be a non-empty string")
  else set "Content-Type" (Scalar (mimeOf type)).

(** [write(chunk)] for a string. *)
Definition write (chunk : string) : M bool :=
  modify (λ r, withBody (__body r +:+ chunk) r);; mret true.

(** [end(data)]; [None] is a call without data. *)
Definition end_ (data : option string) : M bool :=
  match data with
  | Some chunk => write chunk
  | None => mret true
  end;;
  r ← gets id;
  if __finished r then throw (Error "Response is already ended")
  else
    let statusCode := default 200 (__statusCode r) in
    let body :=
      if (bool_decide (reqMethod r = Some "HEAD")
          || bool_decide (__statusCode r = Some 204))%bool
      then EmptyString else __body r in
    if negb (hasDone r) then mret false
    else
      modify (finish {| statusCode := statusCode;
                        headers := toNode (__headers r);
                        body := body |});;
      mret true.

(** [if (!this.get('Content-Type')) this.type(name)] *)
Definition defaultType (name : string) : M unit :=
  contentType ← get "Content-Type";
  if truthy contentType then mret () else type name.

Definition send (body : Body) : M unit :=
  match body with
  | Str text => defaultType "html";; modify (withBody text)
  | NullBody => mret ()
  | Buffer binary => defaultType "bin";; modify (withBody binary)
  | Json stringified => defaultType "json";; modify (withBody stringified)
  | Undefined => mret ()
  | Unsupported => throw (TypeError "Unsupported type for 'body'")
  end;;
  end_ None;;
  mret ().

(** [json(body)], the body given by its [JSON.stringify]. *)
Definition json (stringified : string) : M unit :=
  defaultType "json";;
  modify (withBody stringified);;
  end_ None;;
  mret ().

(** A call of one of the methods, and a program of calls in which a
    thrown exception is caught and ignored. *)
Inductive Call : Type :=
| CallStatus (code : Z)
| CallSet (field : string) (value : Value)
| CallAppend (field : string) (value : Value)
| CallRemoveHeader (field : string)
| CallType (type : string)
| CallWrite (chunk : string)
| CallEnd (data : option string)
| CallSend (body : Body)
| CallJson (stringified : string).

Definition perform (c : Call) (r : Response) : Response :=
  match c with
  | CallStatus code => fst (status code r)
  | CallSet field value => fst (set field value r)
  | CallAppend field value => fst (append field value r)
  | CallRemoveHeader field => fst (removeHeader field r)
  | CallType t => fst (type t r)
  | CallWrite chunk => fst (write chunk r)
  | CallEnd data => fst (end_ data r)
  | CallSend body => fst (send body r)
  | CallJson stringified => fst (json stringified r)
  end.

(** The values stored for a header, none when it is not set. *)
Definition valuesOf (r : Response) (field : string) : list string :=
  match __headers r !! toLowerCase field with
  | Some (Some values) => values
  | _ => []
  end.

(** Whether [this.get('Content-Type')] is true. *)
Definition hasContentType (r : Response) : bool :=
  match get "Content-Type" r with
  | (_, Normal contentType) => truthy contentType
  | _ => false
  end.

End Responses.

Arguments Response : clear implicits.
Arguments M : clear implicits.

(** ** The framework: the middleware stack

    [middleware.js].  A middleware is a function of [fnLength] declared
    parameters; one with four or more is an error handler and is handed
    the error.  It works on the response and then returns, calls [next] -
    with an error or without - or throws; calling [next] is taken to be
    the last thing it does.  [None] is [null] or [undefined]. *)

Section Stack.

Context {H E : Type}.
Variable toNode : gmap string (option (list string)) → H.

(** The line [_defaultErrorHandler] logs for an error: [err.stack] or
    [String(err)]. *)
Variable describe : E → string.

Inductive Outcome : Type :=
| Returns
| CallsNext (err : option E)
| Throws (err : option E).

Record Middleware : Type := mkMiddleware {
  fnLength : nat;
  call : option E → Response H → Response H * Outcome
}.

(** A call of a middleware: its position in the stack, the error it was
    handed, what it did, and the response as it left it. *)
Record Invocation : Type := mkInvocation {
  index : nat;
  error : option E;
  outcome : Outcome;
  after : Response H
}.

(** A run: the response, what was written to [_logStream], and the calls
    made so far. *)
Record Run : Type := mkRun {
  res : Response H;
  logStream : list string;
  invoked : list Invocation
}.

(** What a call passes on to [nextFn], if anything. *)
Definition passes (o : Outcome) : option (option E) :=
  match o with
  | Returns => None
  | CallsNext err => Some err
  | Throws err => Some err
  end.

(** The conditions of the two loops of [nextFn]: without an error the
    functions of more than three parameters are passed over, with one
    those of fewer than four. *)
Definition passesOver (err : option E) (fn : Middleware) : bool :=
  match err with
  | None => (3 <? fnLength fn)%nat
  | Some _ => (fnLength fn <? 4)%nat
  end.

(** [b] is a call of the first function at or after position [i] that
    [nextFn] does not pass over with [err] at hand, and [b] was handed
    [err] if that function is an error handler. *)
Definition firstFit (stack : list Middleware) (i : nat) (err : option E)
    (b : Invocation) : Prop :=
  ∃ fn, stack !! index b = Some fn
        ∧ (i ≤ index b)%nat
        ∧ passesOver err fn = false
        ∧ error b = (if (fnLength fn <? 4)%nat then None else err)
        ∧ ∀ k fk, (i ≤ k < index b)%nat → stack !! k = Some fk →
                  passesOver err fk = true.

Definition newline : string := String (ascii_of_nat 10) EmptyString.

(** [JSON.stringify({ error: 'Internal Server Error' })] *)
Definition internalServerError : string :=
  "{" +:+ Ping.dquote +:+ "error" +:+ Ping.dquote +:+ ":" +:+ Ping.dquote
  +:+ "Internal Server Error" +:+ Ping.dquote +:+ "}".

Definition _defaultErrorHandler (err : E) (st : Run) : Run :=
  let log := (logStream st ++ [describe err +:+ newline])%list in
  if __finished (res st)
  then {| res := res st; logStream := log; invoked := invoked st |}
  else {| res := fst ((status 500;; send toNode (Json internalServerError))
                        (res st));
          logStream := log; invoked := invoked st |}.

(** The call of [fn] in [_run]: [fn(req, res, nextFn)], or
    [fn(err, req, res, nextFn)] for an error handler. *)
Definition invoke (fn : Middleware) (index : nat) (err : option E) (st : Run)
    : Run * Outcome :=
  let err := if (fnLength fn <? 4)%nat then None else err in
  let (res', outcome) := call fn err (res st) in
  ({| res := res'; logStream := logStream st;
      invoked :=
        (invoked st
         ++ [{| index := index; error := err; outcome := outcome;
                after := res' |}])%list |},
   outcome).

(** [nextFn(err)] when [stack] is what follows [_currIndex] and [index] the
    position of its head: it passes over the error handlers when there is
    no error and over the others when there is one, and runs what it
    finds; a thrown value is passed on like an argument of [next]. *)
Fixpoint nextFn (stack : list Middleware) (index : nat) (err : option E)
    (st : Run) : Run :=
  match stack with
  | [] =>
      match err with
      | None => st
      | Some e => _defaultErrorHandler e st
      end
  | fn :: stack' =>
      if passesOver err fn then nextFn stack' (S index) err st
      else
        let (st', outcome) := invoke fn index err st in
        match outcome with
        | Returns => st'
        | CallsNext err' => nextFn stack' (S index) err' st'
        | Throws err' => nextFn stack' (S index) err' st'
        end
  end.

(** [_run(req, res)] at [_currIndex = 0]. *)
Definition _run (stack : list Middleware) (st : Run) : Run :=
  match stack with
  | [] => st
  | fn :: stack' =>
      let (st', outcome) := invoke fn 0 None st in
      match outcome with
      | Returns => st'
      | CallsNext err' => nextFn stack' 1 err' st'
      | Throws err' => nextFn stack' 1 err' st'
      end
  end.

Definition run (stack : list Middleware) (res : Response H) : Run :=
  _run stack {| res := res; logStream := []; invoked := [] |}.

(** The earlier version of the stack, which [src/aws/updateAPIs.js] holds
    as well: [run(req, res, err)] calls itself, without an error [nextFn]
    moves on by one function whatever its parameters, and [_currIndex] is
    never set back.  A run starts at the [_currIndex] the one before left
    and returns the one it leaves. *)
Fixpoint nextFnEarlier (stack : list Middleware) (index : nat)
    (err : option E) (st : Run) : Run * nat :=
  match stack with
  | [] =>
      (match err with
       | None => st
       | Some e => _defaultErrorHandler e st
       end, index)
  | fn :: stack' =>
      if match err with
         | None => false
         | Some _ => (fnLength fn <? 4)%nat
         end
      then nextFnEarlier stack' (S index) err st
      else
        let (st', outcome) := invoke fn index err st in
        match outcome with
        | Returns => (st', index)
        | CallsNext err' => nextFnEarlier stack' (S index) err' st'
        | Throws err' => nextFnEarlier stack' (S index) err' st'
        end
  end.

Definition runEarlier (stack : list Middleware) (_currIndex : nat)
    (res : Response H) : Run * nat :=
  nextFnEarlier (drop _currIndex stack) _currIndex None
    {| res := res; logStream := []; invoked := [] |}.

End Stack.

Arguments Outcome : clear implicits.
Arguments Middleware : clear implicits.
Arguments Invocation : clear implicits.
Arguments Run : clear implicits.

Module StackExamples.

(** Two middleware of three and two parameters: one goes on, one throws. *)
Definition logger : Middleware unit string :=
  {| fnLength := 3; call := λ _ r, (r, CallsNext None) |}.

Definition failing : Middleware unit string :=
  {| fnLength := 2; call := λ _ r, (r, Throws (Some "boom")) |}.

End StackExamples.

End Framework.

(** * Function resources *)

Section FunctionFacts.

Import FunctionResources.

Variables (bucket version : string) (functions : Manifest).

Lemma lookup_addFunction_other resources u n :
  n ≠ functionName u → n ≠ functionName u +:+ "Version" →
  n ≠ functionName u +:+ "Permission" →
  addFunction bucket functions resources u !! n = resources !! n.
Proof.
  intros H1 H2 H3. unfold addFunction.
  by rewrite !lookup_insert_ne by done.
Qed.


(** The runnable unit of an uploaded function is in the result, with the
    resolved settings, unless another record's version or permission
    fragment has taken its name. *)
Lemma getFunctionResources_unit uploaded u :
  u ∈ uploaded →
  (∀ v, v ∈ uploaded →
        functionName u ≠ functionName v +:+ "Version"
        ∧ functionName u ≠ functionName v +:+ "Permission") →
  ∃ v, v ∈ uploaded ∧ functionName v = functionName u
       ∧ getFunctionResources bucket version functions uploaded
           !! functionName u
         = Some (LambdaFunction "index" (uploadPath v) bucket
                   (resolveTimeout functions (functionName u))
                   (resolveMemory functions (functionName u))).
Proof.
  unfold getFunctionResources.
  induction uploaded as [|x uploaded IH] using rev_ind; intros Hu Hfree.
  - by apply elem_of_nil in Hu.
  - rewrite foldl_snoc.
    destruct (Hfree x) as [Hx1 Hx2];
      [rewrite elem_of_app, list_elem_of_singleton; auto|].
    destruct (decide (functionName x = functionName u)) as [Heq|Hne].
    + exists x. split; [rewrite elem_of_app, list_elem_of_singleton; auto|].
      split; [done|]. rewrite <- Heq in *. unfold addFunction.
      rewrite lookup_insert_ne by done. rewrite lookup_insert_ne by done.
      by rewrite lookup_insert_eq.
    + apply elem_of_app in Hu as [Hu|Hu];
        [|apply list_elem_of_singleton in Hu; congruence].
      destruct (IH Hu) as (v & Hv & Hvn & Hl).
      { intros w Hw. apply Hfree. rewrite elem_of_app. auto. }
      exists v. split; [rewrite elem_of_app; auto|]. split; [done|].
      by rewrite lookup_addFunction_other.
Qed.

(** What the code resolves to, read off the manifest. *)
Lemma resolveTimeout_chain n :
  resolveTimeout functions n
  = match entry functions n ≫= timeout with
    | Some t => Some t
    | None => match entry functions "default" with
              | Some d => timeout d
              | None => Some 3
              end
    end.
Proof.
  unfold resolveTimeout, defaultSetting.
  destruct (entry functions n) as [f|]; simpl; [destruct (timeout f)|];
    by destruct (entry functions "default").
Qed.

Lemma resolveMemory_chain n :
  resolveMemory functions n
  = match entry functions n ≫= memory with
    | Some m => Some m
    | None => match entry functions "default" with
              | Some d => memory d
              | None => Some 128
              end
    end.
Proof.
  unfold resolveMemory, defaultSetting.
  destruct (entry functions n) as [f|]; simpl; [destruct (memory f)|];
    by destruct (entry functions "default").
Qed.

End FunctionFacts.

(** What the code does: the runnable unit emitted for an uploaded function
    carries the timeout and memory taken from the function's own manifest
    entry, else from the manifest's [default] entry whenever the manifest
    has one (also when that entry leaves the value unset), else - only when
    the manifest has no [default] entry - the built-ins 3 and 128.  So a
    function with no entry and no manifest default gets 3 and 128, and an
    explicit value of the function overrides both.  (The unit is found
    under the function's name unless another record's [..Version] or
    [..Permission] fragment has that very name.) *)
Lemma function_settings_resolution
    (bucket version : string) (functions : Manifest)
    (uploaded : list UploadedFunction) (u : UploadedFunction) :
  u ∈ uploaded →
  (∀ v, v ∈ uploaded →
        functionName u ≠ functionName v +:+ "Version"
        ∧ functionName u ≠ functionName v +:+ "Permission") →
  let n := functionName u in
  let t := FunctionResources.resolveTimeout functions n in
  let m := FunctionResources.resolveMemory functions n in
  (∃ key, FunctionResources.getFunctionResources bucket version functions
            uploaded !! n
          = Some (LambdaFunction "index" key bucket t m))
  ∧ t = match entry functions n ≫= timeout with
        | Some x => Some x
        | None => match entry functions "default" with
                  | Some d => timeout d
                  | None => Some 3
                  end
        end
  ∧ m = match entry functions n ≫= memory with
        | Some x => Some x
        | None => match entry functions "default" with
                  | Some d => memory d
                  | None => Some 128
                  end
        end
  ∧ (entry functions n = None → entry functions "default" = None →
     t = Some 3 ∧ m = Some 128)
  ∧ (∀ f x, entry functions n = Some f → timeout f = Some x → t = Some x)
  ∧ (∀ f x, entry functions n = Some f → memory f = Some x → m = Some x).
Proof.
  intros Hu Hfree n t m.
  pose proof (resolveTimeout_chain functions n) as Ht.
  pose proof (resolveMemory_chain functions n) as Hm.
  fold t in Ht. fold m in Hm.
  split; [|split; [exact Ht|split; [exact Hm|split; [|split]]]].
  - destruct (getFunctionResources_unit bucket version functions uploaded u
                Hu Hfree) as (v & _ & _ & Hl).
    by exists (uploadPath v).
  - intros Hn Hd. by rewrite Ht, Hm, Hn, Hd.
  - intros f x Hf Hx. rewrite Ht, Hf. simpl. by rewrite Hx.
  - intros f x Hf Hx. rewrite Hm, Hf. simpl. by rewrite Hx.
Qed.

(** The function of [Examples.session]: timeout 5 from its own entry,
    memory 128 built in. *)
Example function_settings_appIndex :
  ∃ key,
    FunctionResources.getFunctionResources "my-bucket" "v1"
      (functions Examples.session) (compressedFunctions Examples.session)
      !! "appIndex"
    = Some (LambdaFunction "index" key "my-bucket" (Some 5) (Some 128)).
Proof.
  refine (proj1 (function_settings_resolution "my-bucket" "v1"
                   (functions Examples.session)
                   (compressedFunctions Examples.session)
                   {| functionName := "appIndex";
                      uploadPath := "versions/v1/appIndex.zip" |} _ _)).
  - apply list_elem_of_singleton. reflexivity.
  - intros v Hv. apply list_elem_of_singleton in Hv as ->.
    split; by vm_compute.
Defined.

(** C4 fails on the code: when the manifest's [default] entry sets only the
    memory and the function has no timeout of its own, the chain of the
    specification ends at the built-in 3, while the value spliced into the
    emitted unit is [undefined]: the built-ins stand in for a missing
    [default] entry, not for a value it leaves unset. *)
Theorem partial_default_leaves_timeout_unset :
  FunctionResources.chain_spec timeout 3 Examples.memoryOnlyDefault "appIndex"
  = Some 3
  ∧ FunctionResources.getFunctionResources "my-bucket" "v1"
      Examples.memoryOnlyDefault (compressedFunctions Examples.session)
      !! "appIndex"
    = Some (LambdaFunction "index" "versions/v1/appIndex.zip" "my-bucket"
              None (Some 256)).
Proof. split; vm_compute; reflexivity. Qed.

(** C3 fails on the code: [getFunctionResources] does not skip an uploaded
    record named [default]; its three fragments are emitted like any
    other's. *)
Theorem default_record_is_synthesized :
  let r := FunctionResources.getFunctionResources "my-bucket" "v1"
             Examples.onlyDefault [Examples.defaultRecord] in
  r !! "default"
  = Some (LambdaFunction "index" "versions/v1/default.zip" "my-bucket"
            (Some 10) (Some 256))
  ∧ r !! "defaultVersion" = Some (LambdaVersion "default")
  ∧ r !! "defaultPermission" = Some (LambdaPermission "default").
Proof. repeat split; vm_compute; reflexivity. Qed.

(** * Methods and preflight of one node *)

Section MethodFacts.

Import APIResources.

Variables (res : Node) (d : RouteSetting).

Lemma foldl_addMethod_cors methods : ∀ r0 l0,
  snd (foldl (addMethod res d) (r0, l0) methods)
  = (l0 ++ corsEnabled d methods)%list.
Proof.
  induction methods as [|[m bnd] methods IH]; intros r0 l0; simpl.
  - by rewrite app_nil_r.
  - unfold addMethod at 2. simpl. unfold corsEnabled. simpl.
    destruct (resolveCors d bnd); rewrite IH; [|done].
    by rewrite <- app_assoc.
Qed.

(** Every fragment of the method loop is a method binding of the node. *)
Lemma foldl_addMethod_lookup methods : ∀ r0 l0 n frag,
  fst (foldl (addMethod res d) (r0, l0) methods) !! n = Some frag →
  r0 !! n = Some frag
  ∨ ∃ m bnd, (m, bnd) ∈ methods ∧ n = name res +:+ JS.toUpperCase m
             ∧ frag = APIMethod (JS.toUpperCase m) (function bnd) (refTo res).
Proof.
  induction methods as [|[m bnd] methods IH]; intros r0 l0 n frag; simpl.
  - auto.
  - intros H. apply IH in H as [H|(m' & b' & Hin & ? & ?)].
    + unfold addMethod in H. simpl in H.
      destruct (decide (n = name res +:+ JS.toUpperCase m)) as [->|Hne].
      * rewrite lookup_insert_eq in H. injection H as <-.
        right. exists m, bnd. split; [apply list_elem_of_here|done].
      * rewrite lookup_insert_ne in H by done. auto.
    + right. exists m', b'. split; [by apply list_elem_of_further|done].
Qed.

(** A declared method has its binding under the node's name followed by
    the method in upper case. *)
Lemma foldl_addMethod_declared methods : ∀ r0 l0 m bnd,
  (m, bnd) ∈ methods →
  ∃ fn, fst (foldl (addMethod res d) (r0, l0) methods)
          !! (name res +:+ JS.toUpperCase m)
        = Some (APIMethod (JS.toUpperCase m) fn (refTo res)).
Proof.
  induction methods as [|x methods IH] using rev_ind; intros r0 l0 m bnd Hin.
  - by apply elem_of_nil in Hin.
  - rewrite foldl_snoc. unfold addMethod at 1. simpl.
    destruct (decide (JS.toUpperCase x.1 = JS.toUpperCase m)) as [Heq|Hne].
    + rewrite Heq, lookup_insert_eq. eauto.
    + rewrite lookup_insert_ne by (intros E; by apply String.app_inj in E).
      apply elem_of_app in Hin as [Hin|Hin]; [by eapply IH|].
      apply list_elem_of_singleton in Hin as <-. done.
Qed.

(** The preflight fragment: present exactly when the CORS list is not
    empty, under one name, with that list followed by OPTIONS. *)
Lemma createAPIMethod_preflight methods n l r :
  createAPIMethod res d methods !! n = Some (CorsMethod l r)
  ↔ corsEnabled d methods ≠ []
    ∧ n = name res +:+ "OPTIONS"
    ∧ l = JS.join "," (corsEnabled d methods ++ ["OPTIONS"])%list
    ∧ r = refTo res.
Proof.
  unfold createAPIMethod.
  pose proof (foldl_addMethod_cors methods ∅ []) as Hc. simpl in Hc.
  pose proof (foldl_addMethod_lookup methods ∅ [] n (CorsMethod l r)) as Hl.
  rewrite Hc. destruct (corsEnabled d methods) as [|c cs] eqn:He.
  - split; [|by intros []]. intros H.
    apply Hl in H as [H|(? & ? & _ & _ & ?)]; [|done].
    by rewrite lookup_empty in H.
  - destruct (decide (n = name res +:+ "OPTIONS")) as [->|Hne].
    + rewrite lookup_insert_eq. split; [by intros [= <- <-]|].
      by intros (_ & _ & -> & ->).
    + rewrite lookup_insert_ne by done. split; [|by intros (_ & ? & _)].
      intros H. apply Hl in H as [H|(? & ? & _ & _ & ?)]; [|done].
      by rewrite lookup_empty in H.
Qed.

End MethodFacts.

(** C7: for the methods {GET: cors=true, POST: cors=false} and no default
    CORS setting, the fragments of the node hold exactly one preflight
    fragment, under the node's name followed by OPTIONS, and its method list
    is exactly 'GET,OPTIONS'.  In general the fragments of a node hold a
    preflight fragment if and only if at least one of the node's methods
    resolves CORS to true (its own flag, else the default); it is the only
    one, and it lists all CORS-enabled methods followed by OPTIONS. *)
Theorem preflight_lists_cors_methods :
  (∀ res n l r,
     APIResources.createAPIMethod res Examples.noDefault
       Examples.getCorsPostPlain !! n = Some (CorsMethod l r)
     ↔ n = APIResources.name res +:+ "OPTIONS" ∧ l = "GET,OPTIONS"
       ∧ r = APIResources.refTo res)
  ∧ (∀ res d methods,
       ((∃ n l r, APIResources.createAPIMethod res d methods !! n
                  = Some (CorsMethod l r))
        ↔ ∃ m bnd, (m, bnd) ∈ methods ∧ APIResources.resolveCors d bnd = true)
       ∧ ∀ n l r,
           APIResources.createAPIMethod res d methods !! n
           = Some (CorsMethod l r) →
           n = APIResources.name res +:+ "OPTIONS"
           ∧ l = JS.join ","
                   (APIResources.corsEnabled d methods ++ ["OPTIONS"])%list
           ∧ r = APIResources.refTo res).
Proof.
  split.
  - intros res n l r. rewrite createAPIMethod_preflight.
    change (APIResources.corsEnabled _ _) with ["GET"].
    change (JS.join _ _) with "GET,OPTIONS".
    split; [by intros (_ & ? & ? & ?)|by intros (? & ? & ?)].
  - intros res d methods.
    assert (Hne : APIResources.corsEnabled d methods ≠ []
                  ↔ ∃ m bnd, (m, bnd) ∈ methods
                             ∧ APIResources.resolveCors d bnd = true).
    { unfold APIResources.corsEnabled. split.
      - intros H.
        destruct (List.filter _ methods) as [|[m bnd] fs] eqn:Hf; [done|].
        assert (In (m, bnd) (List.filter
                  (λ mb, APIResources.resolveCors d mb.2) methods)) as Hin
          by (rewrite Hf; by left).
        apply filter_In in Hin as [Hin Hc]. exists m, bnd.
        by rewrite list_elem_of_In.
      - intros (m & bnd & Hin & Hc) Hnil.
        assert (In (m, bnd) (List.filter
                  (λ mb, APIResources.resolveCors d mb.2) methods)) as Hf
          by (apply filter_In; by rewrite <- list_elem_of_In).
        destruct (List.filter _ methods); [done|discriminate]. }
    split.
    + rewrite <- Hne. split.
      * intros (n & l & r & H). by apply createAPIMethod_preflight in H as [? _].
      * intros H. do 3 eexists. by apply createAPIMethod_preflight.
    + intros n l r H. by apply createAPIMethod_preflight in H as (_ & ? & ? & ?).
Qed.

(** C10: when a node declares its own [options] method and at least one of
    its methods resolves CORS to true, the preflight fragment gets the very
    name of the declared OPTIONS binding (the node's name followed by
    OPTIONS); it is inserted after the bindings, so it takes the place of
    the declared one, and no OPTIONS binding is left in the fragments
    returned. *)
Theorem preflight_replaces_declared_options
    (res : APIResources.Node) (d : APIResources.RouteSetting)
    (methods : APIResources.Methods) (m : string)
    (bnd : APIResources.MethodBinding) :
  (m, bnd) ∈ methods → JS.toUpperCase m = "OPTIONS" →
  (∃ m' bnd', (m', bnd') ∈ methods ∧ APIResources.resolveCors d bnd' = true) →
  let declared := fst (foldl (APIResources.addMethod res d) (∅, []) methods) in
  let n := APIResources.name res +:+ "OPTIONS" in
  let preflight :=
    CorsMethod
      (JS.join "," (APIResources.corsEnabled d methods ++ ["OPTIONS"])%list)
      (APIResources.refTo res) in
  (∃ fn, declared !! n = Some (APIMethod "OPTIONS" fn (APIResources.refTo res)))
  ∧ APIResources.createAPIMethod res d methods = <[n := preflight]> declared
  ∧ APIResources.createAPIMethod res d methods !! n = Some preflight
  ∧ ∀ k fn r, APIResources.createAPIMethod res d methods !! k
              ≠ Some (APIMethod "OPTIONS" fn r).
Proof.
  intros Hin Hup Hcors declared n preflight.
  assert (Hdecl : ∃ fn, declared !! n
                        = Some (APIMethod "OPTIONS" fn (APIResources.refTo res))).
  { subst declared n. rewrite <- Hup. by eapply foldl_addMethod_declared. }
  assert (Hcreate : APIResources.createAPIMethod res d methods
                    = <[n := preflight]> declared).
  { unfold APIResources.createAPIMethod.
    pose proof (foldl_addMethod_cors res d methods ∅ []) as Hc. simpl in Hc.
    rewrite Hc.
    destruct (APIResources.corsEnabled d methods) as [|c cs] eqn:He; [|done].
    exfalso. destruct Hcors as (m' & bnd' & Hin' & Hc').
    assert (In (JS.toUpperCase m') (APIResources.corsEnabled d methods)) as Hi.
    { unfold APIResources.corsEnabled.
      apply (in_map (λ mb, JS.toUpperCase mb.1) _ (m', bnd')).
      apply filter_In. by rewrite <- list_elem_of_In. }
    by rewrite He in Hi. }
  split; [done|]. split; [done|]. split.
  - by rewrite Hcreate, lookup_insert_eq.
  - intros k fn r. rewrite Hcreate.
    destruct (decide (k = n)) as [->|Hne].
    + by rewrite lookup_insert_eq.
    + rewrite lookup_insert_ne by done. intros H.
      apply foldl_addMethod_lookup in H as [H|(m' & b' & _ & -> & [= Hm _ _])].
      * by rewrite lookup_empty in H.
      * apply Hne. subst n. by rewrite <- Hm.
Qed.

(** C10 at the root node with the methods [options] and a CORS-enabled
    [get]. *)
Lemma preflight_replaces_declared_options_witness :
  APIResources.createAPIMethod APIResources.pathTree Examples.noDefault
    Examples.ownOptions !! "RiseAPIResourceOPTIONS"
  = Some (CorsMethod "GET,OPTIONS" RootResourceId).
Proof.
  refine (proj1 (proj2 (proj2
    (preflight_replaces_declared_options APIResources.pathTree
       Examples.noDefault Examples.ownOptions "options"
       {| APIResources.function := "preflight"; APIResources.cors := None |}
       _ _ _)))).
  - apply list_elem_of_here.
  - reflexivity.
  - exists "get", {| APIResources.function := "listUsers";
                     APIResources.cors := Some true |}.
    split; [|reflexivity]. apply list_elem_of_further, list_elem_of_here.
Defined.

(** * The route tree and the order of the paths *)

Section MergeFacts.

Implicit Types (es : list (gmap string Fragment)) (r o : gmap string Fragment).

Lemma foldl_assign_snoc r es o :
  foldl assign r (es ++ [o]) = o ∪ foldl assign r es.
Proof. by rewrite foldl_snoc. Qed.

(** A fragment of the merged object comes from the start or from one of
    the objects. *)
Lemma foldl_assign_lookup es : ∀ r n f,
  foldl assign r es !! n = Some f →
  r !! n = Some f ∨ ∃ o, o ∈ es ∧ o !! n = Some f.
Proof.
  induction es as [|o es IH] using rev_ind; intros r n f H; [auto|].
  rewrite foldl_assign_snoc in H. apply lookup_union_Some_raw in H as [H|[_ H]].
  - right. exists o. by rewrite elem_of_app, list_elem_of_singleton; auto.
  - apply IH in H as [H|(o' & Ho' & H)]; [auto|].
    right. exists o'. rewrite elem_of_app. auto.
Qed.

(** A name of one of the objects is in the merged object, with the fragment
    one of the objects gives it. *)
Lemma foldl_assign_member es : ∀ r o n f,
  o ∈ es → o !! n = Some f →
  ∃ o' f', o' ∈ es ∧ o' !! n = Some f' ∧ foldl assign r es !! n = Some f'.
Proof.
  induction es as [|x es IH] using rev_ind; intros r o n f Ho Hn.
  - by apply elem_of_nil in Ho.
  - rewrite foldl_assign_snoc. destruct (x !! n) as [fx|] eqn:Hx.
    + exists x, fx. rewrite elem_of_app, list_elem_of_singleton.
      split; [auto|]. split; [done|]. apply lookup_union_Some_raw. auto.
    + apply elem_of_app in Ho as [Ho|Ho];
        [|apply list_elem_of_singleton in Ho; congruence].
      destruct (IH r o n f Ho Hn) as (o' & f' & Ho' & Hn' & Hl).
      exists o', f'. rewrite elem_of_app. split; [auto|]. split; [done|].
      apply lookup_union_Some_raw. auto.
Qed.

Lemma merge_dom es n :
  n ∈ dom (APIResources.merge es) ↔ ∃ o, o ∈ es ∧ n ∈ dom o.
Proof.
  unfold APIResources.merge. rewrite elem_of_dom. split.
  - intros [f H]. apply foldl_assign_lookup in H as [H|(o & Ho & H)].
    + by rewrite lookup_empty in H.
    + exists o. split; [done|]. apply elem_of_dom. eauto.
  - intros (o & Ho & Hn). apply elem_of_dom in Hn as [f Hn].
    destruct (foldl_assign_member es ∅ o n f Ho Hn) as (_ & f' & _ & _ & ->).
    eauto.
Qed.

Lemma agreeb_spec o1 o2 n f1 f2 :
  APIResources.agreeb o1 o2 = true →
  o1 !! n = Some f1 → o2 !! n = Some f2 → f1 = f2.
Proof.
  unfold APIResources.agreeb. intros H H1 H2.
  apply bool_decide_eq_true_1 in H. specialize (H n f1 H1). simpl in H.
  destruct H; congruence.
Qed.

Lemma consistentb_spec es o1 o2 n f1 f2 :
  APIResources.consistentb es = true → o1 ∈ es → o2 ∈ es →
  o1 !! n = Some f1 → o2 !! n = Some f2 → f1 = f2.
Proof.
  unfold APIResources.consistentb. rewrite forallb_forall.
  intros H Ho1 Ho2. apply list_elem_of_In in Ho1, Ho2.
  specialize (H o1 Ho1). rewrite forallb_forall in H.
  apply agreeb_spec. by apply H.
Qed.

(** When no name is given two fragments, the merged object holds exactly
    the fragments of the objects. *)
Lemma merge_lookup es n f :
  APIResources.consistentb es = true →
  APIResources.merge es !! n = Some f ↔ ∃ o, o ∈ es ∧ o !! n = Some f.
Proof.
  intros Hc. unfold APIResources.merge. split.
  - intros H. apply foldl_assign_lookup in H as [H|H]; [|done].
    by rewrite lookup_empty in H.
  - intros (o & Ho & Hn).
    destruct (foldl_assign_member es ∅ o n f Ho Hn) as (o' & f' & Ho' & Hn' & ->).
    f_equal. by eapply (consistentb_spec es o' o).
Qed.

(** Both properties only look at which objects there are. *)
Lemma consistentb_members es es' :
  (∀ o, o ∈ es ↔ o ∈ es') →
  APIResources.consistentb es = true → APIResources.consistentb es' = true.
Proof.
  intros Hm Hc. unfold APIResources.consistentb.
  apply forallb_forall. intros o1 Ho1. apply forallb_forall. intros o2 Ho2.
  apply list_elem_of_In, Hm in Ho1, Ho2.
  unfold APIResources.agreeb. apply bool_decide_eq_true_2.
  intros n f1 H1. simpl. destruct (o2 !! n) as [f2|] eqn:H2; [|auto].
  right. f_equal. symmetry. by eapply (consistentb_spec es o1 o2).
Qed.

End MergeFacts.

Section TreeFacts.

Import APIResources.

Variable titlecase : string → string.
Variable d : RouteSetting.

Implicit Types (t c : Node) (es : list (gmap string Fragment)).

Lemma prop_setChild cs token c k :
  JS.prop (setChild cs token c) k
  = if decide (k = token) then Some c else JS.prop cs k.
Proof.
  induction cs as [|[k0 c0] cs IH]; simpl.
  - destruct (String.eqb_spec token k); case_decide; congruence.
  - destruct (String.eqb_spec k0 token) as [->|Hk0]; simpl.
    + destruct (String.eqb_spec token k); case_decide; congruence.
    + destruct (String.eqb_spec k0 k) as [->|Hk]; [|done].
      by rewrite decide_False.
Qed.

(** The fragments of a node only depend on its name and kind. *)
Lemma createAPIMethod_fresh t methods :
  createAPIMethod (fresh t) d methods = createAPIMethod t d methods.
Proof. by destruct t. Qed.

Lemma walkTrace_root methods tokens : ∀ t,
  name (fst (walkTrace titlecase d methods tokens t)) = name t
  ∧ isRoot (fst (walkTrace titlecase d methods tokens t)) = isRoot t.
Proof.
  induction tokens as [|token rest IH]; intros t; simpl; [done|].
  case_decide; [apply IH|done].
Qed.

(** The root path has one, empty, token: its methods are emitted for the
    node the walk starts at, whatever the tree holds by then. *)
Lemma root_path_on_root methods t :
  tokensOf "/" = [EmptyString]
  ∧ walkTrace titlecase d methods (tokensOf "/") t
    = (t, [createAPIMethod t d methods]).
Proof. done. Qed.

(** [walk] merges the objects [walkTrace] records. *)
Lemma walk_walkTrace methods tokens : ∀ t r,
  walk titlecase d methods tokens t r
  = (fst (walkTrace titlecase d methods tokens t),
     foldl assign r (snd (walkTrace titlecase d methods tokens t))).
Proof.
  induction tokens as [|token rest IH]; intros t r; simpl; [done|].
  case_decide.
  - by rewrite IH.
  - rewrite IH. simpl.
    destruct (JS.prop (children t) token); simpl; f_equal;
      rewrite foldl_app; by destruct rest.
Qed.

Lemma foldl_addPath ps : ∀ t es r,
  foldl (addPath titlecase d) (t, foldl assign r es) ps
  = (fst (foldl (addPathTrace titlecase d) (t, es) ps),
     foldl assign r (snd (foldl (addPathTrace titlecase d) (t, es) ps))).
Proof.
  induction ps as [|pm ps IH]; intros t es r; simpl; [done|].
  unfold addPath at 2, addPathTrace at 2 4. simpl.
  rewrite walk_walkTrace, <- foldl_app. apply IH.
Qed.

Lemma wellFormed_mono t es es' :
  (∀ o, o ∈ es → o ∈ es') → wellFormed titlecase t es →
  wellFormed titlecase t es'.
Proof.
  intros Hsub Hwf chain parent token child Hf Hp.
  destruct (Hwf chain parent token child Hf Hp) as (? & ? & ?). auto.
Qed.

Lemma wellFormed_child t es token c :
  wellFormed titlecase t es → JS.prop (children t) token = Some c →
  wellFormed titlecase c es.
Proof.
  intros Hwf Hc chain parent tk child Hf Hp.
  apply (Hwf (token :: chain)); [|done]. simpl. by rewrite Hc.
Qed.

Lemma wellFormed_leaf n r es :
  wellFormed titlecase {| name := n; isRoot := r; children := [] |} es.
Proof.
  intros [|tk chain] parent token child Hf Hp; simpl in Hf; [|done].
  injection Hf as <-. done.
Qed.

(** Walking a path through a tree that is already there emits what walking
    it from scratch emits, but for resource fragments emitted before. *)
Lemma walkTrace_fresh methods tokens : ∀ t es o,
  wellFormed titlecase t es →
  o ∈ snd (walkTrace titlecase d methods tokens t) ∨ o ∈ es
  ↔ o ∈ snd (walkTrace titlecase d methods tokens (fresh t)) ∨ o ∈ es.
Proof.
  induction tokens as [|token rest IH]; intros t es o Hwf; simpl; [done|].
  case_decide.
  - simpl. rewrite !elem_of_cons, createAPIMethod_fresh.
    specialize (IH t es o Hwf). tauto.
  - destruct (JS.prop (children t) token) as [c|] eqn:Hc; simpl; [|done].
    destruct (Hwf [] t token c eq_refl Hc) as (Hn & Hr & He).
    rewrite <- Hn.
    replace {| name := name c; isRoot := false; children := [] |}
      with (fresh c) by (unfold fresh; by rewrite Hr).
    specialize (IH c es o (wellFormed_child _ _ _ _ Hwf Hc)).
    assert (o = createAPIResource (fresh t) (name c) token → o ∈ es)
      by (intros ->; exact He).
    rewrite !elem_of_app.
    destruct rest;
      rewrite ?elem_of_cons, ?createAPIMethod_fresh, ?elem_of_nil; tauto.
Qed.

(** The walk keeps the tree well formed. *)
Lemma walkTrace_wellFormed methods tokens : ∀ t es,
  wellFormed titlecase t es →
  wellFormed titlecase (fst (walkTrace titlecase d methods tokens t))
    (es ++ snd (walkTrace titlecase d methods tokens t)).
Proof.
  induction tokens as [|token rest IH]; intros t es Hwf; simpl.
  - by rewrite app_nil_r.
  - case_decide; simpl.
    + rewrite (cons_middle _ es), app_assoc. apply IH.
      eapply wellFormed_mono; [|exact Hwf]. intros o. rewrite elem_of_app.
      auto.
    + set (name' := name t +:+ titlecase (JS.remove_chars _ token)).
      set (created := match JS.prop (children t) token with
                      | Some child => (child, [])
                      | None => _
                      end).
      set (produced := match rest with [] => _ | _ :: _ => _ end).
      assert (Hcreated : wellFormed titlecase created.1 (es ++ produced)
                         ∧ name created.1 = name'
                         ∧ isRoot created.1 = false
                         ∧ createAPIResource t name' token ∈ (es ++ produced)%list).
      { subst created produced.
        destruct (JS.prop (children t) token) as [c|] eqn:Hc; simpl.
        - destruct (Hwf [] t token c eq_refl Hc) as (Hn & Hr & He).
          split; [|split; [done|split; [done|]]].
          + eapply wellFormed_mono; [|by eapply wellFormed_child].
            intros o. rewrite elem_of_app. auto.
          + rewrite elem_of_app. left. unfold name'. by rewrite <- Hn.
        - split; [apply wellFormed_leaf|]. split; [done|]. split; [done|].
          destruct rest; rewrite !elem_of_app, ?elem_of_cons; auto. }
      destruct Hcreated as (Hwfc & Hnc & Hrc & Hec).
      specialize (IH created.1 (es ++ produced)%list Hwfc).
      destruct (walkTrace_root methods rest created.1) as [Hn' Hr'].
      rewrite app_assoc.
      intros [|tk chain] parent tk' child Hf Hp.
      * injection Hf as <-. simpl in Hp. rewrite prop_setChild in Hp.
        simpl. case_decide as Htk.
        -- injection Hp as <-. subst tk'. rewrite Hn', Hr', Hnc.
           split; [done|]. split; [done|].
           rewrite elem_of_app. left. exact Hec.
        -- destruct (Hwf [] t tk' child eq_refl Hp) as (? & ? & ?).
           split; [done|]. split; [done|]. rewrite !elem_of_app. auto.
      * simpl in Hf. rewrite prop_setChild in Hf. case_decide as Htk.
        -- by apply (IH chain parent tk' child).
        -- destruct (Hwf (tk :: chain) parent tk' child Hf Hp) as (? & ? & ?).
           split; [done|]. split; [done|]. rewrite !elem_of_app. auto.
Qed.

(** What the loop over the paths emits: what each path emits when walked
    alone from a tree without children. *)
Lemma foldl_addPathTrace_members ps : ∀ t es,
  wellFormed titlecase t es →
  ∀ o, o ∈ snd (foldl (addPathTrace titlecase d) (t, es) ps)
       ↔ o ∈ es
         ∨ ∃ pm, pm ∈ ps
                 ∧ o ∈ snd (walkTrace titlecase d (snd pm) (tokensOf (fst pm))
                              (fresh t)).
Proof.
  induction ps as [|pm ps IH]; intros t es Hwf o; simpl.
  - split; [auto|]. intros [?|(pm & Hpm & _)]; [done|].
    by apply elem_of_nil in Hpm.
  - unfold addPathTrace at 2. simpl.
    rewrite (IH _ _ (walkTrace_wellFormed _ _ _ _ Hwf)).
    destruct (walkTrace_root (snd pm) (tokensOf (fst pm)) t) as [Hn Hr].
    replace (fresh (walkTrace titlecase d pm.2 (tokensOf pm.1) t).1)
      with (fresh t) by (unfold fresh; by rewrite Hn, Hr).
    rewrite elem_of_app.
    pose proof (walkTrace_fresh (snd pm) (tokensOf (fst pm)) t es o Hwf) as Hw.
    split.
    + intros [[?|Ho]|(pm' & Hpm' & Ho)].
      * auto.
      * destruct (proj1 Hw (or_introl Ho)) as [?|?]; [|auto].
        right. exists pm. split; [apply list_elem_of_here|done].
      * right. exists pm'. split; [by apply list_elem_of_further|done].
    + intros [?|(pm' & Hpm' & Ho)]; [auto|].
      apply elem_of_cons in Hpm' as [->|Hpm'].
      * destruct (proj2 Hw (or_introl Ho)); auto.
      * right. eauto.
Qed.

End TreeFacts.

(** [getAPIResources] merges the objects of [emitted]. *)
Lemma getAPIResources_merge titlecase routes :
  APIResources.getAPIResources titlecase routes
  = APIResources.merge (APIResources.emitted titlecase routes).
Proof.
  unfold APIResources.getAPIResources, APIResources.emitted, APIResources.merge.
  set (d := match APIResources.xRiseDefault routes with
            | Some d => d
            | None => _
            end).
  pose proof (foldl_addPath titlecase d (APIResources.paths routes)
                APIResources.pathTree [] ∅) as H.
  simpl in H. by rewrite H.
Qed.

(** The objects emitted for a route map do not depend on the order of its
    paths. *)
Lemma emitted_permutation titlecase routes routes' :
  APIResources.paths routes ≡ₚ APIResources.paths routes' →
  APIResources.xRiseDefault routes = APIResources.xRiseDefault routes' →
  ∀ o, o ∈ APIResources.emitted titlecase routes
       ↔ o ∈ APIResources.emitted titlecase routes'.
Proof.
  intros Hp Hd o. unfold APIResources.emitted. rewrite <- Hd.
  rewrite !foldl_addPathTrace_members by apply wellFormed_leaf.
  apply or_iff_compat_l. split; intros (pm & Hpm & Ho); exists pm.
  - by rewrite <- Hp.
  - by rewrite Hp.
Qed.

(** C6, as the code has it: for every route map - with or without the root
    path, whose methods go to the root wherever the path comes - and every
    ordering of its paths, route-tree synthesis produces the same set of
    resource names, and emits the same objects.  When no name is emitted
    with two different fragments, it returns the same fragment set, so each
    node has the same preflight method list.  (When two paths lead to one
    node, or two nodes share a name, the fragment emitted last stays, and
    which one that is follows the order of the paths.) *)
Theorem route_names_independent_of_order
    (titlecase : string → string) (routes routes' : APIResources.Routes) :
  APIResources.paths routes ≡ₚ APIResources.paths routes' →
  APIResources.xRiseDefault routes = APIResources.xRiseDefault routes' →
  dom (APIResources.getAPIResources titlecase routes)
  = dom (APIResources.getAPIResources titlecase routes')
  ∧ (∀ o, o ∈ APIResources.emitted titlecase routes
          ↔ o ∈ APIResources.emitted titlecase routes')
  ∧ (APIResources.consistentb (APIResources.emitted titlecase routes) = true →
     APIResources.getAPIResources titlecase routes
     = APIResources.getAPIResources titlecase routes'
     ∧ ∀ n l r,
         APIResources.getAPIResources titlecase routes !! n
         = Some (CorsMethod l r)
         ↔ APIResources.getAPIResources titlecase routes' !! n
           = Some (CorsMethod l r)).
Proof.
  intros Hp Hd.
  pose proof (emitted_permutation titlecase routes routes' Hp Hd) as Hm.
  rewrite !getAPIResources_merge. split.
  - apply set_eq. intros n. rewrite !merge_dom.
    split; intros (o & Ho & Hn); exists o; split; try done; by apply Hm.
  - split; [exact Hm|]. intros Hc.
    assert (APIResources.merge (APIResources.emitted titlecase routes)
            = APIResources.merge (APIResources.emitted titlecase routes'))
      as Heq.
    { apply map_eq. intros n. apply option_eq. intros f.
      rewrite (merge_lookup _ n f Hc).
      rewrite (merge_lookup _ n f (consistentb_members _ _ Hm Hc)).
      split; intros (o & Ho & Hn); exists o; split; try done; by apply Hm. }
    split; [done|]. intros n l r. by rewrite Heq.
Qed.

(** C6 at a route map with the root path last, and the same paths in
    reverse. *)
Lemma route_names_witness :
  dom (APIResources.getAPIResources APIResources.titlecase_capitalize
         Examples.shop)
  = dom (APIResources.getAPIResources APIResources.titlecase_capitalize
           Examples.shopReversed)
  ∧ APIResources.getAPIResources APIResources.titlecase_capitalize
      Examples.shop
    = APIResources.getAPIResources APIResources.titlecase_capitalize
        Examples.shopReversed.
Proof.
  assert (APIResources.paths Examples.shop
          ≡ₚ APIResources.paths Examples.shopReversed) as Hp
    by apply Permutation_rev.
  destruct (route_names_independent_of_order APIResources.titlecase_capitalize
              Examples.shop Examples.shopReversed Hp eq_refl) as (H1 & _ & H2).
  split; [exact H1|]. apply H2. vm_compute. reflexivity.
Defined.

(** C6 as stated fails: the keys [/users] and [/users/] lead to one node;
    each brings its own preflight fragment under the node's one preflight
    name, and the one of the path that comes last stays. *)
Lemma preflight_list_depends_on_order :
  APIResources.paths Examples.usersTwice
  ≡ₚ APIResources.paths Examples.usersTwiceReversed
  ∧ APIResources.getAPIResources APIResources.titlecase_capitalize
      Examples.usersTwice !! "RiseAPIResourceUsersOPTIONS"
    = Some (CorsMethod "POST,OPTIONS" (Ref "RiseAPIResourceUsers"))
  ∧ APIResources.getAPIResources APIResources.titlecase_capitalize
      Examples.usersTwiceReversed !! "RiseAPIResourceUsersOPTIONS"
    = Some (CorsMethod "GET,OPTIONS" (Ref "RiseAPIResourceUsers")).
Proof.
  split; [apply Permutation_rev|]. split; vm_compute; reflexivity.
Qed.

(** * Trigger lists *)

(** Where the code and the chain of the specification agree: the function's
    entry is [null], or it declares triggers. *)
Lemma triggersOf_chain functions n :
  (∀ f, entry functions n = Some f → is_Some (triggers f)) →
  TriggerResources.triggersOf functions n
  = TriggerResources.triggers_chain_spec functions n.
Proof.
  unfold TriggerResources.triggersOf, TriggerResources.triggers_chain_spec.
  intros H. destruct (entry functions n) as [f|]; simpl.
  - destruct (H f eq_refl) as [ts ->]. done.
  - by destruct (entry functions "default").
Qed.

(** C5 fails on the code: a function that has a manifest entry but declares
    no triggers does not fall back to the trigger list of [default]; its
    list is [undefined] and nothing is synthesized for it. *)
Theorem entry_without_triggers_ignores_default :
  TriggerResources.triggers_chain_spec Examples.defaultTriggers "resize"
  = Some [[("s3", "uploads")]]
  ∧ TriggerResources.triggersOf Examples.defaultTriggers "resize" = None
  ∧ ∀ b region role,
      TriggerResources.resources
        (TriggerResources.getTriggerResources b Examples.defaultTriggers
           region role) = ∅.
Proof. repeat split. Qed.

(** * Trigger declarations of unrecognized kind *)

Section TriggerFacts.

Import TriggerResources.

Variables (b : Builders) (region : string).

(** A declaration of unrecognized kind only writes a line. *)
Lemma addTrigger_unknown funcName st decl :
  recognizedDecl decl = false →
  addTrigger b funcName region st decl
  = {| resources := resources st; role := role st;
       errors := (errors st ++ [unknownLine decl])%list |}.
Proof.
  destruct decl as [|[k cfg] decl]; [done|].
  unfold recognizedDecl, unknownLine, addTrigger. simpl. intros Hk.
  repeat (case_decide; [by subst k|]). done.
Qed.

(** A recognized declaration writes no line, and what it does to the
    resources and the role does not depend on the lines written so far. *)
Lemma addTrigger_recognized funcName st st' decl :
  recognizedDecl decl = true →
  resources st = resources st' → role st = role st' →
  resources (addTrigger b funcName region st decl)
  = resources (addTrigger b funcName region st' decl)
  ∧ role (addTrigger b funcName region st decl)
    = role (addTrigger b funcName region st' decl)
  ∧ errors (addTrigger b funcName region st decl) = errors st.
Proof.
  destruct decl as [|[k cfg] decl]; [done|].
  unfold recognizedDecl, recognized, addTrigger. simpl.
  intros Hk Hr Ho. rewrite Hr, Ho.
  repeat (case_decide; [done|]).
  apply bool_decide_eq_true_1 in Hk.
  repeat (apply elem_of_cons in Hk as [->|Hk]; [done|]).
  by apply elem_of_nil in Hk.
Qed.

Lemma foldl_addTrigger funcName ts : ∀ st st',
  resources st = resources st' → role st = role st' →
  let out := foldl (addTrigger b funcName region) st ts in
  let out' := foldl (addTrigger b funcName region) st'
                (filter (λ d, recognizedDecl d = true) ts) in
  resources out = resources out' ∧ role out = role out'
  ∧ errors out' = errors st'
  ∧ errors out
    = (errors st
       ++ map unknownLine (filter (λ d, recognizedDecl d ≠ true) ts))%list.
Proof.
  induction ts as [|decl ts IH]; intros st st' Hr Ho; simpl.
  - by rewrite app_nil_r.
  - destruct (recognizedDecl decl) eqn:Hd.
    + rewrite filter_cons_True by done. simpl.
      rewrite (filter_cons_False _ decl) by (intros H; by apply H).
      destruct (addTrigger_recognized funcName st st' decl Hd Hr Ho)
        as (Hr' & Ho' & He).
      destruct (addTrigger_recognized funcName st' st' decl Hd eq_refl eq_refl)
        as (_ & _ & He').
      destruct (IH _ _ Hr' Ho') as (? & ? & ? & ?).
      repeat split; try done; congruence.
    + rewrite filter_cons_False by congruence.
      rewrite (filter_cons_True _ decl) by congruence.
      rewrite addTrigger_unknown by done.
      destruct (IH {| resources := resources st; role := role st;
                      errors := (errors st ++ [unknownLine decl])%list |}
                  st' Hr Ho) as (? & ? & ? & He).
      repeat split; try done. rewrite He. simpl. by rewrite <- app_assoc.
Qed.

Lemma prop_dropUnknown functions k :
  entry (dropUnknown functions) k
  = (λ f, {| timeout := timeout f; memory := memory f;
             triggers := filter (λ d, recognizedDecl d = true) <$> triggers f;
             bare := bare f |}) <$> entry functions k.
Proof.
  unfold entry, dropUnknown.
  induction functions as [|[k' v] functions IH]; simpl; [done|].
  destruct (String.eqb k' k); [by destruct v|done].
Qed.

Lemma triggersOf_dropUnknown functions k :
  triggersOf (dropUnknown functions) k
  = filter (λ d, recognizedDecl d = true) <$> triggersOf functions k.
Proof.
  unfold triggersOf. rewrite !prop_dropUnknown.
  destruct (entry functions k) as [f|]; simpl; [done|].
  by destruct (entry functions "default").
Qed.

Lemma keys_dropUnknown functions :
  JS.keys (dropUnknown functions) = JS.keys functions.
Proof.
  unfold JS.keys, dropUnknown. rewrite map_map. by apply map_ext.
Qed.

(** One function name: the same resources and role with and without the
    declarations of unrecognized kind, and a line for each of them. *)
Lemma addFunctionTriggers_dropUnknown fs n st st' :
  resources st = resources st' → role st = role st' →
  let out := addFunctionTriggers b fs region st n in
  let out' := addFunctionTriggers b (dropUnknown fs) region st' n in
  resources out = resources out' ∧ role out = role out'
  ∧ errors out' = errors st'
  ∧ errors out
    = (errors st
       ++ map unknownLine
            (filter (λ d, recognizedDecl d ≠ true)
               (if decide (n = "default") then []
                else default [] (triggersOf fs n))))%list.
Proof.
  intros Hr Ho. unfold addFunctionTriggers. rewrite triggersOf_dropUnknown.
  destruct (decide (n = "default")) as [->|Hn]; simpl.
  { by rewrite app_nil_r. }
  destruct (triggersOf fs n) as [ts|]; simpl.
  - by apply foldl_addTrigger.
  - by rewrite app_nil_r.
Qed.

(** The loop over the function names, for any manifest [fs] the trigger
    lists are resolved in. *)
Lemma foldl_addFunctionTriggers fs names : ∀ st st',
  resources st = resources st' → role st = role st' →
  let out := foldl (addFunctionTriggers b fs region) st names in
  let out' := foldl (addFunctionTriggers b (dropUnknown fs) region) st' names in
  resources out = resources out' ∧ role out = role out'
  ∧ errors out' = errors st'
  ∧ errors out
    = (errors st
       ++ map unknownLine
            (filter (λ d, recognizedDecl d ≠ true)
               (n ← names;
                if decide (n = "default") then []
                else default [] (triggersOf fs n))))%list.
Proof.
  induction names as [|n names IH]; intros st st' Hr Ho; simpl.
  - by rewrite app_nil_r.
  - destruct (addFunctionTriggers_dropUnknown fs n st st' Hr Ho)
      as (Hr1 & Ho1 & He1' & He1).
    destruct (IH _ _ Hr1 Ho1) as (Hr2 & Ho2 & He2' & He2).
    split; [exact Hr2|]. split; [exact Ho2|]. split; [by rewrite He2'|].
    rewrite He2, He1, filter_app, map_app. by rewrite <- app_assoc.
Qed.

End TriggerFacts.

(** C9: a trigger declaration whose kind is none of s3, cloudwatch_events,
    cloudwatch_logs, stream and sns is skipped with a warning: synthesis
    returns (it is a total function), it writes one 'Unknown trigger' line
    for every such declaration, in order, and the resources it returns - and
    the role it leaves - are those it returns for the manifest without these
    declarations, for which it writes no line: nothing is emitted for them,
    and what is emitted for the recognized triggers and the other functions
    is unaffected. *)
Theorem unknown_trigger_is_skipped
    (b : TriggerResources.Builders) (functions : Manifest) (region : string)
    (roleResource : option Fragment) :
  let out := TriggerResources.getTriggerResources b functions region
               roleResource in
  let out' := TriggerResources.getTriggerResources b
                (TriggerResources.dropUnknown functions) region roleResource in
  TriggerResources.resources out = TriggerResources.resources out'
  ∧ TriggerResources.role out = TriggerResources.role out'
  ∧ TriggerResources.errors out' = []
  ∧ TriggerResources.errors out
    = map TriggerResources.unknownLine
        (filter (λ d, TriggerResources.recognizedDecl d ≠ true)
           (TriggerResources.declarations functions)).
Proof.
  intros out out'. subst out out'. unfold TriggerResources.getTriggerResources.
  rewrite keys_dropUnknown.
  by apply (foldl_addFunctionTriggers b region functions (JS.keys functions)
           {| TriggerResources.resources := ∅;
              TriggerResources.role := roleResource;
              TriggerResources.errors := [] |}).
Qed.

(** * The update step *)

Section UpdateStep.

Import UpdateStack.

Variable b : TriggerResources.Builders.
Variable titlecase : string → string.
Variable cfBase : gmap string Fragment.

(** The step sets the state to [UPDATING] before it sends the request. *)
Lemma submitted_state session :
  state (submitted b titlecase cfBase session) = "UPDATING".
Proof. reflexivity. Qed.

(** A rejected chain is settled by the [.catch] handler, run on the session
    as it stands then. *)
Lemma updateStack_rejected remote session err :
  rejection remote (submitted b titlecase cfBase session) = Some err →
  fst (updateStack b titlecase cfBase remote session)
  = fst (onRejected (pending remote (submitted b titlecase cfBase session)) err).
Proof.
  unfold rejection, updateStack. intros H.
  destruct (cfUpdateStack remote _ _) as [e|].
  - by injection H as ->.
  - by rewrite H.
Qed.

(** Without a rejection the step waits and ends in [UPDATED]. *)
Lemma updateStack_fulfilled remote session :
  rejection remote (submitted b titlecase cfBase session) = None →
  fst (updateStack b titlecase cfBase remote session)
  = Resolved (setState (pending remote (submitted b titlecase cfBase session))
                "UPDATED").
Proof.
  unfold rejection, updateStack. intros H.
  destruct (cfUpdateStack remote _ _) as [e|]; [done|]. by rewrite H.
Qed.

Lemma onRejected_noUpdates session err msg :
  message err = Some msg → JS.indexOf msg noUpdates ≠ -1 →
  fst (onRejected session err) = Resolved session.
Proof.
  intros Hm Hi. unfold onRejected. rewrite Hm.
  destruct (decide (msg = EmptyString)) as [->|_]; [by vm_compute in Hi|].
  by rewrite decide_True.
Qed.

Lemma onRejected_notReady session err msg :
  message err = Some msg → JS.indexOf msg notReady ≠ -1 →
  state session ≠ "UPDATING" →
  fst (onRejected session err) = Resolved session.
Proof.
  intros Hm Hi Hs. unfold onRejected. rewrite Hm.
  destruct (decide (msg = EmptyString)) as [->|_]; [by vm_compute in Hi|].
  destruct (decide (JS.indexOf msg noUpdates ≠ -1)); [done|].
  by rewrite decide_True.
Qed.

(** The handler passes on every error it does not recognize: one without
    a message, or whose message has neither text, or has only the not-ready
    text while the state still is [UPDATING]. *)
Lemma onRejected_other session err :
  (∀ msg, message err = Some msg →
     JS.indexOf msg noUpdates = -1
     ∧ (state session = "UPDATING" ∨ JS.indexOf msg notReady = -1)) →
  fst (onRejected session err) = Rejected err session.
Proof.
  intros H. unfold onRejected. destruct (message err) as [msg|]; [|done].
  destruct (H msg eq_refl) as [H1 H2].
  destruct (decide (msg = EmptyString)); [done|].
  rewrite decide_False by (intros ?; congruence).
  rewrite decide_False; [done|]. intros [? ?]. destruct H2; congruence.
Qed.

(** C1, as the code has it: an error whose message has the not-ready text
    ('Resource is not in the state stackUpdateComplete') is turned into
    success when the session state is no longer [UPDATING] by the time the
    error arrives (a cancellation has moved it on); the session is returned
    as it stands.  While the state still is [UPDATING], such an error is
    passed on and the step rejects (unless it also has the no-updates
    text). *)
Theorem update_not_ready_only_once_state_moved remote session err msg :
  rejection remote (submitted b titlecase cfBase session) = Some err →
  message err = Some msg →
  JS.indexOf msg notReady ≠ -1 →
  let found := pending remote (submitted b titlecase cfBase session) in
  (state found ≠ "UPDATING" →
   fst (updateStack b titlecase cfBase remote session) = Resolved found)
  ∧ (state found = "UPDATING" → JS.indexOf msg noUpdates = -1 →
     fst (updateStack b titlecase cfBase remote session) = Rejected err found).
Proof.
  intros Hr Hm Hi found. rewrite (updateStack_rejected _ _ _ Hr). split.
  - intros Hs. by eapply onRejected_notReady.
  - intros Hs Hn. apply onRejected_other. intros msg' Hm'.
    rewrite Hm in Hm'. injection Hm' as <-. auto.
Qed.

(** C2, as the code has it: an error whose message has the text 'No updates
    are to be performed' is turned into success, and the session is returned
    exactly as the error found it (state [UPDATING] when nothing else wrote
    it, never advanced to [UPDATED]).  Every other error is passed on
    unchanged and the step rejects, except the not-ready error that arrives
    when the state is no longer [UPDATING]; so, when nothing else writes the
    session while the request is pending, every other error is passed
    on. *)
Theorem update_no_updates_or_propagate remote session err :
  rejection remote (submitted b titlecase cfBase session) = Some err →
  let found := pending remote (submitted b titlecase cfBase session) in
  let result := fst (updateStack b titlecase cfBase remote session) in
  (∀ msg, message err = Some msg → JS.indexOf msg noUpdates ≠ -1 →
     result = Resolved found
     ∧ (written remote = None → state found = "UPDATING"))
  ∧ ((∀ msg, message err = Some msg →
        JS.indexOf msg noUpdates = -1
        ∧ (state found = "UPDATING" ∨ JS.indexOf msg notReady = -1)) →
     result = Rejected err found)
  ∧ (written remote = None →
     (∀ msg, message err = Some msg → JS.indexOf msg noUpdates = -1) →
     result = Rejected err found).
Proof.
  intros Hr found result. subst result.
  rewrite (updateStack_rejected _ _ _ Hr).
  assert (Hquiet : written remote = None → state found = "UPDATING").
  { intros Hw. subst found. unfold pending. by rewrite Hw. }
  split; [|split].
  - intros msg Hm Hi. split; [by eapply onRejected_noUpdates|done].
  - apply onRejected_other.
  - intros Hw Hother. apply onRejected_other. intros msg Hm. auto.
Qed.

End UpdateStep.

(** C1 as stated fails: the not-ready error arrives - as the rejection of
    the request, or of the wait for convergence - while the session state is
    [UPDATING], and the step rejects with that error. *)
Lemma update_not_ready_while_updating_rejects :
  let run remote :=
    fst (UpdateStack.updateStack Examples.noBuilders
           APIResources.titlecase_capitalize ∅ remote Examples.session) in
  let found :=
    UpdateStack.submitted Examples.noBuilders
      APIResources.titlecase_capitalize ∅ Examples.session in
  state found = "UPDATING"
  ∧ (∃ msg, message Examples.notReadyError = Some msg
            ∧ JS.indexOf msg UpdateStack.notReady ≠ -1)
  ∧ run (Examples.requestRejected Examples.notReadyError None)
    = Rejected Examples.notReadyError found
  ∧ run (Examples.waitRejected Examples.notReadyError None)
    = Rejected Examples.notReadyError found.
Proof.
  split; [reflexivity|]. split.
  - eexists. split; [reflexivity|]. by vm_compute.
  - split; vm_compute; reflexivity.
Qed.

(** C2 as stated fails: a not-ready error, which has no no-updates text,
    arrives after a cancellation has written the state; the step resolves
    instead of passing the error on. *)
Lemma update_other_error_not_propagated :
  let run remote :=
    fst (UpdateStack.updateStack Examples.noBuilders
           APIResources.titlecase_capitalize ∅ remote Examples.session) in
  (∃ msg, message Examples.notReadyError = Some msg
          ∧ JS.indexOf msg UpdateStack.noUpdates = -1)
  ∧ (∃ found,
       run (Examples.requestRejected Examples.notReadyError (Some "CANCELLING"))
       = Resolved found)
  ∧ (∃ found,
       run (Examples.waitRejected Examples.notReadyError (Some "CANCELLING"))
       = Resolved found).
Proof.
  split.
  - eexists. split; [reflexivity|]. by vm_compute.
  - split; eexists; vm_compute; reflexivity.
Qed.

(** C1 at a deploy that was cancelled while it waited. *)
Lemma update_not_ready_witness :
  let remote := Examples.waitRejected Examples.notReadyError (Some "CANCELLING") in
  let found :=
    UpdateStack.pending remote
      (UpdateStack.submitted Examples.noBuilders
         APIResources.titlecase_capitalize ∅ Examples.session) in
  fst (UpdateStack.updateStack Examples.noBuilders
         APIResources.titlecase_capitalize ∅ remote Examples.session)
  = Resolved found.
Proof.
  intros remote found.
  refine (proj1 (update_not_ready_only_once_state_moved Examples.noBuilders
            APIResources.titlecase_capitalize ∅ remote Examples.session
            Examples.notReadyError _ _ _ _) _).
  - reflexivity.
  - reflexivity.
  - by vm_compute.
  - by vm_compute.
Defined.

(** C2 at a deploy that changes nothing. *)
Lemma update_no_updates_witness :
  let remote := Examples.requestRejected Examples.noUpdatesError None in
  ∃ found,
    fst (UpdateStack.updateStack Examples.noBuilders
           APIResources.titlecase_capitalize ∅ remote Examples.session)
    = Resolved found
    ∧ state found = "UPDATING".
Proof.
  intros remote.
  pose proof (update_no_updates_or_propagate Examples.noBuilders
                APIResources.titlecase_capitalize ∅ remote Examples.session
                Examples.noUpdatesError eq_refl) as [H _].
  destruct (H _ eq_refl) as [H1 H2]; [by vm_compute|].
  eexists. split; [exact H1|]. by apply H2.
Defined.


(** * The ping step *)

Section PingStep.

Import Ping.

Lemma pingPromise_fulfilled lambda n f :
  pingPromise lambda n f = None ↔ healthy (invoke lambda n f riseTest).
Proof.
  unfold pingPromise, healthy. destruct (invoke lambda n f riseTest) as [e|d].
  - split; [done|]. by intros (? & ? & _).
  - destruct (decide (StatusCode d ≠ 200 ∨ Payload d ≠ testOk)) as [Hbad|Hok].
    + split; [done|]. intros (d' & [= <-] & ? & ?). by destruct Hbad.
    + split; [|done]. intros _. exists d. split; [done|].
      destruct (decide (StatusCode d = 200)), (decide (Payload d = testOk));
        tauto.
Qed.

Lemma promiseAll_fulfilled lambda targets : ∀ n,
  promiseAll lambda n targets = None
  ↔ ∀ i f, targets !! i = Some f → healthy (invoke lambda (n + i) f riseTest).
Proof.
  induction targets as [|f targets IH]; intros n; simpl.
  - split; [|done]. intros _ i f'. by rewrite lookup_nil.
  - destruct (pingPromise lambda n f) as [e|] eqn:Hp.
    + split; [done|]. intros H. specialize (H 0%nat f eq_refl).
      rewrite Nat.add_0_r in H. apply pingPromise_fulfilled in H. congruence.
    + rewrite IH. split.
      * intros H [|i] f' Hi.
        -- injection Hi as <-. rewrite Nat.add_0_r. by apply pingPromise_fulfilled.
        -- rewrite Nat.add_succ_r. by apply H.
      * intros H i f' Hi. specialize (H (S i) f' Hi).
        by rewrite Nat.add_succ_r in H.
Qed.

(** The names collected for pinging: the keys of the manifest whose entry
    is not marked bare. *)
Lemma functionNamesToPing_spec functions name :
  name ∈ functionNamesToPing functions
  ↔ name ∈ JS.keys functions
    ∧ ∀ f, entry functions name = Some f → bare f = false.
Proof.
  unfold functionNamesToPing. rewrite !list_elem_of_In, filter_In.
  apply and_iff_compat_l. destruct (entry functions name) as [f|].
  - rewrite negb_true_iff. split; [by intros ? ? [= <-]|eauto].
  - split; [done|auto].
Qed.

Lemma pingTargets_spec stack names deployed f :
  f ∈ pingTargets stack names deployed
  ↔ f ∈ deployed
    ∧ ∃ name, name ∈ names ∧ JS.startsWith f (stack +:+ "-" +:+ name) = true.
Proof.
  unfold pingTargets. rewrite list_elem_of_bind. split.
  - intros (g & Hf & Hg). apply list_elem_of_bind in Hf as (name & Hf & Hn).
    destruct (JS.startsWith g _) eqn:Hs; [|by apply elem_of_nil in Hf].
    apply list_elem_of_singleton in Hf as ->. eauto.
  - intros (Hf & name & Hn & Hs). exists f. split; [|done].
    apply list_elem_of_bind. exists name. split; [|done].
    rewrite Hs. by apply list_elem_of_singleton.
Qed.

End PingStep.

(** C8: once the deployed functions are listed, the ping step invokes - with
    the fixed payload - exactly the deployed functions whose name starts
    with `<stackName>-<name>` for a manifest key [name] not marked bare; it
    resolves, in state PINGED, if and only if every one of these invocations
    returns status 200 and the body `{"test":"ok"}`; and one invocation that
    fails or answers anything else makes the step reject, whatever the
    others return. *)
Theorem ping_resolves_iff_all_healthy
    (session : Session) (deployed : list string)
    (answers : nat → string → string → JSError + Ping.InvokeData) :
  let lambda := {| Ping.listFunctions := inr deployed; Ping.invoke := answers |} in
  let targets :=
    Ping.pingTargets (stackName session)
      (Ping.functionNamesToPing (functions session)) deployed in
  (∀ f, f ∈ targets
        ↔ f ∈ deployed
          ∧ ∃ name, name ∈ JS.keys (functions session)
                    ∧ (∀ s, entry (functions session) name = Some s → bare s = false)
                    ∧ JS.startsWith f (stackName session +:+ "-" +:+ name) = true)
  ∧ ((∃ s, Ping.pingFunctions lambda session = Resolved s ∧ state s = "PINGED")
     ↔ ∀ n f, targets !! n = Some f → Ping.healthy (answers n f Ping.riseTest))
  ∧ (∀ n f, targets !! n = Some f → ¬ Ping.healthy (answers n f Ping.riseTest) →
       ∃ err s, Ping.pingFunctions lambda session = Rejected err s).
Proof.
  intros lambda targets.
  assert (Hiff : (∃ s, Ping.pingFunctions lambda session = Resolved s
                       ∧ state s = "PINGED")
                 ↔ ∀ n f, targets !! n = Some f →
                          Ping.healthy (answers n f Ping.riseTest)).
  { unfold Ping.pingFunctions. cbn [Ping.listFunctions lambda].
    change (Ping.pingTargets _ _ deployed) with targets.
    pose proof (promiseAll_fulfilled lambda targets 0) as Hall.
    destruct (Ping.promiseAll lambda 0 targets) as [e|].
    - split; [by intros (s & ? & _)|]. intros H.
      by apply (proj2 Hall) in H.
    - split; [intros _; by apply Hall|]. intros _. by eexists. }
  split; [|split; [exact Hiff|]].
  - intros f. subst targets. rewrite pingTargets_spec.
    apply and_iff_compat_l. split.
    + intros (name & Hn & Hs). apply functionNamesToPing_spec in Hn as [? ?].
      eauto.
    + intros (name & Hk & Hb & Hs). exists name. split; [|done].
      by apply functionNamesToPing_spec.
  - intros n f Hn Hbad.
    destruct (Ping.pingFunctions lambda session) as [s|err s] eqn:Hp; [|eauto].
    exfalso. apply Hbad. apply Hiff; [|done].
    exists s. split; [done|]. revert Hp. unfold Ping.pingFunctions.
    cbn [Ping.listFunctions lambda].
    destruct (Ping.promiseAll _ _ _); [done|]. by intros [= <-].
Qed.

(** * The whole template *)

(** Property 9 of the specification: the manifest [{appIndex: {timeout: 5}}]
    and the route map [{"/": {get: appIndex}}] give the REST API, one
    function fragment set with timeout 5, one GET binding on the root, and
    no preflight fragment. *)
Example template_of_one_function :
  fst (UpdateStack.buildTemplate Examples.noBuilders
         APIResources.titlecase_capitalize ∅ Examples.session)
  = <["RiseAPI" := RestAPI "my-stack API"]>
      (<["appIndex" := LambdaFunction "index" "versions/v1/appIndex.zip"
                         "my-bucket" (Some 5) (Some 128)]>
         (<["appIndexVersion" := LambdaVersion "appIndex"]>
            (<["appIndexPermission" := LambdaPermission "appIndex"]>
               (<["RiseAPIResourceGET" :=
                    APIMethod "GET" "appIndex" RootResourceId]> ∅)))).
Proof. vm_compute. reflexivity. Qed.

(** * More on function resources *)


(** * Spellings of a path *)

Section PathSpellings.

Import APIResources.

Lemma append_String c s t : String c s +:+ t = String c (s +:+ t).
Proof. reflexivity. Qed.

Lemma length_append s t :
  String.length (s +:+ t) = (String.length s + String.length t)%nat.
Proof.
  induction s as [|c s IH]; [done|]. rewrite append_String. simpl.
  by rewrite IH.
Qed.

Lemma substring_0_all s : ∀ n,
  (String.length s ≤ n)%nat → String.substring 0 n s = s.
Proof.
  induction s as [|c s IH]; intros [|n] Hn; simpl in *; try done; try lia.
  rewrite IH; [done|lia].
Qed.

Lemma substring_0_append q t :
  String.substring 0 (String.length q) (q +:+ t) = q.
Proof.
  induction q as [|c q IH]; simpl; [by destruct t|].
  rewrite ?append_String. by rewrite IH.
Qed.

Lemma last_char_append_sep q c :
  JS.last_char (q +:+ String c EmptyString) = Some c.
Proof.
  induction q as [|a q IH]; [done|]. rewrite append_String.
  simpl. rewrite IH. by destruct (q +:+ String c EmptyString).
Qed.

Lemma last_char_None s : JS.last_char s = None → s = EmptyString.
Proof.
  induction s as [|c s IH]; [done|]. simpl. destruct s; [done|].
  intros H. by specialize (IH H).
Qed.

Lemma first_char_append q t :
  q ≠ EmptyString → JS.first_char (q +:+ t) = JS.first_char q.
Proof. by destruct q. Qed.

Lemma split_not_nil c s : JS.split c s ≠ [].
Proof.
  destruct s as [|a s]; simpl; [done|].
  destruct (Ascii.eqb a c); [done|]. by destruct (JS.split c s).
Qed.

(** A separator at the end adds one, empty, token. *)
Lemma split_append_sep c s :
  JS.split c (s +:+ String c EmptyString)
  = (JS.split c s ++ [EmptyString])%list.
Proof.
  induction s as [|a s IH].
  - simpl. by rewrite Ascii.eqb_refl.
  - rewrite append_String. simpl. rewrite IH.
    destruct (Ascii.eqb a c); [done|].
    pose proof (split_not_nil c s). by destruct (JS.split c s).
Qed.

(** The last token of a string that does not end in the separator is not
    empty. *)
Lemma split_last c s a :
  JS.last_char s = Some a → a ≠ c →
  ∃ token, last (JS.split c s) = Some token ∧ token ≠ EmptyString.
Proof.
  induction s as [|b s IH]; [done|]. intros Hl Ha. simpl.
  destruct s as [|b' s'].
  - injection Hl as ->. simpl.
    destruct (Ascii.eqb_spec a c); [done|]. by exists (String a EmptyString).
  - destruct (IH Hl Ha) as (token & Ht & Hne).
    pose proof (split_not_nil c (String b' s')) as Hnil.
    destruct (Ascii.eqb b c).
    + exists token. split; [|done]. rewrite last_cons. by rewrite Ht.
    + destruct (JS.split c (String b' s')) as [|t ts]; [done|].
      destruct ts as [|t' ts'].
      * simpl in Ht. injection Ht as <-. by exists (String b t).
      * exists token. split; [|done]. by rewrite last_cons_cons in *.
Qed.

Variable titlecase : string → string.
Variable d : RouteSetting.

(** An empty token after a last, non-empty, token changes nothing: the
    methods go to the node that token leads to either way. *)
Lemma walk_trailing_empty methods tokens : ∀ t r token,
  last tokens = Some token → token ≠ EmptyString →
  walk titlecase d methods (tokens ++ [EmptyString]) t r
  = walk titlecase d methods tokens t r.
Proof.
  induction tokens as [|tk rest IH]; intros t r token Hl Hne; [done|].
  destruct rest as [|tk' rest'].
  - injection Hl as ->. simpl. by rewrite !decide_False by done.
  - rewrite last_cons_cons in Hl. specialize (IH) with (1 := Hl) (2 := Hne).
    change ((tk :: tk' :: rest') ++ [EmptyString])%list
      with (tk :: ((tk' :: rest') ++ [EmptyString]))%list.
    cbn [walk]. case_decide; rewrite IH; reflexivity.
Qed.

(** The tokens of a key without, and with, a slash in front. *)
Lemma tokensOf_plain p :
  JS.first_char p ≠ Some "/"%char →
  tokensOf p
  = JS.split "/"
      (if decide (JS.last_char p = Some "/"%char)
       then JS.substr p 0 (String.length p - 1) else p).
Proof.
  intros Hf. unfold tokensOf. cbv zeta.
  by destruct (decide (JS.first_char p = Some "/"%char)).
Qed.

Lemma tokensOf_slash s :
  tokensOf ("/" +:+ s)
  = JS.split "/"
      (if decide (JS.last_char s = Some "/"%char)
       then JS.substr s 0 (String.length s) else s).
Proof.
  change ("/" +:+ s) with (String "/"%char s).
  unfold tokensOf. cbv zeta.
  assert (JS.substr_from (String "/"%char s) 1 = s) as ->.
  { unfold JS.substr_from. simpl. apply substring_0_all. lia. }
  destruct (decide (JS.first_char (String "/"%char s) = Some "/"%char));
    [|done].
  by replace (String.length (String "/"%char s) - 1)%nat
    with (String.length s) by (simpl; lia).
Qed.

(** With or without a slash in front and a slash at the end, a path is
    walked alike. *)
Lemma addPath_spellings st methods q :
  q ≠ EmptyString → JS.first_char q ≠ Some "/"%char →
  JS.last_char q ≠ Some "/"%char →
  addPath titlecase d st ("/" +:+ q, methods) = addPath titlecase d st (q, methods)
  ∧ addPath titlecase d st (q +:+ "/", methods)
    = addPath titlecase d st (q, methods)
  ∧ addPath titlecase d st ("/" +:+ q +:+ "/", methods)
    = addPath titlecase d st (q, methods).
Proof.
  intros Hq Hf Hl.
  assert (Htok : tokensOf q = JS.split "/" q).
  { rewrite tokensOf_plain by done. by rewrite decide_False. }
  assert (Hlast : ∃ token, last (JS.split "/" q) = Some token
                           ∧ token ≠ EmptyString).
  { destruct (JS.last_char q) as [a|] eqn:Ha;
      [|by apply last_char_None in Ha].
    apply (split_last _ _ a); congruence. }
  unfold addPath. simpl. rewrite Htok. split; [|split].
  - rewrite tokensOf_slash. by rewrite decide_False.
  - rewrite tokensOf_plain by (by rewrite first_char_append).
    rewrite last_char_append_sep, decide_True by done. unfold JS.substr.
    rewrite length_append. simpl. by rewrite Nat.add_sub, substring_0_append.
  - rewrite tokensOf_slash.
    rewrite last_char_append_sep, decide_True by done. unfold JS.substr.
    rewrite substring_0_all by done. rewrite split_append_sep.
    destruct Hlast as (token & Ht & Hne). by eapply walk_trailing_empty.
Qed.

End PathSpellings.

(** A path key with or without a slash in front, and with or without a
    slash at the end, gives the same resources: [users], [/users],
    [users/] and [/users/] are one path to [getAPIResources], wherever
    the key stands in the route map.  (The slash at the end of [/users/]
    is not cut off - the code cuts at the length of the key, not of the
    trimmed path - but the empty token it leaves binds the methods to the
    same node.) *)
Theorem path_spellings_agree
    (titlecase : string → string) (d : option APIResources.RouteSetting)
    (before after : list (string * APIResources.Methods))
    (methods : APIResources.Methods) (q : string) :
  q ≠ EmptyString → JS.first_char q ≠ Some "/"%char →
  JS.last_char q ≠ Some "/"%char →
  let resources p :=
    APIResources.getAPIResources titlecase
      {| APIResources.paths := (before ++ (p, methods) :: after)%list;
         APIResources.xRiseDefault := d |} in
  resources ("/" +:+ q) = resources q
  ∧ resources (q +:+ "/") = resources q
  ∧ resources ("/" +:+ q +:+ "/") = resources q.
Proof.
  intros Hq Hf Hl resources. subst resources.
  unfold APIResources.getAPIResources. simpl.
  set (ds := match d with Some x => x | None => _ end).
  rewrite !foldl_app. simpl.
  destruct (addPath_spellings titlecase ds
              (foldl (APIResources.addPath titlecase ds)
                 (APIResources.pathTree, ∅) before) methods q Hq Hf Hl)
    as (-> & -> & ->).
  done.
Qed.

(** The four spellings of [users]. *)
Lemma path_spellings_witness :
  APIResources.getAPIResources APIResources.titlecase_capitalize
    {| APIResources.paths := [("/users/", Examples.getCorsPostPlain)];
       APIResources.xRiseDefault := None |}
  = APIResources.getAPIResources APIResources.titlecase_capitalize
      {| APIResources.paths := [("users", Examples.getCorsPostPlain)];
         APIResources.xRiseDefault := None |}.
Proof.
  refine (proj2 (proj2 (path_spellings_agree APIResources.titlecase_capitalize
            None [] [] Examples.getCorsPostPlain "users" _ _ _))).
  - discriminate.
  - by vm_compute.
  - by vm_compute.
Defined.

(** * Names and references of the route fragments *)

Section RouteNameFacts.

Import APIResources RouteNames.

Variable titlecase : string → string.
Variable d : RouteSetting.

Implicit Types (t : Node).



Lemma step_children t token : children t = [] → children (step titlecase t token) = [].
Proof. intros H. unfold step. by case_decide. Qed.




End RouteNameFacts.





(** * More on the ping step *)

(** A function is pinged once for every collected name whose prefix it
    starts with: a deployed function that matches two manifest names is
    invoked twice, one that matches none is not invoked. *)
Theorem ping_once_per_matching_name
    (stack : string) (names deployed : list string) :
  Ping.pingTargets stack names deployed
  = deployed ≫= λ f,
      replicate
        (length (List.filter
                   (λ name, JS.startsWith f (stack +:+ "-" +:+ name)) names))
        f.
Proof.
  unfold Ping.pingTargets. induction deployed as [|f deployed IH]; [done|].
  csimpl. rewrite IH. f_equal. clear IH.
  induction names as [|name names IHn]; [done|]. csimpl. rewrite IHn.
  by destruct (JS.startsWith f (stack +:+ "-" +:+ name)).
Qed.

(** When every entry of the manifest is marked bare - or the manifest is
    empty - the ping step invokes nothing: once the functions are listed it
    resolves in state PINGED whatever is deployed and however an invocation
    would answer. *)
Theorem ping_all_bare_resolves
    (session : Session) (deployed : list string)
    (answers : nat → string → string → JSError + Ping.InvokeData) :
  (∀ name, name ∈ JS.keys (functions session) →
           ∃ s, entry (functions session) name = Some s ∧ bare s = true) →
  Ping.pingTargets (stackName session)
    (Ping.functionNamesToPing (functions session)) deployed = []
  ∧ Ping.pingFunctions
      {| Ping.listFunctions := inr deployed; Ping.invoke := answers |} session
    = Resolved (setState (setState session "PINGING") "PINGED").
Proof.
  intros Hbare.
  assert (Hnames : Ping.functionNamesToPing (functions session) = []).
  { destruct (Ping.functionNamesToPing (functions session)) as [|name l] eqn:E;
      [done|]. exfalso.
    assert (name ∈ Ping.functionNamesToPing (functions session)) as Hin
      by (rewrite E; apply list_elem_of_here).
    apply functionNamesToPing_spec in Hin as [Hk Hb].
    destruct (Hbare name Hk) as (s & Hs & Hbs). specialize (Hb s Hs).
    congruence. }
  assert (Htargets : Ping.pingTargets (stackName session)
                       (Ping.functionNamesToPing (functions session)) deployed
                     = []).
  { rewrite Hnames. unfold Ping.pingTargets.
    induction deployed as [|f l IH]; [done|]. csimpl. csimpl in IH.
    exact IH. }
  split; [done|]. unfold Ping.pingFunctions. cbn [Ping.listFunctions].
  change (functions (setState session "PINGING")) with (functions session).
  change (stackName (setState session "PINGING")) with (stackName session).
  by rewrite Htargets.
Qed.

(** A manifest whose one function is marked bare. *)
Lemma ping_all_bare_witness :
  Ping.pingFunctions
    {| Ping.listFunctions := inr ["my-stack-worker-1ABC"];
       Ping.invoke := λ _ _ _, inl Ping.notDeployed |}
    (setState MoreExamples.bareSession "UPDATED")
  = Resolved
      (setState (setState (setState MoreExamples.bareSession "UPDATED") "PINGING")
         "PINGED").
Proof.
  refine (proj2 (ping_all_bare_resolves _ _ _ _)).
  intros name Hn. apply list_elem_of_singleton in Hn as ->.
  eexists. split; reflexivity.
Defined.

(** The ping step rejects only with the error of the listing, the error of
    an invocation, or 'functions are not deployed properly' for an
    invocation that answered with another status or body; the session is
    then left in state PINGING, and only its state has changed. *)
Theorem ping_rejection_provenance
    (lambda : Ping.Lambda) (session : Session) (err : JSError) (s : Session) :
  Ping.pingFunctions lambda session = Rejected err s →
  s = setState session "PINGING"
  ∧ (Ping.listFunctions lambda = inl err
     ∨ ∃ deployed n f,
         Ping.listFunctions lambda = inr deployed
         ∧ Ping.pingTargets (stackName session)
             (Ping.functionNamesToPing (functions session)) deployed !! n
           = Some f
         ∧ (Ping.invoke lambda n f Ping.riseTest = inl err
            ∨ (err = Ping.notDeployed
               ∧ ∃ data, Ping.invoke lambda n f Ping.riseTest = inr data
                         ∧ (Ping.StatusCode data ≠ 200
                            ∨ Ping.Payload data ≠ Ping.testOk)))).
Proof.
  unfold Ping.pingFunctions.
  change (functions (setState session "PINGING")) with (functions session).
  change (stackName (setState session "PINGING")) with (stackName session).
  destruct (Ping.listFunctions lambda) as [e|deployed] eqn:Hl.
  - intros [= <- <-]. auto.
  - set (targets := Ping.pingTargets _ _ deployed).
    destruct (Ping.promiseAll lambda 0 targets) as [e|] eqn:Hp; [|done].
    intros [= <- <-]. split; [done|]. right. exists deployed.
    assert (Hgen : ∀ l k, Ping.promiseAll lambda k l = Some e →
              ∃ i f, l !! i = Some f
                     ∧ Ping.pingPromise lambda (k + i) f = Some e).
    { induction l as [|f l IH]; intros k H; [done|]. simpl in H.
      destruct (Ping.pingPromise lambda k f) as [e'|] eqn:Hf.
      - injection H as ->. exists 0%nat, f. by rewrite Nat.add_0_r.
      - destruct (IH _ H) as (i & f' & Hi & Hf').
        exists (S i), f'. split; [done|]. by rewrite Nat.add_succ_r. }
    destruct (Hgen _ _ Hp) as (i & f & Hi & Hf). simpl in Hf.
    exists i, f. split; [done|]. split; [done|].
    unfold Ping.pingPromise in Hf.
    destruct (Ping.invoke lambda i f Ping.riseTest) as [e'|data];
      [left; congruence|].
    right. case_decide; [|done]. injection Hf as <-. eauto.
Qed.

(** One function whose invocation answers with status 500. *)
Lemma ping_rejection_witness :
  Ping.listFunctions MoreExamples.failingLambda = inl Ping.notDeployed
  ∨ ∃ deployed n f,
      Ping.listFunctions MoreExamples.failingLambda = inr deployed
      ∧ Ping.pingTargets "my-stack"
          (Ping.functionNamesToPing (functions Examples.session)) deployed !! n
        = Some f
      ∧ (Ping.invoke MoreExamples.failingLambda n f Ping.riseTest
         = inl Ping.notDeployed
         ∨ (Ping.notDeployed = Ping.notDeployed
            ∧ ∃ data, Ping.invoke MoreExamples.failingLambda n f Ping.riseTest
                      = inr data
                      ∧ (Ping.StatusCode data ≠ 200
                         ∨ Ping.Payload data ≠ Ping.testOk))).
Proof.
  refine (proj2 (ping_rejection_provenance MoreExamples.failingLambda
                   Examples.session Ping.notDeployed
                   (setState Examples.session "PINGING") _)).
  vm_compute. reflexivity.
Defined.

(** * More on trigger resources *)

Section TriggerProvenance.

Import TriggerResources.

Variables (b : Builders) (region : string).



End TriggerProvenance.





(** * More on the update step *)

(** What an outcome of the update step tells: it resolves only when the
    stack has converged - then the state is UPDATED - or on one of the two
    errors the handler recognizes, and then the session is returned as the
    error found it; it rejects only with the very error the request or the
    wait was rejected with, never with another one.  In every outcome the
    session carries the template the step has built. *)
Theorem update_outcome_sound
    (b : TriggerResources.Builders) (titlecase : string → string)
    (cfBase : gmap string Fragment) (remote : UpdateStack.Remote)
    (session : Session) :
  let sent := UpdateStack.submitted b titlecase cfBase session in
  let found := UpdateStack.pending remote sent in
  let outcome := fst (UpdateStack.updateStack b titlecase cfBase remote session) in
  (∀ s, outcome = Resolved s →
     (UpdateStack.rejection remote sent = None ∧ s = setState found "UPDATED")
     ∨ (s = found
        ∧ ∃ err msg,
            UpdateStack.rejection remote sent = Some err
            ∧ message err = Some msg
            ∧ (JS.indexOf msg UpdateStack.noUpdates ≠ -1
               ∨ (state found ≠ "UPDATING"
                  ∧ JS.indexOf msg UpdateStack.notReady ≠ -1))))
  ∧ (∀ err s, outcome = Rejected err s →
       UpdateStack.rejection remote sent = Some err ∧ s = found)
  ∧ (∀ s, (outcome = Resolved s ∨ ∃ err, outcome = Rejected err s) →
       cfTemplate s
       = fst (UpdateStack.buildTemplate b titlecase cfBase session)
       ∧ stackName s = stackName session).
Proof.
  intros sent found outcome.
  assert (Hcatch : ∀ err,
            (∀ s, fst (UpdateStack.onRejected found err) = Resolved s →
               s = found
               ∧ ∃ msg, message err = Some msg
                        ∧ (JS.indexOf msg UpdateStack.noUpdates ≠ -1
                           ∨ (state found ≠ "UPDATING"
                              ∧ JS.indexOf msg UpdateStack.notReady ≠ -1)))
            ∧ (∀ e s, fst (UpdateStack.onRejected found err) = Rejected e s →
                 e = err ∧ s = found)).
  { intros err. unfold UpdateStack.onRejected.
    destruct (message err) as [msg|]; [|split; [done|by intros ? ? [= <- <-]]].
    repeat case_decide; simpl; split;
      try done; try (by intros ? ? [= <- <-]); intros ? [= <-]; eauto 6. }
  assert (Hfound : cfTemplate found
                   = fst (UpdateStack.buildTemplate b titlecase cfBase session)
                   ∧ stackName found = stackName session).
  { subst found sent. unfold UpdateStack.pending.
    by destruct (UpdateStack.written remote). }
  assert (Hcases : (UpdateStack.rejection remote sent = None
                    ∧ outcome = Resolved (setState found "UPDATED"))
                   ∨ ∃ err, UpdateStack.rejection remote sent = Some err
                            ∧ outcome
                              = fst (UpdateStack.onRejected found err)).
  { destruct (UpdateStack.rejection remote sent) as [err|] eqn:Hr.
    - right. exists err. split; [done|].
      by apply updateStack_rejected.
    - left. split; [done|]. by apply updateStack_fulfilled. }
  split; [|split].
  - intros s Hs. destruct Hcases as [[Hr Ho]|(err & Hr & Ho)].
    + left. split; [done|]. congruence.
    + right. rewrite Ho in Hs.
      destruct (proj1 (Hcatch err) s Hs) as (-> & msg & ? & ?). eauto 6.
  - intros err s Hs. destruct Hcases as [[Hr Ho]|(err' & Hr & Ho)];
      [congruence|].
    rewrite Ho in Hs. destruct (proj2 (Hcatch err') err s Hs) as [-> ->].
    done.
  - intros s [Hs|[err Hs]]; destruct Hcases as [[Hr Ho]|(err' & Hr & Ho)].
    + assert (s = setState found "UPDATED") as -> by congruence. done.
    + rewrite Ho in Hs. by destruct (proj1 (Hcatch err') s Hs) as (-> & _).
    + congruence.
    + rewrite Ho in Hs. by destruct (proj2 (Hcatch err') err s Hs) as [_ ->].
Qed.

(** * How the template is put together *)

(** Which step a resource of the template comes from.  The four steps
    write into one object, so under a name that two of them use the later
    one wins: a trigger resource before everything else, then - under
    [RiseRole] - the role as the stream triggers leave it, then a route
    fragment, then a function fragment, then the REST API under [RiseAPI],
    then the base template.  The role handed to the triggers is what the
    earlier steps left under [RiseRole]. *)
Theorem template_precedence (b : TriggerResources.Builders)
    (titlecase : string → string) (cfBase : gmap string Fragment)
    (session : Session) (n : string) :
  let fr :=
    FunctionResources.getFunctionResources (bucketName session)
      (version session) (functions session) (compressedFunctions session) in
  let ar := APIResources.getAPIResources titlecase (routes session) in
  let earlier :=
    assign (assign (UpdateStack.getBaseTemplate cfBase (stackName session)) fr)
      ar in
  let t :=
    TriggerResources.getTriggerResources b (functions session)
      (region session) (earlier !! "RiseRole") in
  fst (UpdateStack.buildTemplate b titlecase cfBase session) !! n
  = match TriggerResources.resources t !! n with
    | Some x => Some x
    | None =>
        match (if decide (n = "RiseRole") then TriggerResources.role t
               else None) with
        | Some r => Some r
        | None =>
            match ar !! n with
            | Some x => Some x
            | None =>
                match fr !! n with
                | Some x => Some x
                | None =>
                    if decide (n = "RiseAPI")
                    then Some (RestAPI (stackName session +:+ " API"))
                    else cfBase !! n
                end
            end
        end
    end.
Proof.
  intros fr ar earlier t. unfold UpdateStack.buildTemplate. cbn [fst].
  fold fr. fold ar. fold earlier. fold t.
  assert (Hearlier : earlier !! n
                     = match ar !! n with
                       | Some x => Some x
                       | None =>
                           match fr !! n with
                           | Some x => Some x
                           | None =>
                               if decide (n = "RiseAPI")
                               then Some (RestAPI (stackName session +:+ " API"))
                               else cfBase !! n
                           end
                       end).
  { subst earlier. unfold assign, UpdateStack.getBaseTemplate.
    destruct (ar !! n) as [y|] eqn:Hy.
    { by apply lookup_union_Some_l. }
    rewrite lookup_union_r by done.
    destruct (fr !! n) as [z|] eqn:Hz.
    { by apply lookup_union_Some_l. }
    rewrite lookup_union_r by done.
    destruct (decide (n = "RiseAPI")) as [->|Hn].
    - by rewrite lookup_insert_eq.
    - by rewrite lookup_insert_ne. }
  destruct (TriggerResources.resources t !! n) as [x|] eqn:Hx.
  { by apply lookup_union_Some_l. }
  rewrite lookup_union_r by done.
  destruct (decide (n = "RiseRole")) as [->|Hn].
  - destruct (TriggerResources.role t) as [r|].
    + by rewrite lookup_insert_eq.
    + exact Hearlier.
  - destruct (TriggerResources.role t) as [r|].
    + rewrite lookup_insert_ne by done. exact Hearlier.
    + exact Hearlier.
Qed.

(** * The earlier deploy steps *)

Section LegacyFacts.

Context {J O : Type}.
Variable parse : string → option J.
Variable sep : string.

(** A pattern that does not occur is not replaced. *)
Lemma replace_absent (s pattern replacement : string) (i : Z) :
  0 ≤ i → JS.indexOf_from s pattern i = -1 →
  Legacy.replace s pattern replacement = s.
Proof.
  revert i. induction s as [|c s IH]; intros i Hi H.
  - cbn [Legacy.replace JS.indexOf_from] in *.
    destruct (String.prefix pattern EmptyString); [lia|done].
  - cbn [Legacy.replace JS.indexOf_from] in *.
    destruct (String.prefix pattern (String c s)); [lia|].
    f_equal. apply (IH (i + 1)); [lia|done].
Qed.

Lemma fillFunction_absent (content : string) (func : Legacy.LegacyFunction)
    (funcName : string) :
  JS.indexOf content "$HANDLER" = -1 →
  JS.indexOf content "$S3KEY" = -1 →
  JS.indexOf content "$TIMEOUT" = -1 →
  Legacy.fillFunction content func funcName = content.
Proof.
  intros H1 H2 H3. unfold Legacy.fillFunction.
  rewrite (replace_absent content "$HANDLER" _ 0) by done.
  rewrite (replace_absent content "$S3KEY" _ 0) by done.
  by rewrite (replace_absent content "$TIMEOUT" _ 0).
Qed.

Lemma fillName_absent (content funcName : string) :
  JS.indexOf content "$FUNCTION_NAME" = -1 →
  Legacy.fillName content funcName = content.
Proof. intros H. unfold Legacy.fillName. by rewrite (replace_absent _ _ _ 0). Qed.

Lemma prop_withoutDefault
    (functions : list (string * option Legacy.LegacyFunction)) (k : string) :
  k ≠ "default" →
  JS.prop (Legacy.withoutDefault functions) k = JS.prop functions k.
Proof.
  intros Hk. induction functions as [|[k' v] functions IH]; [done|].
  unfold Legacy.withoutDefault in *. cbn [List.filter fst negb JS.prop].
  destruct (String.eqb_spec k' "default") as [->|Hk'].
  - cbn [negb]. rewrite IH.
    destruct (String.eqb_spec "default" k) as [<-|_]; done.
  - cbn [negb JS.prop]. by rewrite IH.
Qed.

Lemma keys_withoutDefault
    (functions : list (string * option Legacy.LegacyFunction)) :
  JS.keys (Legacy.withoutDefault functions)
  = List.filter (λ k, negb (String.eqb k "default")) (JS.keys functions).
Proof.
  unfold JS.keys, Legacy.withoutDefault.
  induction functions as [|[k v] functions IH]; [done|].
  cbn [List.filter map fst]. destruct (negb (String.eqb k "default")); [|done].
  cbn [map fst]. by rewrite IH.
Qed.

Lemma deployFunction_ext
    (functions functions' : list (string * option Legacy.LegacyFunction))
    (st : Legacy.Loop J) (k : string) :
  (k ≠ "default" → JS.prop functions k = JS.prop functions' k) →
  Legacy.deployFunction parse sep functions st k
  = Legacy.deployFunction parse sep functions' st k.
Proof.
  intros H. unfold Legacy.deployFunction.
  destruct (decide (k = "default")); [done|]. by rewrite H.
Qed.

Lemma deployLoop_ext
    (functions functions' : list (string * option Legacy.LegacyFunction))
    (ks : list string) (st : Legacy.Loop J) :
  (∀ k, k ∈ ks → k ≠ "default" →
        JS.prop functions k = JS.prop functions' k) →
  Legacy.deployLoop parse sep functions st ks
  = Legacy.deployLoop parse sep functions' st ks.
Proof.
  revert st. induction ks as [|k ks IH]; intros st H; [done|].
  cbn [Legacy.deployLoop].
  rewrite (deployFunction_ext functions functions' st k)
    by (apply H; left).
  destruct (Legacy.deployFunction parse sep functions' st k); [done|].
  apply IH. intros k' Hk'. apply H. by right.
Qed.

Lemma deployLoop_skip
    (functions : list (string * option Legacy.LegacyFunction))
    (ks : list string) (st : Legacy.Loop J) :
  Legacy.deployLoop parse sep functions st ks
  = Legacy.deployLoop parse sep functions st
      (List.filter (λ k, negb (String.eqb k "default")) ks).
Proof.
  revert st. induction ks as [|k ks IH]; intros st; [done|].
  cbn [Legacy.deployLoop List.filter].
  destruct (String.eqb_spec k "default") as [->|Hk]; cbn [negb].
  - unfold Legacy.deployFunction at 1.
    rewrite decide_True by done. apply IH.
  - cbn [Legacy.deployLoop].
    destruct (Legacy.deployFunction parse sep functions st k); [done|]. apply IH.
Qed.

(** What the request and the wait make of a template. *)
Lemma sendAndWait_outcome {A : Type} (cf : Legacy.StackService J O)
    (stackName : string) (template : Legacy.Template J) (value : O → A) :
  let outcome := Legacy.sendAndWait cf stackName template value in
  (∀ a, outcome = Legacy.Fulfilled a →
     Legacy.updateStackReply cf stackName template = None
     ∧ ∃ outputs, Legacy.waitForReply cf stackName = inr outputs
                  ∧ a = value outputs)
  ∧ (∀ m, outcome = Legacy.Refused (Legacy.Message m) →
       ∃ err, Legacy.updateStackReply cf stackName template = Some err
              ∧ m = message err)
  ∧ (∀ e, outcome = Legacy.Refused (Legacy.ErrorObject e) →
       Legacy.updateStackReply cf stackName template = None
       ∧ Legacy.waitForReply cf stackName = inl e)
  ∧ (∀ k, outcome ≠ Legacy.Refused (Legacy.Thrown k)).
Proof.
  unfold Legacy.sendAndWait.
  destruct (Legacy.updateStackReply cf stackName template) as [err|].
  { split; [done|]. split; [|done]. intros m [= <-]. by exists err. }
  destruct (Legacy.waitForReply cf stackName) as [e|outputs].
  { split; [done|]. split; [done|]. split; [|done]. by intros ? [= <-]. }
  split; [|done]. intros a [= <-]. split; [done|]. by exists outputs.
Qed.

(** The loop throws a [TypeError] or a [SyntaxError] only; when it does not
    throw, the names it has written are those of the keys other than
    [default]. *)
Lemma deployLoop_names
    (functions : list (string * option Legacy.LegacyFunction))
    (ks : list string) (st : Legacy.Loop J) :
  match Legacy.deployLoop parse sep functions st ks with
  | inl thrown =>
      thrown = Legacy.Thrown "TypeError" ∨ thrown = Legacy.Thrown "SyntaxError"
  | inr st' =>
      (∀ n, is_Some (Legacy.Resources (Legacy.cfBaseContentJSON st') !! n) ↔
            is_Some (Legacy.Resources (Legacy.cfBaseContentJSON st) !! n)
            ∨ ∃ k, k ∈ ks ∧ k ≠ "default"
                   ∧ (n = Legacy.funcNameOf sep k
                      ∨ n = Legacy.funcNameOf sep k +:+ "Version"))
      ∧ (∀ n, is_Some (Legacy.Outputs (Legacy.cfBaseContentJSON st') !! n) ↔
              is_Some (Legacy.Outputs (Legacy.cfBaseContentJSON st) !! n)
              ∨ ∃ k, k ∈ ks ∧ k ≠ "default" ∧ n = Legacy.funcNameOf sep k)
  end.
Proof.
  revert st. induction ks as [|k ks IH]; intros st.
  { cbn [Legacy.deployLoop]. split; intros n; split; auto.
    - intros [H|(k & Hk & _)]; [done|by apply elem_of_nil in Hk].
    - intros [H|(k & Hk & _)]; [done|by apply elem_of_nil in Hk]. }
  cbn [Legacy.deployLoop].
  destruct (Legacy.deployFunction parse sep functions st k)
    as [thrown|st1] eqn:Hstep.
  { unfold Legacy.deployFunction in Hstep.
    destruct (decide (k = "default")); [done|].
    repeat (match type of Hstep with
            | context [match ?x with _ => _ end] => destruct x
            end; try (injection Hstep as <-; auto; fail)); done. }
  specialize (IH st1).
  destruct (Legacy.deployLoop parse sep functions st1 ks) as [thrown|st'];
    [done|].
  destruct IH as [IHr IHo].
  unfold Legacy.deployFunction in Hstep.
  destruct (decide (k = "default")) as [->|Hk].
  { injection Hstep as <-. split; intros n.
    - rewrite IHr. split; (intros [H|(k & Hin & Hne & Hn)]; [by left|right]).
      + exists k. split; [by right|done].
      + exists k. apply elem_of_cons in Hin as [->|Hin]; done.
    - rewrite IHo. split; (intros [H|(k & Hin & Hne & Hn)]; [by left|right]).
      + exists k. split; [by right|done].
      + exists k. apply elem_of_cons in Hin as [->|Hin]; done. }
  repeat (match type of Hstep with
          | context [match ?x with _ => _ end] => destruct x
          end; try done).
  injection Hstep as <-. cbn [Legacy.cfBaseContentJSON] in *.
  cbn [Legacy.Resources Legacy.Outputs] in *.
  split; intros n.
  - rewrite IHr. rewrite !lookup_insert_is_Some'.
    split.
    + intros [[<-|[<-|H]]|(k' & Hin & Hne & Hn)].
      * right. exists k. split; [left|]. auto.
      * right. exists k. split; [left|]. auto.
      * by left.
      * right. exists k'. split; [by right|done].
    + intros [H|(k' & Hin & Hne & Hn)]; [auto|].
      apply elem_of_cons in Hin as [->|Hin].
      * destruct Hn as [->| ->]; auto.
      * right. by exists k'.
  - rewrite IHo. rewrite !lookup_insert_is_Some'.
    split.
    + intros [[<-|H]|(k' & Hin & Hne & Hn)].
      * right. exists k. split; [left|]. auto.
      * by left.
      * right. exists k'. split; [by right|done].
    + intros [H|(k' & Hin & Hne & Hn)]; [auto|].
      apply elem_of_cons in Hin as [->|Hin].
      * subst n. auto.
      * right. by exists k'.
Qed.

Lemma deployLoop_missing
    (functions : list (string * option Legacy.LegacyFunction))
    (ks : list string) (st : Legacy.Loop J) :
  Legacy.cfFunctionContent st = None →
  Legacy.deployLoop parse sep functions st ks
  = if forallb (String.eqb "default") ks then inr st
    else inl (Legacy.Thrown "TypeError").
Proof.
  intros Hst. induction ks as [|k ks IH]; [done|].
  cbn [Legacy.deployLoop forallb]. unfold Legacy.deployFunction.
  destruct (String.eqb_spec "default" k) as [<-|Hk].
  - rewrite decide_True by done. exact IH.
  - rewrite decide_False by done. by rewrite Hst.
Qed.

(** Once the three texts hold no placeholder, a step leaves them as they
    are and writes the same three fragments, whatever the function. *)
Lemma deployFunction_steady
    (functions : list (string * option Legacy.LegacyFunction))
    (st : Legacy.Loop J) (k fc vc oc : string) (unit ver out : J) :
  Legacy.cfFunctionContent st = Some fc →
  Legacy.cfFunctionVersionContent st = Some vc →
  Legacy.cfFunctionArnOutputContent st = Some oc →
  JS.indexOf fc "$HANDLER" = -1 →
  JS.indexOf fc "$S3KEY" = -1 →
  JS.indexOf fc "$TIMEOUT" = -1 →
  JS.indexOf vc "$FUNCTION_NAME" = -1 →
  JS.indexOf oc "$FUNCTION_NAME" = -1 →
  parse fc = Some unit → parse vc = Some ver → parse oc = Some out →
  k ≠ "default" →
  is_Some (mjoin (JS.prop functions k)) →
  Legacy.deployFunction parse sep functions st k
  = inr {| Legacy.cfFunctionContent := Some fc;
           Legacy.cfFunctionVersionContent := Some vc;
           Legacy.cfFunctionArnOutputContent := Some oc;
           Legacy.cfBaseContentJSON :=
             {| Legacy.Resources :=
                  <[Legacy.funcNameOf sep k +:+ "Version" := ver]>
                    (<[Legacy.funcNameOf sep k := unit]>
                       (Legacy.Resources (Legacy.cfBaseContentJSON st)));
                Legacy.Outputs :=
                  <[Legacy.funcNameOf sep k := out]>
                    (Legacy.Outputs (Legacy.cfBaseContentJSON st)) |} |}.
Proof.
  intros Hfc Hvc Hoc H1 H2 H3 H4 H5 Hu Hv Ho Hk [f Hf].
  unfold Legacy.deployFunction. rewrite decide_False by done.
  rewrite Hfc, Hf, Hvc, Hoc.
  rewrite fillFunction_absent by done. rewrite !fillName_absent by done.
  by rewrite Hu, Hv, Ho.
Qed.

Lemma deployLoop_steady
    (functions : list (string * option Legacy.LegacyFunction))
    (ks : list string) (st : Legacy.Loop J) (fc vc oc : string)
    (unit ver out : J) :
  Legacy.cfFunctionContent st = Some fc →
  Legacy.cfFunctionVersionContent st = Some vc →
  Legacy.cfFunctionArnOutputContent st = Some oc →
  JS.indexOf fc "$HANDLER" = -1 →
  JS.indexOf fc "$S3KEY" = -1 →
  JS.indexOf fc "$TIMEOUT" = -1 →
  JS.indexOf vc "$FUNCTION_NAME" = -1 →
  JS.indexOf oc "$FUNCTION_NAME" = -1 →
  parse fc = Some unit → parse vc = Some ver → parse oc = Some out →
  (∀ k, k ∈ ks → k ≠ "default" → is_Some (mjoin (JS.prop functions k))) →
  ∃ st', Legacy.deployLoop parse sep functions st ks = inr st'
    ∧ (∀ n x, Legacy.Resources (Legacy.cfBaseContentJSON st') !! n = Some x →
         Legacy.Resources (Legacy.cfBaseContentJSON st) !! n = Some x
         ∨ x = unit ∨ x = ver)
    ∧ (∀ n, Legacy.Outputs (Legacy.cfBaseContentJSON st) !! n = Some out →
         Legacy.Outputs (Legacy.cfBaseContentJSON st') !! n = Some out)
    ∧ (∀ k, k ∈ ks → k ≠ "default" →
         Legacy.Outputs (Legacy.cfBaseContentJSON st') !! Legacy.funcNameOf sep k
         = Some out).
Proof.
  intros Hfc Hvc Hoc H1 H2 H3 H4 H5 Hu Hv Ho.
  revert st Hfc Hvc Hoc. induction ks as [|k ks IH]; intros st Hfc Hvc Hoc Hks.
  { exists st. split; [done|]. split; [auto|]. split; [done|].
    intros k Hk. by apply elem_of_nil in Hk. }
  cbn [Legacy.deployLoop].
  destruct (decide (k = "default")) as [->|Hk].
  { unfold Legacy.deployFunction. rewrite decide_True by done.
    destruct (IH st Hfc Hvc Hoc) as (st' & Hl & Hr & Hm & Ho').
    { intros k Hin. apply Hks. by right. }
    exists st'. split; [done|]. split; [done|]. split; [done|].
    intros k Hin Hne. apply elem_of_cons in Hin as [->|Hin]; [done|].
    by apply Ho'. }
  assert (Hf : is_Some (mjoin (JS.prop functions k))).
  { apply Hks; [left|done]. }
  rewrite (deployFunction_steady functions st k fc vc oc unit ver out
             Hfc Hvc Hoc H1 H2 H3 H4 H5 Hu Hv Ho Hk Hf).
  match goal with
  | |- context [Legacy.deployLoop _ _ _ ?st1 _] =>
      destruct (IH st1 eq_refl eq_refl eq_refl) as (st' & Hl & Hr & Hm & Ho')
  end.
  { intros k' Hin. apply Hks. by right. }
  exists st'.
  cbn [Legacy.cfBaseContentJSON Legacy.Resources Legacy.Outputs] in *.
  split; [done|]. split; [|split].
  - intros n x Hx. destruct (Hr n x Hx) as [Hb|Hb]; [|by right].
    apply lookup_insert_Some in Hb as [[_ <-]|[_ Hb]]; [auto|].
    apply lookup_insert_Some in Hb as [[_ <-]|[_ Hb]]; auto.
  - intros n Hn. apply Hm.
    destruct (decide (Legacy.funcNameOf sep k = n)) as [<-|Hne].
    + by rewrite lookup_insert_eq.
    + by rewrite lookup_insert_ne.
  - intros k' Hin Hne. apply elem_of_cons in Hin as [->|Hin]; [|by apply Ho'].
    apply Hm. by rewrite lookup_insert_eq.
Qed.

Lemma prop_nonnull
    (functions : list (string * option Legacy.LegacyFunction))
    (k : string) :
  Forall (λ p, is_Some (snd p)) functions →
  k ∈ JS.keys functions →
  is_Some (mjoin (JS.prop functions k)).
Proof.
  intros Hall. induction Hall as [|[k' v] functions Hv Hall IH]; intros Hk.
  { by apply elem_of_nil in Hk. }
  cbn [JS.prop]. destruct (String.eqb_spec k' k) as [->|Hne]; [exact Hv|].
  apply IH. unfold JS.keys in Hk. cbn [map fst] in Hk.
  apply elem_of_cons in Hk as [->|Hk]; done.
Qed.

End LegacyFacts.

(** The key [default] of the manifest is passed over, whatever its entry
    is: the step does the same for the manifest without it. *)
Theorem deploy_functions_skips_default {J O : Type}
    (parse : string → option J) (sep : string)
    (templates : Legacy.Loop J) (cf : Legacy.StackService J O)
    (stackName : string)
    (functions : list (string * option Legacy.LegacyFunction))
    (bucketName : string) :
  Legacy.DeployFunctions parse sep templates cf stackName functions bucketName
  = Legacy.DeployFunctions parse sep templates cf stackName
      (Legacy.withoutDefault functions) bucketName.
Proof.
  unfold Legacy.DeployFunctions.
  rewrite (deployLoop_skip parse sep functions (JS.keys functions)).
  rewrite keys_withoutDefault.
  rewrite (deployLoop_ext parse sep functions (Legacy.withoutDefault functions));
    [done|].
  intros k _ Hk. symmetry. by apply prop_withoutDefault.
Qed.

(** What an outcome of [DeployFunctions] tells.  Fulfilled: the request for
    the returned template was accepted, the wait gave the returned outputs,
    the bucket name is handed through, and the names added to the base
    template are those of the keys other than [default] - for resources
    also with [Version] appended.  A rejection carries the message of the
    error of the request, the error of the wait itself, or a [TypeError] or
    [SyntaxError] thrown while the template was built, which no stack
    service changes. *)
Theorem deploy_functions_outcome {J O : Type}
    (parse : string → option J) (sep : string)
    (templates : Legacy.Loop J) (cf : Legacy.StackService J O)
    (stackName : string)
    (functions : list (string * option Legacy.LegacyFunction))
    (bucketName : string) :
  let base := Legacy.cfBaseContentJSON templates in
  let outcome :=
    Legacy.DeployFunctions parse sep templates cf stackName functions
      bucketName in
  (∀ d, outcome = Legacy.Fulfilled d →
     Legacy.bucketName d = bucketName
     ∧ Legacy.updateStackReply cf stackName (Legacy.cfTemplate d) = None
     ∧ Legacy.waitForReply cf stackName = inr (Legacy.outputs d)
     ∧ (∀ n, is_Some (Legacy.Resources (Legacy.cfTemplate d) !! n) ↔
             is_Some (Legacy.Resources base !! n)
             ∨ ∃ k, k ∈ JS.keys functions ∧ k ≠ "default"
                    ∧ (n = Legacy.funcNameOf sep k
                       ∨ n = Legacy.funcNameOf sep k +:+ "Version"))
     ∧ (∀ n, is_Some (Legacy.Outputs (Legacy.cfTemplate d) !! n) ↔
             is_Some (Legacy.Outputs base !! n)
             ∨ ∃ k, k ∈ JS.keys functions ∧ k ≠ "default"
                    ∧ n = Legacy.funcNameOf sep k))
  ∧ (∀ m, outcome = Legacy.Refused (Legacy.Message m) →
       ∃ template err,
         Legacy.updateStackReply cf stackName template = Some err
         ∧ m = message err)
  ∧ (∀ e, outcome = Legacy.Refused (Legacy.ErrorObject e) →
       Legacy.waitForReply cf stackName = inl e)
  ∧ (∀ kind, outcome = Legacy.Refused (Legacy.Thrown kind) →
       (kind = "TypeError" ∨ kind = "SyntaxError")
       ∧ ∀ (cf' : Legacy.StackService J O) stackName' bucketName',
           Legacy.DeployFunctions parse sep templates cf' stackName'
             functions bucketName'
           = Legacy.Refused (Legacy.Thrown kind)).
Proof.
  intros base outcome. subst outcome. unfold Legacy.DeployFunctions.
  pose proof (deployLoop_names parse sep functions (JS.keys functions)
                templates) as Hnames.
  destruct (Legacy.deployLoop parse sep functions templates (JS.keys functions))
    as [thrown|st].
  { split; [done|]. split; [|split].
    - intros m [= ->]. by destruct Hnames.
    - intros e [= ->]. by destruct Hnames.
    - intros kind [= ->]. split; [|done].
      destruct Hnames as [[= ->]|[= ->]]; auto. }
  destruct Hnames as [Hr Ho].
  destruct (sendAndWait_outcome (O:=O) cf stackName (Legacy.cfBaseContentJSON st)
              (λ outputs, {| Legacy.cfTemplate := Legacy.cfBaseContentJSON st;
                             Legacy.bucketName := bucketName;
                             Legacy.outputs := outputs |}))
    as (Hf & Hm & He & Ht).
  split; [|split; [|split]].
  - intros d Hd. destruct (Hf d Hd) as (Hreq & outputs & Hwait & ->).
    cbn [Legacy.bucketName Legacy.cfTemplate Legacy.outputs]. auto.
  - intros m H. destruct (Hm m H) as (err & Herr & ->). eauto.
  - intros e H. by destruct (He e H).
  - intros kind H. by destruct (Ht kind).
Qed.

(** When the function template cannot be read, the first key other than
    [default] ends the step with a [TypeError], before any request; with
    no such key the base template is sent as it is. *)
Theorem deploy_functions_missing_template {J O : Type}
    (parse : string → option J) (sep : string)
    (templates : Legacy.Loop J) (cf : Legacy.StackService J O)
    (stackName : string)
    (functions : list (string * option Legacy.LegacyFunction))
    (bucketName : string) :
  Legacy.cfFunctionContent templates = None →
  let base := Legacy.cfBaseContentJSON templates in
  let outcome :=
    Legacy.DeployFunctions parse sep templates cf stackName functions
      bucketName in
  (outcome = Legacy.Refused (Legacy.Thrown "TypeError")
   ↔ ∃ k, k ∈ JS.keys functions ∧ k ≠ "default")
  ∧ ((∀ k, k ∈ JS.keys functions → k = "default") →
     outcome
     = Legacy.sendAndWait cf stackName base
         (λ outputs, {| Legacy.cfTemplate := base;
                        Legacy.bucketName := bucketName;
                        Legacy.outputs := outputs |})).
Proof.
  intros Hnone base outcome. subst outcome. unfold Legacy.DeployFunctions.
  rewrite (deployLoop_missing parse sep functions _ _ Hnone).
  destruct (forallb (String.eqb "default") (JS.keys functions)) eqn:Hall.
  - rewrite forallb_forall in Hall. split; [|done].
    split.
    + intros H. exfalso. revert H.
      apply (sendAndWait_outcome (O:=O) cf stackName base).
    + intros (k & Hin & Hk). exfalso. apply Hk.
      apply list_elem_of_In in Hin. apply Hall in Hin.
      by apply String.eqb_eq in Hin.
  - split.
    + split; [|done]. intros _.
      apply not_true_iff_false in Hall.
      destruct (decide (Exists (λ k, k ≠ "default") (JS.keys functions)))
        as [Hex|Hnex].
      * apply Exists_exists in Hex as (k & Hin & Hk). eauto.
      * exfalso. apply Hall. apply forallb_forall. intros k Hin.
        apply String.eqb_eq.
        destruct (decide (k = "default")) as [->|Hk]; [done|].
        exfalso. apply Hnex. apply Exists_exists. exists k.
        split; [by apply list_elem_of_In|done].
    + intros Hd. exfalso. apply not_true_iff_false in Hall. apply Hall.
      apply forallb_forall. intros k Hin. apply String.eqb_eq.
      symmetry. apply Hd. by apply list_elem_of_In.
Qed.

(** The function template of [LegacyExamples.unreadable] is missing; the
    manifest has two functions. *)
Lemma deploy_functions_missing_template_witness :
  (Legacy.DeployFunctions LegacyExamples.parseText "/"
     LegacyExamples.unreadable LegacyExamples.accepting "stack"
     LegacyExamples.twoFunctions "bucket"
   = Legacy.Refused (Legacy.Thrown "TypeError")
   ↔ ∃ k, k ∈ JS.keys LegacyExamples.twoFunctions ∧ k ≠ "default").
Proof.
  apply (deploy_functions_missing_template LegacyExamples.parseText "/"
           LegacyExamples.unreadable LegacyExamples.accepting "stack"
           LegacyExamples.twoFunctions "bucket").
  reflexivity.
Defined.

(** The loop of [DeployFunctions] overwrites the three template texts with
    their filled-in versions.  When the first function has used up the
    placeholders (each occurs once, say), the later functions find none:
    every function gets the fragments of the first one - its handler, S3
    key and timeout, and the version and output made for its name. *)
Theorem deploy_functions_reuse_first_fill {J O : Type}
    (parse : string → option J) (sep : string)
    (templates : Legacy.Loop J) (cf : Legacy.StackService J O)
    (stackName k1 : string) (f1 : Legacy.LegacyFunction)
    (rest : list (string * option Legacy.LegacyFunction))
    (bucketName fc vc oc : string) (unit ver out : J) :
  Legacy.cfFunctionContent templates = Some fc →
  Legacy.cfFunctionVersionContent templates = Some vc →
  Legacy.cfFunctionArnOutputContent templates = Some oc →
  k1 ≠ "default" →
  JS.indexOf (Legacy.fillFunction fc f1 (Legacy.funcNameOf sep k1))
    "$HANDLER" = -1 →
  JS.indexOf (Legacy.fillFunction fc f1 (Legacy.funcNameOf sep k1))
    "$S3KEY" = -1 →
  JS.indexOf (Legacy.fillFunction fc f1 (Legacy.funcNameOf sep k1))
    "$TIMEOUT" = -1 →
  JS.indexOf (Legacy.fillName vc (Legacy.funcNameOf sep k1))
    "$FUNCTION_NAME" = -1 →
  JS.indexOf (Legacy.fillName oc (Legacy.funcNameOf sep k1))
    "$FUNCTION_NAME" = -1 →
  parse (Legacy.fillFunction fc f1 (Legacy.funcNameOf sep k1)) = Some unit →
  parse (Legacy.fillName vc (Legacy.funcNameOf sep k1)) = Some ver →
  parse (Legacy.fillName oc (Legacy.funcNameOf sep k1)) = Some out →
  Forall (λ p, is_Some (snd p)) rest →
  ∃ template,
    Legacy.DeployFunctions parse sep templates cf stackName
      ((k1, Some f1) :: rest) bucketName
    = Legacy.sendAndWait cf stackName template
        (λ outputs, {| Legacy.cfTemplate := template;
                       Legacy.bucketName := bucketName;
                       Legacy.outputs := outputs |})
    ∧ (∀ n x, Legacy.Resources template !! n = Some x →
         Legacy.Resources (Legacy.cfBaseContentJSON templates) !! n = Some x
         ∨ x = unit ∨ x = ver)
    ∧ (∀ k, k ∈ k1 :: JS.keys rest → k ≠ "default" →
         Legacy.Outputs template !! Legacy.funcNameOf sep k = Some out).
Proof.
  intros Hfc Hvc Hoc Hk1 H1 H2 H3 H4 H5 Hu Hv Ho Hrest.
  unfold Legacy.DeployFunctions, JS.keys. cbn [map fst Legacy.deployLoop].
  unfold Legacy.deployFunction at 1. rewrite decide_False by done.
  cbn [JS.prop]. rewrite String.eqb_refl. cbn [mjoin option_join].
  rewrite Hfc, Hu, Hvc, Hv, Hoc, Ho.
  match goal with
  | |- context [Legacy.deployLoop _ _ _ ?st1 _] =>
      destruct (deployLoop_steady parse sep ((k1, Some f1) :: rest)
                  (map fst rest) st1 _ _ _ unit ver out
                  eq_refl eq_refl eq_refl H1 H2 H3 H4 H5 Hu Hv Ho)
        as (st' & Hl & Hr & Hm & Ho')
  end.
  { intros k Hin _.
    apply (prop_nonnull ((k1, Some f1) :: rest)).
    - constructor; [by eexists|done].
    - unfold JS.keys. cbn [map fst]. by right. }
  rewrite Hl.
  cbn [Legacy.cfBaseContentJSON Legacy.Resources Legacy.Outputs] in *.
  exists (Legacy.cfBaseContentJSON st'). split; [done|]. split.
  - intros n x Hx. destruct (Hr n x Hx) as [Hb|Hb]; [|by right].
    apply lookup_insert_Some in Hb as [[_ <-]|[_ Hb]]; [auto|].
    apply lookup_insert_Some in Hb as [[_ <-]|[_ Hb]]; auto.
  - intros k Hin Hk. apply elem_of_cons in Hin as [->|Hin].
    + apply Hm. by rewrite lookup_insert_eq.
    + by apply Ho'.
Qed.

(** The two functions of [LegacyExamples.twoFunctions] have handlers
    [index.handle] and [worker.run]; both get the unit of the first. *)
Lemma deploy_functions_reuse_first_fill_witness :
  ∃ template,
    Legacy.DeployFunctions LegacyExamples.parseText "/"
      LegacyExamples.templates LegacyExamples.accepting "stack"
      LegacyExamples.twoFunctions "bucket"
    = Legacy.sendAndWait LegacyExamples.accepting "stack" template
        (λ outputs, {| Legacy.cfTemplate := template;
                       Legacy.bucketName := "bucket";
                       Legacy.outputs := outputs |})
    ∧ (∀ n x, Legacy.Resources template !! n = Some x →
         Legacy.Resources LegacyExamples.emptyTemplate !! n = Some x
         ∨ x = "{Handler:index.handle,S3Key:apiindex-0.0.2.zip,Timeout:3}"
         ∨ x = "{FunctionName:{Ref:apiindex}}")
    ∧ (∀ k, k ∈ ["api/index"; "worker"] → k ≠ "default" →
         Legacy.Outputs template !! Legacy.funcNameOf "/" k
         = Some "{Value:{GetAtt:[apiindex,Arn]}}").
Proof.
  apply (deploy_functions_reuse_first_fill LegacyExamples.parseText "/"
           LegacyExamples.templates LegacyExamples.accepting "stack"
           "api/index" LegacyExamples.apiIndex
           [("worker", Some LegacyExamples.worker)] "bucket"
           "{Handler:$HANDLER,S3Key:$S3KEY,Timeout:$TIMEOUT}"
           "{FunctionName:{Ref:$FUNCTION_NAME}}"
           "{Value:{GetAtt:[$FUNCTION_NAME,Arn]}}").
  - reflexivity.
  - reflexivity.
  - reflexivity.
  - discriminate.
  - vm_compute. reflexivity.
  - vm_compute. reflexivity.
  - vm_compute. reflexivity.
  - vm_compute. reflexivity.
  - vm_compute. reflexivity.
  - vm_compute. reflexivity.
  - vm_compute. reflexivity.
  - vm_compute. reflexivity.
  - repeat constructor. by eexists.
Defined.

(** What an outcome of [updateAPIs] tells.  Fulfilled: the template it
    returns is the one sent and accepted, the given one with [NFXApi]
    replaced by the parsed REST API resource for the key [api-0.0.2.yaml]
    and nothing else changed.  A rejection carries the message of the
    error of the request, the error of the wait itself, a [TypeError] when
    the resource template cannot be read or a [SyntaxError] when its text
    does not parse. *)
Theorem update_apis_outcome {J O : Type} (parse : string → option J)
    (cfRestAPIContent : option string) (cf : Legacy.StackService J O)
    (stackName : string) (cfTemplate : Legacy.Template J) :
  let outcome :=
    Legacy.updateAPIs parse cfRestAPIContent cf stackName cfTemplate in
  (∀ sent, outcome = Legacy.Fulfilled sent →
     Legacy.updateStackReply cf stackName sent = None
     ∧ (∃ outputs, Legacy.waitForReply cf stackName = inr outputs)
     ∧ Legacy.Outputs sent = Legacy.Outputs cfTemplate
     ∧ (∀ n, n ≠ "NFXApi" →
          Legacy.Resources sent !! n = Legacy.Resources cfTemplate !! n)
     ∧ ∃ text api,
         cfRestAPIContent = Some text
         ∧ parse (Legacy.replace text "$S3KEY" "api-0.0.2.yaml") = Some api
         ∧ Legacy.Resources sent !! "NFXApi" = Some api)
  ∧ (∀ m, outcome = Legacy.Refused (Legacy.Message m) →
       ∃ sent err, Legacy.updateStackReply cf stackName sent = Some err
                   ∧ m = message err)
  ∧ (∀ e, outcome = Legacy.Refused (Legacy.ErrorObject e) →
       Legacy.waitForReply cf stackName = inl e)
  ∧ (∀ kind, outcome = Legacy.Refused (Legacy.Thrown kind) →
       (cfRestAPIContent = None ∧ kind = "TypeError")
       ∨ (∃ text, cfRestAPIContent = Some text
                  ∧ parse (Legacy.replace text "$S3KEY" "api-0.0.2.yaml") = None
                  ∧ kind = "SyntaxError")).
Proof.
  intros outcome. subst outcome. unfold Legacy.updateAPIs.
  destruct cfRestAPIContent as [text|].
  2:{ split; [done|]. split; [done|]. split; [done|].
      intros kind [= <-]. by left. }
  change ("api-" +:+ Legacy.version +:+ ".yaml") with "api-0.0.2.yaml".
  destruct (parse (Legacy.replace text "$S3KEY" "api-0.0.2.yaml"))
    as [api|] eqn:Hparse.
  2:{ split; [done|]. split; [done|]. split; [done|].
      intros kind [= <-]. right. by exists text. }
  match goal with
  | |- context [Legacy.sendAndWait cf stackName ?t ?v] =>
      destruct (sendAndWait_outcome (O:=O) cf stackName t v)
        as (Hf & Hm & He & Ht)
  end.
  split; [|split; [|split]].
  - intros sent Hs. destruct (Hf sent Hs) as (Hreq & outputs & Hwait & ->).
    cbn [Legacy.Resources Legacy.Outputs].
    split; [done|]. split; [by exists outputs|]. split; [done|].
    split; [by intros n Hn; rewrite lookup_insert_ne|].
    exists text, api. by rewrite lookup_insert_eq.
  - intros m H. destruct (Hm m H) as (err & Herr & ->). eauto.
  - intros e H. by destruct (He e H).
  - intros kind H. by destruct (Ht kind).
Qed.

(** What an outcome of [deployAPIs] tells.  Fulfilled: the object it
    returns is the given one with [NFXDeployment] replaced by the parsed
    deployment resource for the stage [staging] and nothing else changed,
    and its template is the one sent and accepted.  A rejection carries
    the message of the error of the request, the error of the wait itself,
    a [TypeError] when the deployment template cannot be read or a
    [SyntaxError] when its text does not parse. *)
Theorem deploy_apis_outcome {J O : Type} (parse : string → option J)
    (cfDeploymentContent : option string) (nfx : Legacy.NFX J O) :
  let cf := Legacy.nfxCf nfx in
  let stackName := Legacy.nfxStackName nfx in
  let outcome := Legacy.deployAPIs parse cfDeploymentContent nfx in
  (∀ nfx', outcome = Legacy.Fulfilled nfx' →
     Legacy.updateStackReply cf stackName (Legacy.nfxTemplate nfx') = None
     ∧ (∃ outputs, Legacy.waitForReply cf stackName = inr outputs)
     ∧ Legacy.nfxStackName nfx' = stackName
     ∧ Legacy.nfxCf nfx' = cf
     ∧ Legacy.Outputs (Legacy.nfxTemplate nfx')
       = Legacy.Outputs (Legacy.nfxTemplate nfx)
     ∧ (∀ n, n ≠ "NFXDeployment" →
          Legacy.Resources (Legacy.nfxTemplate nfx') !! n
          = Legacy.Resources (Legacy.nfxTemplate nfx) !! n)
     ∧ ∃ text deployment,
         cfDeploymentContent = Some text
         ∧ parse (Legacy.replace text "$STAGE_NAME" "staging")
           = Some deployment
         ∧ Legacy.Resources (Legacy.nfxTemplate nfx') !! "NFXDeployment"
           = Some deployment)
  ∧ (∀ m, outcome = Legacy.Refused (Legacy.Message m) →
       ∃ sent err, Legacy.updateStackReply cf stackName sent = Some err
                   ∧ m = message err)
  ∧ (∀ e, outcome = Legacy.Refused (Legacy.ErrorObject e) →
       Legacy.waitForReply cf stackName = inl e)
  ∧ (∀ kind, outcome = Legacy.Refused (Legacy.Thrown kind) →
       (cfDeploymentContent = None ∧ kind = "TypeError")
       ∨ (∃ text, cfDeploymentContent = Some text
                  ∧ parse (Legacy.replace text "$STAGE_NAME" "staging") = None
                  ∧ kind = "SyntaxError")).
Proof.
  intros cf stackName outcome. subst outcome. unfold Legacy.deployAPIs.
  destruct cfDeploymentContent as [text|].
  2:{ split; [done|]. split; [done|]. split; [done|].
      intros kind [= <-]. by left. }
  destruct (parse (Legacy.replace text "$STAGE_NAME" "staging"))
    as [deployment|] eqn:Hparse.
  2:{ split; [done|]. split; [done|]. split; [done|].
      intros kind [= <-]. right. by exists text. }
  cbn [Legacy.nfxCf Legacy.nfxStackName Legacy.nfxTemplate].
  fold cf. fold stackName.
  match goal with
  | |- context [Legacy.sendAndWait cf stackName ?t ?v] =>
      destruct (sendAndWait_outcome (O:=O) cf stackName t v)
        as (Hf & Hm & He & Ht)
  end.
  split; [|split; [|split]].
  - intros nfx' Hs. destruct (Hf nfx' Hs) as (Hreq & outputs & Hwait & ->).
    cbn [Legacy.nfxCf Legacy.nfxStackName Legacy.nfxTemplate
         Legacy.Resources Legacy.Outputs].
    split; [done|]. split; [by exists outputs|]. split; [done|].
    split; [done|]. split; [done|].
    split; [by intros n Hn; rewrite lookup_insert_ne|].
    exists text, deployment. by rewrite lookup_insert_eq.
  - intros m H. destruct (Hm m H) as (err & Herr & ->). eauto.
  - intros e H. by destruct (He e H).
  - intros kind H. by destruct (Ht kind).
Qed.

(** * The framework: responses *)

Section ResponseFacts.

Context {H : Type}.
Variable toNode : gmap string (option (list string)) → H.

Import Framework.

Lemma lower_ascii_idem (c : ascii) :
  lower_ascii (lower_ascii c) = lower_ascii c.
Proof. by destruct c as [[] [] [] [] [] [] [] []]. Qed.

Lemma toLowerCase_idem (s : string) :
  toLowerCase (toLowerCase s) = toLowerCase s.
Proof.
  induction s as [|c s IH]; [done|].
  cbn [toLowerCase]. by rewrite lower_ascii_idem, IH.
Qed.

Lemma toLowerCase_nonempty (s : string) :
  s ≠ EmptyString → toLowerCase s ≠ EmptyString.
Proof. by destruct s. Qed.

Lemma get_eq (r : Response H) (field : string) :
  field ≠ EmptyString →
  get field r
  = (r, Normal match __headers r !! toLowerCase field with
               | Some (Some [value]) => Single value
               | Some (Some values) => Many values
               | _ => Null
               end).
Proof.
  intros Hf. unfold get. rewrite decide_False by done.
  unfold mbind, M_bind, gets. cbn beta iota.
  by destruct (__headers r !! toLowerCase field) as [[[|v [|]]|]|].
Qed.

Lemma setScalar_eq (r : Response H) (field text : string) :
  field ≠ EmptyString →
  setScalar field text r
  = (withHeaders (<[toLowerCase field := Some [trim text]]> (__headers r)) r,
     Normal ()).
Proof. intros Hf. unfold setScalar. by rewrite decide_False. Qed.

Lemma valuesOf_lower (r : Response H) (field : string) :
  valuesOf r (toLowerCase field) = valuesOf r field.
Proof. unfold valuesOf. by rewrite toLowerCase_idem. Qed.

Lemma valuesOf_insert (r : Response H) (h : gmap string (option (list string)))
    (field : string) (values : list string) :
  valuesOf (withHeaders (<[toLowerCase field := Some values]> h) r) field
  = values.
Proof.
  unfold valuesOf. cbn [__headers withHeaders]. by rewrite lookup_insert_eq.
Qed.

Lemma appendScalar_eq (r : Response H) (field text : string) :
  field ≠ EmptyString →
  appendScalar field text r
  = (withHeaders (<[toLowerCase field
                    := Some (valuesOf r field ++ [trim text])%list]>
                    (__headers r)) r,
     Normal ()).
Proof.
  intros Hf. unfold appendScalar, valuesOf. rewrite decide_False by done.
  unfold mbind, M_bind, gets. cbn beta iota.
  destruct (__headers r !! toLowerCase field) as [[values|]|]; [done|..];
    rewrite setScalar_eq by (by apply toLowerCase_nonempty);
    by rewrite toLowerCase_idem.
Qed.

Lemma forEach_cons {A : Type} (f : A → M H unit) (x : A) (l : list A) :
  forEach f (x :: l) = (f x;; forEach f l).
Proof. reflexivity. Qed.

Lemma forEach_appendScalar (r : Response H) (field text : string)
    (items : list string) :
  field ≠ EmptyString →
  forEach (appendScalar field) (text :: items) r
  = (withHeaders (<[toLowerCase field
                    := Some (valuesOf r field ++ map trim (text :: items))%list]>
                    (__headers r)) r,
     Normal ()).
Proof.
  intros Hf. revert r text. induction items as [|x items IH]; intros r text.
  - cbn [forEach]. unfold mbind, M_bind. rewrite appendScalar_eq by done.
    reflexivity.
  - rewrite (forEach_cons _ text). unfold mbind at 1. unfold M_bind.
    rewrite appendScalar_eq by done.
    rewrite IH. rewrite valuesOf_insert.
    cbn [withHeaders __headers reqMethod hasDone __statusCode __finished
         __body doneCalls].
    rewrite insert_insert_eq. rewrite <- app_assoc. reflexivity.
Qed.

Lemma set_eq (r : Response H) (field : string) (value : Value) :
  field ≠ EmptyString →
  set field value r
  = (withHeaders (<[toLowerCase field := Some (map trim (itemsOf value))]>
                    (__headers r)) r,
     Normal ()).
Proof.
  intros Hf. destruct value as [text|items]; cbn [set itemsOf].
  { by apply setScalar_eq. }
  rewrite decide_False by done. unfold mbind, M_bind, assignHeader, modify.
  destruct items as [|x items]; [done|].
  rewrite forEach_appendScalar by (by apply toLowerCase_nonempty).
  cbn beta. rewrite valuesOf_lower, toLowerCase_idem, valuesOf_insert.
  cbn [withHeaders __headers reqMethod hasDone __statusCode __finished
       __body doneCalls].
  by rewrite insert_insert_eq.
Qed.

Lemma append_eq (r : Response H) (field : string) (value : Value) :
  field ≠ EmptyString →
  append field value r
  = (match itemsOf value with
     | [] => r
     | items =>
         withHeaders (<[toLowerCase field
                        := Some (valuesOf r field ++ map trim items)%list]>
                        (__headers r)) r
     end,
     Normal ()).
Proof.
  intros Hf. destruct value as [text|items]; cbn [append itemsOf].
  { by apply appendScalar_eq. }
  rewrite decide_False by done.
  destruct items as [|x items]; [done|].
  rewrite forEach_appendScalar by (by apply toLowerCase_nonempty).
  by rewrite toLowerCase_idem, valuesOf_lower.
Qed.

Lemma removeHeader_eq (r : Response H) (field : string) :
  field ≠ EmptyString →
  removeHeader field r
  = (match __headers r !! toLowerCase field with
     | Some (Some _) =>
         withHeaders (<[toLowerCase field := None]> (__headers r)) r
     | _ => r
     end,
     Normal ()).
Proof.
  intros Hf. unfold removeHeader. rewrite decide_False by done.
  unfold mbind, M_bind, gets. cbn beta iota.
  by destruct (__headers r !! toLowerCase field) as [[values|]|].
Qed.



Lemma withHeaders_id (r : Response H) : withHeaders (__headers r) r = r.
Proof. by destruct r. Qed.

Lemma type_eq (r : Response H) (name : string) :
  name ≠ EmptyString →
  type name r
  = (withHeaders (<["content-type" := Some [trim (mimeOf name)]]> (__headers r))
       r,
     Normal ()).
Proof.
  intros Hn. unfold type. rewrite decide_False by done.
  by rewrite set_eq.
Qed.

Lemma defaultType_eq (r : Response H) (name : string) :
  name ≠ EmptyString →
  defaultType name r
  = (if hasContentType r then r
     else withHeaders (<["content-type" := Some [trim (mimeOf name)]]>
                         (__headers r)) r,
     Normal ()).
Proof.
  intros Hn. unfold defaultType, hasContentType, mbind, M_bind.
  rewrite get_eq by done. cbn beta iota.
  destruct (truthy _); [done|]. by apply type_eq.
Qed.

Lemma end_eq (r : Response H) (data : option string) :
  let r1 := match data with
            | Some chunk => withBody (__body r +:+ chunk) r
            | None => r
            end in
  end_ toNode data r
  = if __finished r then (r1, Throw (Error "Response is already ended"))
    else if hasDone r
         then (finish
                 {| statusCode := getStatusCode r;
                    headers := toNode (__headers r);
                    body :=
                      if (bool_decide (reqMethod r = Some "HEAD")
                          || bool_decide (__statusCode r = Some 204))%bool
                      then EmptyString else __body r1 |} r1,
               Normal true)
         else (r1, Normal false).
Proof.
  intros r1. subst r1. unfold end_, write, mbind, M_bind, gets, modify, throw.
  destruct data as [chunk|]; cbn;
    destruct (__finished r); [done| |done|];
    by destruct (hasDone r).
Qed.

Lemma withBody_id (r : Response H) : withBody (__body r) r = r.
Proof. by destruct r. Qed.

(** The methods that work on the headers leave the rest of the response as
    it is, also when they throw. *)
Lemma set_fst (r : Response H) (field : string) (value : Value) :
  ∃ h, fst (set field value r) = withHeaders h r.
Proof.
  destruct (decide (field = EmptyString)) as [->|Hf].
  - exists (__headers r). rewrite withHeaders_id. by destruct value.
  - rewrite set_eq by done. eauto.
Qed.

Lemma append_fst (r : Response H) (field : string) (value : Value) :
  ∃ h, fst (append field value r) = withHeaders h r.
Proof.
  destruct (decide (field = EmptyString)) as [->|Hf].
  - exists (__headers r). rewrite withHeaders_id. by destruct value.
  - rewrite append_eq by done. cbn [fst].
    destruct (itemsOf value); [|eauto].
    exists (__headers r). by rewrite withHeaders_id.
Qed.

Lemma removeHeader_fst (r : Response H) (field : string) :
  ∃ h, fst (removeHeader field r) = withHeaders h r.
Proof.
  destruct (decide (field = EmptyString)) as [->|Hf].
  - exists (__headers r). by rewrite withHeaders_id.
  - rewrite removeHeader_eq by done. cbn [fst].
    destruct (__headers r !! toLowerCase field) as [[values|]|]; [eauto|..];
      exists (__headers r); by rewrite withHeaders_id.
Qed.

Lemma type_fst (r : Response H) (name : string) :
  ∃ h, fst (type name r) = withHeaders h r.
Proof.
  destruct (decide (name = EmptyString)) as [->|Hf].
  - exists (__headers r). by rewrite withHeaders_id.
  - rewrite type_eq by done. eauto.
Qed.

(** [send] and [json], step by step. *)
Lemma typed_end (r : Response H) (name text : string) :
  name ≠ EmptyString →
  ((defaultType name;; modify (withBody text));; end_ toNode None;; mret ()) r
  = let sent :=
      if hasContentType r then __headers r
      else <["content-type" := Some [trim (mimeOf name)]]> (__headers r) in
    let r1 := withBody text (withHeaders sent r) in
    if __finished r then (r1, Throw (Error "Response is already ended"))
    else if hasDone r
         then (finish
                 {| statusCode := getStatusCode r;
                    headers := toNode sent;
                    body :=
                      if (bool_decide (reqMethod r = Some "HEAD")
                          || bool_decide (__statusCode r = Some 204))%bool
                      then EmptyString else text |} r1,
               Normal ())
         else (r1, Normal ()).
Proof.
  intros Hn. unfold mbind, M_bind, modify, mret, M_ret.
  rewrite defaultType_eq by done. cbn beta iota zeta.
  rewrite end_eq. cbn zeta.
  destruct (hasContentType r).
  - rewrite withHeaders_id. cbn.
    destruct (__finished r); [done|]. by destruct (hasDone r).
  - cbn. destruct (__finished r); [done|]. by destruct (hasDone r).
Qed.

Lemma plain_end (r : Response H) :
  (mret ();; end_ toNode None;; mret ()) r
  = if __finished r then (r, Throw (Error "Response is already ended"))
    else if hasDone r
         then (finish
                 {| statusCode := getStatusCode r;
                    headers := toNode (__headers r);
                    body :=
                      if (bool_decide (reqMethod r = Some "HEAD")
                          || bool_decide (__statusCode r = Some 204))%bool
                      then EmptyString else __body r |} r,
               Normal ())
         else (r, Normal ()).
Proof.
  unfold mbind, M_bind, mret, M_ret. rewrite end_eq. cbn zeta.
  destruct (__finished r); [done|]. by destruct (hasDone r).
Qed.

Lemma send_eq (r : Response H) (body : Body) :
  let mime :=
    match body with
    | Str _ => Some "text/html; charset=utf-8"
    | Buffer _ => Some "application/octet-stream"
    | Json _ => Some "application/json; charset=utf-8"
    | _ => None
    end in
  let sent :=
    match mime with
    | Some m =>
        if hasContentType r then __headers r
        else <["content-type" := Some [m]]> (__headers r)
    | None => __headers r
    end in
  let text :=
    match body with
    | Str t | Buffer t | Json t => t
    | _ => __body r
    end in
  let stored := withBody text (withHeaders sent r) in
  send toNode body r
  = match body with
    | Unsupported => (r, Throw (TypeError "Unsupported type for 'body'"))
    | _ =>
        if __finished r
        then (stored, Throw (Error "Response is already ended"))
        else if hasDone r
             then (finish
                     {| statusCode := getStatusCode r;
                        headers := toNode sent;
                        body :=
                          if (bool_decide (reqMethod r = Some "HEAD")
                              || bool_decide (__statusCode r = Some 204))%bool
                          then EmptyString else text |} stored,
                   Normal ())
             else (stored, Normal ())
    end.
Proof.
  intros mime sent text stored. subst mime sent text stored.
  destruct body as [t| |t|t| |]; unfold send.
  - by rewrite (typed_end r "html" t).
  - rewrite plain_end. by rewrite withHeaders_id, withBody_id.
  - by rewrite (typed_end r "bin" t).
  - by rewrite (typed_end r "json" t).
  - rewrite plain_end. by rewrite withHeaders_id, withBody_id.
  - reflexivity.
Qed.

Lemma hasContentType_eq (r : Response H) :
  hasContentType r
  = truthy match __headers r !! "content-type" with
           | Some (Some [value]) => Single value
           | Some (Some values) => Many values
           | _ => Null
           end.
Proof. unfold hasContentType. by rewrite get_eq. Qed.

Lemma hasContentType_withStatusCode (r : Response H) (code : Z) :
  hasContentType (withStatusCode code r) = hasContentType r.
Proof. by rewrite !hasContentType_eq. Qed.

Lemma json_send (r : Response H) (stringified : string) :
  json toNode stringified r = send toNode (Json stringified) r.
Proof.
  unfold json, send, mbind, M_bind.
  by destruct (defaultType "json" r) as [r1 [[]|e]].
Qed.

End ResponseFacts.





(** What [send] does.  A value of an unsupported type throws and nothing
    else happens.  Otherwise the body is stored - [null] and [undefined]
    keep the one written so far - and a string, a [Buffer] or a JSON value
    sets the content type for its kind unless [Content-Type] holds a value
    already (an empty array counts as one, an empty string does not).
    Then the response is ended: an ended response throws; else [done] is
    called with the status code, 200 if none was set, the headers and the
    body, which is empty for a [HEAD] request or status 204; without a
    [done] callback nothing is sent and the response stays open. *)
Theorem send_reply {H : Type} (toNode : gmap string (option (list string)) → H)
    (r : Framework.Response H) (body : Framework.Body) :
  let mime :=
    match body with
    | Framework.Str _ => Some "text/html; charset=utf-8"
    | Framework.Buffer _ => Some "application/octet-stream"
    | Framework.Json _ => Some "application/json; charset=utf-8"
    | _ => None
    end in
  let sent :=
    match mime with
    | Some m =>
        if Framework.hasContentType r then Framework.__headers r
        else <["content-type" := Some [m]]> (Framework.__headers r)
    | None => Framework.__headers r
    end in
  let text :=
    match body with
    | Framework.Str t | Framework.Buffer t | Framework.Json t => t
    | _ => Framework.__body r
    end in
  let stored := Framework.withBody text (Framework.withHeaders sent r) in
  Framework.send toNode body r
  = match body with
    | Framework.Unsupported =>
        (r, Framework.Throw (Framework.TypeError "Unsupported type for 'body'"))
    | _ =>
        if Framework.__finished r
        then (stored,
              Framework.Throw (Framework.Error "Response is already ended"))
        else if Framework.hasDone r
             then (Framework.finish
                     {| Framework.statusCode := Framework.getStatusCode r;
                        Framework.headers := toNode sent;
                        Framework.body :=
                          if (bool_decide (Framework.reqMethod r = Some "HEAD")
                              || bool_decide
                                   (Framework.__statusCode r = Some 204))%bool
                          then EmptyString else text |} stored,
                   Framework.Normal ())
             else (stored, Framework.Normal ())
    end.
Proof. apply send_eq. Qed.

Section ReplyFacts.

Context {H : Type}.
Variable toNode : gmap string (option (list string)) → H.

(** A call leaves an ended response ended and its replies as they are; on
    an open one it adds at most one reply, and only by ending it. *)
Lemma perform_step (c : Framework.Call) (r : Framework.Response H) :
  let r' := Framework.perform toNode c r in
  (Framework.__finished r = true →
   Framework.__finished r' = true
   ∧ Framework.doneCalls r' = Framework.doneCalls r)
  ∧ (Framework.__finished r = false →
     (Framework.__finished r' = false
      ∧ Framework.doneCalls r' = Framework.doneCalls r)
     ∨ (Framework.__finished r' = true
        ∧ ∃ reply,
            Framework.doneCalls r' = (Framework.doneCalls r ++ [reply])%list)).
Proof.
  intros r'. subst r'. destruct c as [code|field value|field value|field|t
                                     |chunk|data|body|stringified];
    cbn [Framework.perform].
  - split; intros Hfin; [|left]; done.
  - destruct (set_fst r field value) as [h ->].
    split; intros Hfin; [|left]; done.
  - destruct (append_fst r field value) as [h ->].
    split; intros Hfin; [|left]; done.
  - destruct (removeHeader_fst r field) as [h ->].
    split; intros Hfin; [|left]; done.
  - destruct (type_fst r t) as [h ->].
    split; intros Hfin; [|left]; done.
  - split; intros Hfin; [|left]; done.
  - rewrite end_eq. cbn zeta.
    split; intros Hfin; rewrite Hfin.
    + by destruct data.
    + destruct (Framework.hasDone r); [right|left].
      * split; [done|]. destruct data; cbn; eauto.
      * by destruct data.
  - rewrite send_eq.
    split; intros Hfin.
    + by destruct body; rewrite ?Hfin.
    + destruct body; rewrite ?Hfin; try (by left);
        (destruct (Framework.hasDone r); [right|left]; [|done]);
        (split; [done|]); cbn; eauto.
  - rewrite json_send, send_eq.
    split; intros Hfin; rewrite Hfin; [done|].
    destruct (Framework.hasDone r); [right|left]; [|done].
    split; [done|]. cbn. eauto.
Qed.

Lemma perform_ended (calls : list Framework.Call) (r : Framework.Response H) :
  Framework.__finished r = true →
  let r' := foldl (λ r c, Framework.perform toNode c r) r calls in
  Framework.__finished r' = true
  ∧ Framework.doneCalls r' = Framework.doneCalls r.
Proof.
  revert r. induction calls as [|c calls IH]; intros r Hfin; [done|].
  cbn [foldl]. destruct (proj1 (perform_step c r) Hfin) as [Hf Hd].
  destruct (IH _ Hf) as [Hf' Hd']. split; [done|]. by rewrite Hd', Hd.
Qed.

Lemma perform_invariant (calls : list Framework.Call)
    (r : Framework.Response H) :
  (if Framework.__finished r then length (Framework.doneCalls r) = 1%nat
   else Framework.doneCalls r = []) →
  let r' := foldl (λ r c, Framework.perform toNode c r) r calls in
  if Framework.__finished r' then length (Framework.doneCalls r') = 1%nat
  else Framework.doneCalls r' = [].
Proof.
  revert r. induction calls as [|c calls IH]; intros r Hinv; [done|].
  cbn [foldl]. apply IH.
  destruct (Framework.__finished r) eqn:Hfin.
  - destruct (proj1 (perform_step c r) Hfin) as [-> ->]. done.
  - destruct (proj2 (perform_step c r) Hfin) as [[-> ->]|[-> [reply ->]]];
      [done|]. by rewrite Hinv.
Qed.

End ReplyFacts.

(** Whatever methods are called on a new response, and in whatever order,
    [done] is called at most once; the response is ended exactly when it
    has been called; and from then on no call adds or changes a reply. *)
Theorem reply_sent_at_most_once {H : Type}
    (toNode : gmap string (option (list string)) → H)
    (reqMethod : option string) (hasDone : bool)
    (calls more : list Framework.Call) :
  let r := foldl (λ r c, Framework.perform toNode c r)
             (Framework.create reqMethod hasDone) calls in
  let r' := foldl (λ r c, Framework.perform toNode c r) r more in
  (length (Framework.doneCalls r) ≤ 1)%nat
  ∧ (Framework.__finished r = true
     ↔ length (Framework.doneCalls r) = 1%nat)
  ∧ (Framework.__finished r = true →
     Framework.__finished r' = true
     ∧ Framework.doneCalls r' = Framework.doneCalls r).
Proof.
  intros r r'.
  pose proof (perform_invariant toNode calls
                (Framework.create reqMethod hasDone) eq_refl) as Hinv.
  cbn zeta in Hinv. fold r in Hinv.
  split; [|split].
  - destruct (Framework.__finished r); rewrite Hinv; cbn; lia.
  - destruct (Framework.__finished r); [done|]. by rewrite Hinv.
  - intros Hfin. by apply (perform_ended toNode more r).
Qed.

(** * The framework: the middleware stack *)

Section StackFacts.

Context {H E : Type}.
Variable toNode : gmap string (option (list string)) → H.
Variable describe : E → string.

Lemma invoke_eq (fn : Framework.Middleware H E) (i : nat) (err : option E)
    (st : Framework.Run H E) :
  Framework.invoke fn i err st
  = let err' := if (Framework.fnLength fn <? 4)%nat then None else err in
    let r := Framework.call fn err' (Framework.res st) in
    ({| Framework.res := fst r;
        Framework.logStream := Framework.logStream st;
        Framework.invoked :=
          (Framework.invoked st
           ++ [{| Framework.index := i; Framework.error := err';
                  Framework.outcome := snd r; Framework.after := fst r |}])%list |},
     snd r).
Proof.
  unfold Framework.invoke. cbn zeta.
  by destruct (Framework.call fn _ (Framework.res st)).
Qed.

Lemma defaultErrorHandler_invoked (e : E) (st : Framework.Run H E) :
  Framework.invoked (Framework._defaultErrorHandler toNode describe e st)
  = Framework.invoked st
  ∧ Framework.logStream (Framework._defaultErrorHandler toNode describe e st)
    = (Framework.logStream st ++ [describe e +:+ Framework.newline])%list.
Proof.
  unfold Framework._defaultErrorHandler.
  by destruct (Framework.__finished (Framework.res st)).
Qed.

(** The calls [nextFn] adds: the first is the first fit from where it
    starts, and each one after is the first fit for what the call before
    passed on. *)
Lemma nextFn_links (stack pre : list (Framework.Middleware H E))
    (err : option E) (st : Framework.Run H E) :
  ∃ tr,
    Framework.invoked
      (Framework.nextFn toNode describe stack (length pre) err st)
    = (Framework.invoked st ++ tr)%list
    ∧ match tr with
      | [] => True
      | b :: _ => Framework.firstFit (pre ++ stack) (length pre) err b
      end
    ∧ ∀ n a b, tr !! n = Some a → tr !! S n = Some b →
        ∃ p, Framework.passes (Framework.outcome a) = Some p
             ∧ Framework.firstFit (pre ++ stack) (S (Framework.index a)) p b.
Proof.
  revert pre err st. induction stack as [|fn stack IH]; intros pre err st.
  { exists []. rewrite app_nil_r. split; [|done]. cbn [Framework.nextFn].
    destruct err as [e|]; [|done]. apply defaultErrorHandler_invoked. }
  assert (Hfull : ((pre ++ [fn]) ++ stack = pre ++ fn :: stack)%list).
  { by rewrite <- app_assoc. }
  assert (Hlen : length (pre ++ [fn])%list = S (length pre)).
  { rewrite length_app. cbn. lia. }
  assert (Hfn : (pre ++ fn :: stack)%list !! length pre = Some fn).
  { rewrite lookup_app_r by lia. by rewrite Nat.sub_diag. }
  cbn [Framework.nextFn]. destruct (Framework.passesOver err fn) eqn:Hp.
  - destruct (IH (pre ++ [fn])%list err st) as (tr & Htr & Hhead & Hlinks).
    rewrite Hfull, Hlen in *. exists tr. split; [done|]. split; [|done].
    destruct tr as [|b tr]; [done|].
    destruct Hhead as (fb & Hfb & Hle & Hpo & Herr & Hskip).
    exists fb. split; [done|]. split; [lia|]. split; [done|]. split; [done|].
    intros k fk Hk Hfk. destruct (decide (k = length pre)) as [->|Hne].
    + rewrite Hfn in Hfk. by injection Hfk as <-.
    + apply (Hskip k fk); [lia|done].
  - rewrite invoke_eq. cbn zeta.
    set (err' := if (Framework.fnLength fn <? 4)%nat then None else err).
    destruct (Framework.call fn err' (Framework.res st)) as [r o] eqn:Hcall.
    cbn [fst snd].
    set (a1 := {| Framework.index := length pre; Framework.error := err';
                  Framework.outcome := o; Framework.after := r |}).
    assert (Hfit : Framework.firstFit (pre ++ fn :: stack) (length pre) err a1).
    { exists fn. cbn [Framework.index Framework.error a1].
      split; [done|]. split; [lia|]. split; [done|]. split; [done|].
      intros k fk Hk. lia. }
    set (st' := {| Framework.res := r;
                   Framework.logStream := Framework.logStream st;
                   Framework.invoked := (Framework.invoked st ++ [a1])%list |}).
    assert (Hnext : ∀ e',
              Framework.passes o = Some e' →
              ∃ tr,
                Framework.invoked
                  (Framework.nextFn toNode describe stack (S (length pre)) e' st')
                = (Framework.invoked st ++ tr)%list
                ∧ match tr with
                  | [] => True
                  | b :: _ =>
                      Framework.firstFit (pre ++ fn :: stack) (length pre) err b
                  end
                ∧ ∀ n a b, tr !! n = Some a → tr !! S n = Some b →
                    ∃ p, Framework.passes (Framework.outcome a) = Some p
                         ∧ Framework.firstFit (pre ++ fn :: stack)
                             (S (Framework.index a)) p b).
    { intros e' He'.
      destruct (IH (pre ++ [fn])%list e' st') as (tr & Htr & Hhead & Hlinks).
      rewrite Hfull, Hlen in *. exists (a1 :: tr).
      split; [|split; [done|]].
      - rewrite Htr. cbn [Framework.invoked st']. by rewrite <- app_assoc.
      - intros n a b Ha Hb. destruct n as [|n].
        + injection Ha as <-. destruct tr as [|b' tr]; [done|].
          injection Hb as <-. exists e'. by split.
        + by apply (Hlinks n). }
    destruct o as [|e'|e'].
    + exists [a1]. split; [done|]. split; [done|].
      intros n a b Ha Hb. by destruct n.
    + by apply Hnext.
    + by apply Hnext.
Qed.

(** How [nextFn] ends. *)
Lemma nextFn_end (stack pre : list (Framework.Middleware H E))
    (err : option E) (st : Framework.Run H E) (a0 : Framework.Invocation H E) :
  last (Framework.invoked st) = Some a0 →
  Framework.passes (Framework.outcome a0) = Some err →
  Framework.res st = Framework.after a0 →
  (∀ k fn, (Framework.index a0 < k < length pre)%nat →
           (pre ++ stack)%list !! k = Some fn →
           Framework.passesOver err fn = true) →
  let final := Framework.nextFn toNode describe stack (length pre) err st in
  ∃ a,
    last (Framework.invoked final) = Some a
    ∧ match Framework.passes (Framework.outcome a) with
      | None =>
          Framework.res final = Framework.after a
          ∧ Framework.logStream final = Framework.logStream st
      | Some pending =>
          (∀ k fn, (Framework.index a < k)%nat →
                   (pre ++ stack)%list !! k = Some fn →
                   Framework.passesOver pending fn = true)
          ∧ match pending with
            | None =>
                Framework.res final = Framework.after a
                ∧ Framework.logStream final = Framework.logStream st
            | Some e =>
                Framework.logStream final
                = (Framework.logStream st
                   ++ [describe e +:+ Framework.newline])%list
                ∧ Framework.res final
                  = Framework.res
                      (Framework._defaultErrorHandler toNode describe e
                         {| Framework.res := Framework.after a;
                            Framework.logStream := [];
                            Framework.invoked := [] |})
            end
      end.
Proof.
  revert pre err st a0.
  induction stack as [|fn stack IH]; intros pre err st a0 Hlast Hpass Hres Hskip.
  { cbn zeta. cbn [Framework.nextFn]. exists a0.
    assert (Hall : ∀ k fn, (Framework.index a0 < k)%nat →
                     (pre ++ [])%list !! k = Some fn →
                     Framework.passesOver err fn = true).
    { intros k fn Hk Hfn. apply (Hskip k fn); [|done].
      apply lookup_lt_Some in Hfn. rewrite app_nil_r in Hfn. lia. }
    destruct err as [e|].
    - destruct (defaultErrorHandler_invoked e st) as [-> ->].
      split; [done|]. rewrite Hpass. split; [done|]. split; [done|].
      unfold Framework._defaultErrorHandler. cbn [Framework.res].
      rewrite Hres. by destruct (Framework.__finished (Framework.after a0)).
    - split; [done|]. by rewrite Hpass. }
  assert (Hfull : ((pre ++ [fn]) ++ stack = pre ++ fn :: stack)%list).
  { by rewrite <- app_assoc. }
  assert (Hlen : length (pre ++ [fn])%list = S (length pre)).
  { rewrite length_app. cbn. lia. }
  assert (Hfn : (pre ++ fn :: stack)%list !! length pre = Some fn).
  { rewrite lookup_app_r by lia. by rewrite Nat.sub_diag. }
  cbn zeta. cbn [Framework.nextFn].
  destruct (Framework.passesOver err fn) eqn:Hp.
  - pose proof (IH (pre ++ [fn])%list err st a0 Hlast Hpass Hres) as IH'.
    rewrite Hfull, Hlen in IH'. apply IH'.
    intros k fk Hk Hfk. destruct (decide (k = length pre)) as [->|Hne].
    + rewrite Hfn in Hfk. by injection Hfk as <-.
    + apply (Hskip k fk); [lia|done].
  - rewrite invoke_eq. cbn zeta.
    set (err' := if (Framework.fnLength fn <? 4)%nat then None else err).
    destruct (Framework.call fn err' (Framework.res st)) as [r o] eqn:Hcall.
    cbn [fst snd].
    set (a1 := {| Framework.index := length pre; Framework.error := err';
                  Framework.outcome := o; Framework.after := r |}).
    set (st' := {| Framework.res := r;
                   Framework.logStream := Framework.logStream st;
                   Framework.invoked := (Framework.invoked st ++ [a1])%list |}).
    assert (Hlast' : last (Framework.invoked st') = Some a1).
    { cbn [Framework.invoked st']. by rewrite last_snoc. }
    assert (Hnext : ∀ e', Framework.passes o = Some e' →
              ∃ a,
                last (Framework.invoked
                        (Framework.nextFn toNode describe stack
                           (S (length pre)) e' st')) = Some a
                ∧ match Framework.passes (Framework.outcome a) with
                  | None =>
                      Framework.res
                        (Framework.nextFn toNode describe stack
                           (S (length pre)) e' st') = Framework.after a
                      ∧ Framework.logStream
                          (Framework.nextFn toNode describe stack
                             (S (length pre)) e' st') = Framework.logStream st
                  | Some pending =>
                      (∀ k fn0, (Framework.index a < k)%nat →
                          (pre ++ fn :: stack)%list !! k = Some fn0 →
                          Framework.passesOver pending fn0 = true)
                      ∧ match pending with
                        | None =>
                            Framework.res
                              (Framework.nextFn toNode describe stack
                                 (S (length pre)) e' st') = Framework.after a
                            ∧ Framework.logStream
                                (Framework.nextFn toNode describe stack
                                   (S (length pre)) e' st')
                              = Framework.logStream st
                        | Some e =>
                            Framework.logStream
                              (Framework.nextFn toNode describe stack
                                 (S (length pre)) e' st')
                            = (Framework.logStream st
                               ++ [describe e +:+ Framework.newline])%list
                            ∧ Framework.res
                                (Framework.nextFn toNode describe stack
                                   (S (length pre)) e' st')
                              = Framework.res
                                  (Framework._defaultErrorHandler toNode
                                     describe e
                                     {| Framework.res := Framework.after a;
                                        Framework.logStream := [];
                                        Framework.invoked := [] |})
                        end
                  end).
    { intros e' He'.
      pose proof (IH (pre ++ [fn])%list e' st' a1 Hlast' He' eq_refl) as IH'.
      rewrite Hfull, Hlen in IH'. apply IH'.
      intros k fk Hk. cbn [Framework.index a1] in Hk. lia. }
    destruct o as [|e'|e'].
    + exists a1. split; [done|]. done.
    + by apply Hnext.
    + by apply Hnext.
Qed.

(** The calls of a run: the first function is called first, without an
    error, and each call after is the first fit for what the call before
    passed on. *)
Lemma run_links (stack : list (Framework.Middleware H E))
    (res : Framework.Response H) :
  let calls := Framework.invoked (Framework.run toNode describe stack res) in
  match stack with
  | [] => calls = []
  | _ :: _ => ∃ a, head calls = Some a
                   ∧ Framework.index a = 0%nat ∧ Framework.error a = None
  end
  ∧ ∀ n a b, calls !! n = Some a → calls !! S n = Some b →
      ∃ p, Framework.passes (Framework.outcome a) = Some p
           ∧ Framework.firstFit stack (S (Framework.index a)) p b.
Proof.
  intros calls. subst calls. unfold Framework.run, Framework._run.
  destruct stack as [|fn stack]; [done|].
  rewrite invoke_eq. cbn zeta. cbn [Framework.res Framework.invoked
                                    Framework.logStream app].
  replace (if (Framework.fnLength fn <? 4)%nat then None else None)
    with (@None E) by (by destruct (Framework.fnLength fn <? 4)%nat).
  destruct (Framework.call fn None res) as [r o] eqn:Hcall. cbn [fst snd].
  set (a1 := {| Framework.index := 0%nat; Framework.error := None;
                Framework.outcome := o; Framework.after := r |}).
  set (st' := {| Framework.res := r; Framework.logStream := [];
                 Framework.invoked := [a1] |}).
  assert (Hnext : ∀ e', Framework.passes o = Some e' →
            (∃ a, head (Framework.invoked
                          (Framework.nextFn toNode describe stack 1 e' st'))
                  = Some a
                  ∧ Framework.index a = 0%nat ∧ Framework.error a = None)
            ∧ ∀ n a b,
                Framework.invoked
                  (Framework.nextFn toNode describe stack 1 e' st') !! n
                = Some a →
                Framework.invoked
                  (Framework.nextFn toNode describe stack 1 e' st') !! S n
                = Some b →
                ∃ p, Framework.passes (Framework.outcome a) = Some p
                     ∧ Framework.firstFit (fn :: stack)
                         (S (Framework.index a)) p b).
  { intros e' He'.
    destruct (nextFn_links stack [fn] e' st') as (tr & Htr & Hhead & Hlinks).
    cbn [length app Framework.invoked st'] in Htr, Hhead, Hlinks.
    rewrite Htr. split; [by exists a1|].
    intros n a b Ha Hb. destruct n as [|n].
    - injection Ha as <-. destruct tr as [|b' tr]; [done|].
      injection Hb as <-. exists e'. by split.
    - by apply (Hlinks n). }
  destruct o as [|e'|e'].
  - split; [by exists a1|]. intros n a b Ha Hb. by destruct n.
  - by apply Hnext.
  - by apply Hnext.
Qed.

(** What the default handler makes of the response. *)
Lemma defaultErrorHandler_res (e : E) (st : Framework.Run H E) :
  Framework.res (Framework._defaultErrorHandler toNode describe e st)
  = let r := Framework.res st in
    if Framework.__finished r then r
    else
      let sent :=
        if Framework.hasContentType r then Framework.__headers r
        else <["content-type" := Some ["application/json; charset=utf-8"]]>
               (Framework.__headers r) in
      let stored :=
        Framework.withBody Framework.internalServerError
          (Framework.withHeaders sent (Framework.withStatusCode 500 r)) in
      if Framework.hasDone r
      then Framework.finish
             {| Framework.statusCode := 500;
                Framework.headers := toNode sent;
                Framework.body :=
                  if bool_decide (Framework.reqMethod r = Some "HEAD")
                  then EmptyString else Framework.internalServerError |}
             stored
      else stored.
Proof.
  unfold Framework._defaultErrorHandler. cbn zeta.
  destruct (Framework.__finished (Framework.res st)) eqn:Hfin; [done|].
  cbn [Framework.res]. unfold mbind, Framework.M_bind, Framework.status,
    Framework.modify.
  rewrite send_eq. cbn beta iota zeta.
  change (Framework.__finished (Framework.withStatusCode 500 (Framework.res st)))
    with (Framework.__finished (Framework.res st)).
  rewrite Hfin.
  change (Framework.hasDone (Framework.withStatusCode 500 (Framework.res st)))
    with (Framework.hasDone (Framework.res st)).
  rewrite hasContentType_withStatusCode.
  destruct (Framework.hasDone (Framework.res st)); [|done].
  cbn [fst]. f_equal. f_equal.
  cbn [Framework.reqMethod Framework.withStatusCode Framework.__statusCode].
  by destruct (bool_decide (Framework.reqMethod (Framework.res st) = Some "HEAD")).
Qed.

End StackFacts.


(** In a run every function of the stack is called at most once, and the
    calls follow the order of the stack. *)
Theorem middleware_called_in_order {H E : Type}
    (toNode : gmap string (option (list string)) → H) (describe : E → string)
    (stack : list (Framework.Middleware H E)) (res : Framework.Response H) :
  let calls := Framework.invoked (Framework.run toNode describe stack res) in
  (∀ n m a b, (n < m)%nat → calls !! n = Some a → calls !! m = Some b →
     (Framework.index a < Framework.index b)%nat)
  ∧ (∀ a, a ∈ calls → is_Some (stack !! Framework.index a)).
Proof.
  intros calls.
  destruct (run_links toNode describe stack res) as [Hhead Hlinks].
  fold calls in Hhead, Hlinks.
  assert (Hstep : ∀ n a b, calls !! n = Some a → calls !! S n = Some b →
            (Framework.index a < Framework.index b)%nat
            ∧ is_Some (stack !! Framework.index b)).
  { intros n a b Ha Hb.
    destruct (Hlinks n a b Ha Hb) as (p & _ & fn & Hfn & Hle & _).
    split; [lia|by exists fn]. }
  split.
  - intros n m a b Hnm Ha Hb. revert b Hb.
    induction m as [|m IH]; intros b Hb; [lia|].
    destruct (calls !! m) as [c|] eqn:Hc.
    2:{ apply lookup_ge_None in Hc. apply lookup_lt_Some in Hb. lia. }
    destruct (Hstep m c b Hc Hb) as [Hcb _].
    destruct (decide (n = m)) as [->|Hne].
    + rewrite Ha in Hc. by injection Hc as <-.
    + assert (Framework.index a < Framework.index c)%nat; [|lia].
      apply IH; [lia|done].
  - intros a Ha. apply list_elem_of_lookup in Ha as [n Hn].
    destruct n as [|n].
    + destruct stack as [|fn stack].
      * rewrite Hhead in Hn. done.
      * destruct Hhead as (a' & Ha' & Hi & _).
        rewrite <- head_lookup, Ha' in Hn. injection Hn as <-.
        rewrite Hi. by exists fn.
    + destruct (calls !! n) as [c|] eqn:Hc.
      2:{ apply lookup_ge_None in Hc. apply lookup_lt_Some in Hn. lia. }
      by destruct (Hstep n c a Hc Hn).
Qed.

(** How a run ends.  With an empty stack nothing happens.  Otherwise, when
    the last call returned without [next], or passed on no error, the
    response is as that call left it and nothing is logged.  When it
    passed on an error - thrown, or given to [next] - that no error
    handler further down takes, the error is logged and, unless the
    response is ended already, answered: the status code is 500, the body
    the JSON of [{ error: 'Internal Server Error' }] (empty for a [HEAD]
    request), the content type JSON unless one is set, and [done] is
    called with them - if the response has a [done] callback. *)
Theorem unhandled_error_answers_500 {H E : Type}
    (toNode : gmap string (option (list string)) → H) (describe : E → string)
    (stack : list (Framework.Middleware H E)) (res : Framework.Response H) :
  let final := Framework.run toNode describe stack res in
  match last (Framework.invoked final) with
  | None =>
      stack = [] ∧ Framework.res final = res ∧ Framework.logStream final = []
  | Some a =>
      match Framework.passes (Framework.outcome a) with
      | None =>
          Framework.res final = Framework.after a
          ∧ Framework.logStream final = []
      | Some pending =>
          (∀ k fn, (Framework.index a < k)%nat → stack !! k = Some fn →
                   Framework.passesOver pending fn = true)
          ∧ match pending with
            | None =>
                Framework.res final = Framework.after a
                ∧ Framework.logStream final = []
            | Some e =>
                let r := Framework.after a in
                let sent :=
                  if Framework.hasContentType r then Framework.__headers r
                  else <["content-type"
                         := Some ["application/json; charset=utf-8"]]>
                         (Framework.__headers r) in
                let stored :=
                  Framework.withBody Framework.internalServerError
                    (Framework.withHeaders sent
                       (Framework.withStatusCode 500 r)) in
                Framework.logStream final = [describe e +:+ Framework.newline]
                ∧ Framework.res final
                  = if Framework.__finished r then r
                    else if Framework.hasDone r
                         then Framework.finish
                                {| Framework.statusCode := 500;
                                   Framework.headers := toNode sent;
                                   Framework.body :=
                                     if bool_decide
                                          (Framework.reqMethod r = Some "HEAD")
                                     then EmptyString
                                     else Framework.internalServerError |}
                                stored
                         else stored
            end
      end
  end.
Proof.
  intros final. subst final. unfold Framework.run, Framework._run.
  destruct stack as [|fn stack]; [done|].
  rewrite invoke_eq. cbn zeta. cbn [Framework.res Framework.invoked
                                    Framework.logStream app].
  replace (if (Framework.fnLength fn <? 4)%nat then None else None)
    with (@None E) by (by destruct (Framework.fnLength fn <? 4)%nat).
  destruct (Framework.call fn None res) as [r o] eqn:Hcall. cbn [fst snd].
  set (a1 := {| Framework.index := 0%nat; Framework.error := None;
                Framework.outcome := o; Framework.after := r |}).
  set (st' := {| Framework.res := r; Framework.logStream := [];
                 Framework.invoked := [a1] |}).
  assert (Hnext : ∀ e', Framework.passes o = Some e' →
            let final := Framework.nextFn toNode describe stack 1 e' st' in
            match last (Framework.invoked final) with
            | None =>
                fn :: stack = [] ∧ Framework.res final = res
                ∧ Framework.logStream final = []
            | Some a =>
                match Framework.passes (Framework.outcome a) with
                | None =>
                    Framework.res final = Framework.after a
                    ∧ Framework.logStream final = []
                | Some pending =>
                    (∀ k fn0, (Framework.index a < k)%nat →
                       (fn :: stack) !! k = Some fn0 →
                       Framework.passesOver pending fn0 = true)
                    ∧ match pending with
                      | None =>
                          Framework.res final = Framework.after a
                          ∧ Framework.logStream final = []
                      | Some e =>
                          let r := Framework.after a in
                          let sent :=
                            if Framework.hasContentType r
                            then Framework.__headers r
                            else <["content-type"
                                   := Some ["application/json; charset=utf-8"]]>
                                   (Framework.__headers r) in
                          let stored :=
                            Framework.withBody Framework.internalServerError
                              (Framework.withHeaders sent
                                 (Framework.withStatusCode 500 r)) in
                          Framework.logStream final
                          = [describe e +:+ Framework.newline]
                          ∧ Framework.res final
                            = if Framework.__finished r then r
                              else if Framework.hasDone r
                                   then Framework.finish
                                          {| Framework.statusCode := 500;
                                             Framework.headers := toNode sent;
                                             Framework.body :=
                                               if bool_decide
                                                    (Framework.reqMethod r
                                                     = Some "HEAD")
                                               then EmptyString
                                               else Framework.internalServerError |}
                                          stored
                                   else stored
                      end
                end
            end).
  { intros e' He' final.
    destruct (nextFn_end toNode describe stack [fn] e' st' a1 eq_refl He'
                eq_refl) as (a & Hlast & Hend).
    { intros k fk Hk. cbn [Framework.index a1 length] in Hk. lia. }
    cbn [length app] in Hlast, Hend. fold final in Hlast, Hend.
    rewrite Hlast.
    destruct (Framework.passes (Framework.outcome a)) as [[e|]|]; [|done..].
    destruct Hend as (Hskip & Hlog & Hres). split; [done|].
    cbn zeta. split; [done|].
    rewrite Hres, defaultErrorHandler_res. done. }
  destruct o as [|e'|e'].
  - done.
  - by apply Hnext.
  - by apply Hnext.
Qed.

Section EarlierStackFacts.

Context {H E : Type}.
Variable toNode : gmap string (option (list string)) → H.
Variable describe : E → string.

(** Where no function has four parameters or more, the two versions of
    [nextFn] do the same. *)
Lemma nextFnEarlier_nextFn (stack : list (Framework.Middleware H E))
    (i : nat) (err : option E) (st : Framework.Run H E) :
  Forall (λ fn, (Framework.fnLength fn < 4)%nat) stack →
  fst (Framework.nextFnEarlier toNode describe stack i err st)
  = Framework.nextFn toNode describe stack i err st.
Proof.
  intros Hall. revert i err st.
  induction Hall as [|fn stack Hfn Hall IH]; intros i err st; [done|].
  cbn [Framework.nextFnEarlier Framework.nextFn].
  assert (Hlt : (Framework.fnLength fn <? 4)%nat = true).
  { by apply Nat.ltb_lt. }
  assert (Hgt : (3 <? Framework.fnLength fn)%nat = false).
  { apply Nat.ltb_ge. lia. }
  unfold Framework.passesOver. destruct err as [e|].
  - rewrite Hlt. apply IH.
  - rewrite Hgt.
    destruct (Framework.invoke fn i None st) as [st' [|e'|e']]; [done|..];
      apply IH.
Qed.

(** Where a run of the earlier version stops: the calls it adds are at or
    after the position it starts at, and it leaves [_currIndex] at the
    function that returned without [next], or else at the end of the
    stack. *)
Lemma nextFnEarlier_index (stack : list (Framework.Middleware H E))
    (i : nat) (err : option E) (st : Framework.Run H E) :
  let final := Framework.nextFnEarlier toNode describe stack i err st in
  ∃ tr,
    Framework.invoked (fst final) = (Framework.invoked st ++ tr)%list
    ∧ (∀ a, a ∈ tr → (i ≤ Framework.index a)%nat)
    ∧ (err = None → stack ≠ [] → tr ≠ [])
    ∧ match last tr with
      | None => snd final = (i + length stack)%nat
      | Some a =>
          match Framework.passes (Framework.outcome a) with
          | None => snd final = Framework.index a
          | Some _ => snd final = (i + length stack)%nat
          end
      end.
Proof.
  revert i err st. induction stack as [|fn stack IH]; intros i err st.
  { exists []. rewrite app_nil_r. cbn [Framework.nextFnEarlier fst snd].
    split; [|split; [|split]].
    - destruct err as [e|]; [|done]. apply defaultErrorHandler_invoked.
    - intros a Ha. by apply elem_of_nil in Ha.
    - done.
    - cbn. lia. }
  cbn zeta. cbn [Framework.nextFnEarlier].
  destruct (match err with
            | None => false
            | Some _ => (Framework.fnLength fn <? 4)%nat
            end) eqn:Hskip.
  - destruct (IH (S i) err st) as (tr & Htr & Hge & _ & Hlast).
    exists tr. split; [done|]. split; [|split].
    + intros a Ha. apply Hge in Ha. lia.
    + intros ->. done.
    + cbn [length]. replace (i + S (length stack))%nat
        with (S i + length stack)%nat by lia. done.
  - rewrite invoke_eq. cbn zeta.
    set (err' := if (Framework.fnLength fn <? 4)%nat then None else err).
    destruct (Framework.call fn err' (Framework.res st)) as [r o] eqn:Hcall.
    cbn [fst snd].
    set (a1 := {| Framework.index := i; Framework.error := err';
                  Framework.outcome := o; Framework.after := r |}).
    set (st' := {| Framework.res := r;
                   Framework.logStream := Framework.logStream st;
                   Framework.invoked := (Framework.invoked st ++ [a1])%list |}).
    assert (Hnext : ∀ e', Framework.passes o = Some e' →
              ∃ tr,
                Framework.invoked
                  (fst (Framework.nextFnEarlier toNode describe stack (S i)
                          e' st'))
                = (Framework.invoked st ++ tr)%list
                ∧ (∀ a, a ∈ tr → (i ≤ Framework.index a)%nat)
                ∧ (err = None → fn :: stack ≠ [] → tr ≠ [])
                ∧ match last tr with
                  | None =>
                      snd (Framework.nextFnEarlier toNode describe stack
                             (S i) e' st')
                      = (i + length (fn :: stack))%nat
                  | Some a =>
                      match Framework.passes (Framework.outcome a) with
                      | None =>
                          snd (Framework.nextFnEarlier toNode describe stack
                                 (S i) e' st')
                          = Framework.index a
                      | Some _ =>
                          snd (Framework.nextFnEarlier toNode describe stack
                                 (S i) e' st')
                          = (i + length (fn :: stack))%nat
                      end
                  end).
    { intros e' He'.
      destruct (IH (S i) e' st') as (tr & Htr & Hge & _ & Hlast).
      exists (a1 :: tr). split; [|split; [|split]].
      - rewrite Htr. cbn [Framework.invoked st']. by rewrite <- app_assoc.
      - intros a Ha. apply elem_of_cons in Ha as [->|Ha]; [done|].
        apply Hge in Ha. lia.
      - done.
      - cbn [length]. replace (i + S (length stack))%nat
          with (S i + length stack)%nat by lia.
        destruct tr as [|b tr].
        + cbn [last]. cbn [last] in Hlast.
          cbn [Framework.outcome a1]. by rewrite He'.
        + by rewrite last_cons_cons. }
    destruct o as [|e'|e'].
    + exists [a1]. split; [done|]. split; [|split].
      * intros a Ha. apply list_elem_of_singleton in Ha as ->. done.
      * done.
      * done.
    + by apply Hnext.
    + by apply Hnext.
Qed.

End EarlierStackFacts.

(** On a stack in which no function after the first has four parameters
    or more, the earlier version of [run], started at the first function,
    does what the present one does. *)
Theorem earlier_stack_agrees_without_error_handlers {H E : Type}
    (toNode : gmap string (option (list string)) → H) (describe : E → string)
    (stack : list (Framework.Middleware H E)) (res : Framework.Response H) :
  Forall (λ fn, (Framework.fnLength fn < 4)%nat) (tail stack) →
  fst (Framework.runEarlier toNode describe stack 0 res)
  = Framework.run toNode describe stack res.
Proof.
  intros Hall. unfold Framework.runEarlier, Framework.run, Framework._run.
  rewrite drop_0. destruct stack as [|fn stack]; [done|].
  cbn [tail] in Hall. cbn [Framework.nextFnEarlier].
  destruct (Framework.invoke fn 0 None _) as [st' [|e'|e']]; [done|..];
    by apply nextFnEarlier_nextFn.
Qed.

(** A stack of [StackExamples.logger] and [StackExamples.failing]. *)
Lemma earlier_stack_agrees_witness :
  fst (Framework.runEarlier (λ _, ()) id
         [Framework.StackExamples.logger; Framework.StackExamples.failing] 0
         (Framework.create None true))
  = Framework.run (λ _, ()) id
      [Framework.StackExamples.logger; Framework.StackExamples.failing]
      (Framework.create None true).
Proof.
  apply (earlier_stack_agrees_without_error_handlers (λ _, ()) id
           [Framework.StackExamples.logger; Framework.StackExamples.failing]
           (Framework.create None true)).
  repeat constructor.
Defined.

(** The earlier version of [run] never sets [_currIndex] back.  A run
    leaves it at the function whose call returned without [next], or at
    the end of the stack when the last call passed something on; the next
    run starts there: it calls no function before that position, and after
    a run that went through the stack it calls nothing at all and leaves
    its response untouched. *)
Theorem earlier_stack_does_not_restart {H E : Type}
    (toNode : gmap string (option (list string)) → H) (describe : E → string)
    (stack : list (Framework.Middleware H E)) (res : Framework.Response H) :
  let first := Framework.runEarlier toNode describe stack 0 res in
  let i := snd first in
  (∀ res2 a,
     a ∈ Framework.invoked
           (fst (Framework.runEarlier toNode describe stack i res2)) →
     (i ≤ Framework.index a)%nat)
  ∧ match last (Framework.invoked (fst first)) with
    | None => stack = []
    | Some a =>
        match Framework.passes (Framework.outcome a) with
        | None => i = Framework.index a
        | Some _ =>
            i = length stack
            ∧ ∀ res2,
                fst (Framework.runEarlier toNode describe stack i res2)
                = {| Framework.res := res2; Framework.logStream := [];
                     Framework.invoked := [] |}
        end
    end.
Proof.
  intros first i. split.
  - intros res2 a Ha. unfold Framework.runEarlier in Ha.
    destruct (nextFnEarlier_index toNode describe (drop i stack) i None
                {| Framework.res := res2; Framework.logStream := [];
                   Framework.invoked := [] |}) as (tr & Htr & Hge & _).
    rewrite Htr in Ha. by apply Hge.
  - subst i first. unfold Framework.runEarlier at 1 2 3 4. rewrite drop_0.
    destruct (nextFnEarlier_index toNode describe stack 0 None
                {| Framework.res := res; Framework.logStream := [];
                   Framework.invoked := [] |}) as (tr & Htr & _ & Hne & Hlast).
    cbn [Framework.invoked app] in Htr. rewrite Htr.
    destruct (last tr) as [a|] eqn:Hl.
    + destruct (Framework.passes (Framework.outcome a)); [|done].
      cbn [Nat.add] in Hlast. split; [done|]. intros res2.
      unfold Framework.runEarlier. rewrite Hlast.
      by rewrite drop_all.
    + apply last_None in Hl. destruct stack as [|fn stack]; [done|].
      by destruct (Hne eq_refl).
Qed.
